(** * Connect Four: board logic, position evaluator, AI tiers and session
    controller of the JavaScript sources [board.js], [ai.js] and [app.js],
    embedded as Rocq functions, with the properties of the specification
    stated and proved (or refuted) about them.

    Conventions of the embedding.
    - A JavaScript number that the code uses as an index, a cell value or a
      player is a [Z]; a score, which may also be [-Infinity] or [Infinity],
      is a [num].
    - A board is the array of arrays the code has: [list (list Z)].  A read
      [board[row][col]] is [get], whose [None] is JavaScript's [undefined].
    - A function that mutates its board argument returns the mutated board
      next to its result.
    - A [for] loop that may [return] from inside is [firstSome]; a loop that
      accumulates is a [foldl]. *)

From Stdlib Require Import ZArith QArith Qround Lia Lqa.
From stdpp Require Import base numbers list strings option sorting.

Local Open Scope Z_scope.

(** ** Loops *)

(** [for (const x of l) { ... return v ... }]: the value of the first
    iteration that returns, [None] when the loop runs to its end. *)
Fixpoint firstSome {A B : Type} (f : A → option B) (l : list A) : option B :=
  match l with
  | [] => None
  | x :: rest =>
      match f x with
      | Some v => Some v
      | None => firstSome f rest
      end
  end.

(** [x === v] for a value read from an array ([None] is [undefined]). *)
Definition strictEq (x : option Z) (v : Z) : bool := bool_decide (x = Some v).

Module Board.

Definition ROWS : Z := 6.
Definition COLS : Z := 7.
Definition WIN_LENGTH : Z := 4.

Abbreviation board := (list (list Z)).

(** [board[row][col]].  The code only reads inside the 6x7 grid: every loop
    runs over [0 .. ROWS-1] and [0 .. COLS-1], and [checkWin] checks the
    bounds before it reads. *)
Definition get (b : board) (row col : Z) : option Z :=
  if (0 <=? row) && (0 <=? col)
  then b !! Z.to_nat row ≫= (λ r, r !! Z.to_nat col)
  else None.

(** [board[row][col] = v], on a cell that exists (the only write of the
    code, in [dropDisc], is to a cell it has just read as [0]). *)
Definition set (b : board) (row col : Z) (v : Z) : board :=
  alter (λ r, <[Z.to_nat col := v]> r) (Z.to_nat row) b.

(** [Array(ROWS).fill(null).map(() => Array(COLS).fill(0))] *)
Definition createBoard : board :=
  replicate (Z.to_nat ROWS) (replicate (Z.to_nat COLS) 0).

(** [board.map(row => [...row])] *)
Definition cloneBoard (b : board) : board := map (λ row : list Z, row) b.

(** The [for (let row = ROWS - 1; row >= 0; row--)] loop of
    [getLowestEmptyRow], with [n] iterations left: [row] is [n - 1]. *)
Fixpoint lowestFrom (b : board) (col : Z) (n : nat) : Z :=
  match n with
  | O => -1
  | S k =>
      if strictEq (get b (Z.of_nat k) col) 0 then Z.of_nat k
      else lowestFrom b col k
  end.

Definition getLowestEmptyRow (b : board) (col : Z) : Z :=
  if (col <? 0) || (col >=? COLS) then -1
  else lowestFrom b col (Z.to_nat ROWS).

Record DropResult := { success : bool; row : Z }.

(** [dropDisc] mutates [board]: the board after the call is the first
    component. *)
Definition dropDisc (b : board) (col player : Z) : board * DropResult :=
  let row := getLowestEmptyRow b col in
  if row =? -1 then (b, {| success := false; row := -1 |})
  else (set b row col player, {| success := true; row := row |}).

(** [board[0][col] !== 0] *)
Definition isColumnFull (b : board) (col : Z) : bool :=
  negb (strictEq (get b 0 col) 0).

(** [board[0].every(cell => cell !== 0)]; a board has a row 0. *)
Definition isBoardFull (b : board) : bool :=
  match b !! 0%nat with
  | Some r => forallb (λ cell, negb (cell =? 0)) r
  | None => true
  end.

Record WinResult := { win : bool; line : list (Z * Z) }.

Definition outOfBounds (row col : Z) : bool :=
  (row <? 0) || (row >=? ROWS) || (col <? 0) || (col >=? COLS).

(** The forward loop of [checkWin] over the remaining values of [i];
    [line.push] appends. *)
Fixpoint forward (b : board) (startRow startCol dRow dCol player : Z)
    (steps : list Z) (line : list (Z * Z)) (count : Z) : list (Z * Z) * Z :=
  match steps with
  | [] => (line, count)
  | i :: rest =>
      let row := startRow + dRow * i in
      let col := startCol + dCol * i in
      if outOfBounds row col then (line, count)
      else if strictEq (get b row col) player
      then forward b startRow startCol dRow dCol player rest
             (line ++ [(row, col)]) (count + 1)
      else (line, count)
  end.

(** The backward loop; [line.unshift] adds in front. *)
Fixpoint backward (b : board) (startRow startCol dRow dCol player : Z)
    (steps : list Z) (line : list (Z * Z)) (count : Z) : list (Z * Z) * Z :=
  match steps with
  | [] => (line, count)
  | i :: rest =>
      let row := startRow - dRow * i in
      let col := startCol - dCol * i in
      if outOfBounds row col then (line, count)
      else if strictEq (get b row col) player
      then backward b startRow startCol dRow dCol player rest
             ((row, col) :: line) (count + 1)
      else (line, count)
  end.

Definition directions : list (Z * Z) := [(0, 1); (1, 0); (1, 1); (1, -1)].

(** One iteration of the loop over [directions]: [Some] when it returns. *)
Definition checkDirection (b : board) (startRow startCol player : Z)
    (d : Z * Z) : option WinResult :=
  let '(dRow, dCol) := d in
  let steps := seqZ 1 (WIN_LENGTH - 1) in
  let '(line1, count1) :=
    forward b startRow startCol dRow dCol player steps [(startRow, startCol)] 1 in
  let '(line2, count2) :=
    if count1 <? WIN_LENGTH
    then backward b startRow startCol dRow dCol player steps line1 count1
    else (line1, count1) in
  if count2 >=? WIN_LENGTH
  then Some {| win := true; line := take (Z.to_nat WIN_LENGTH) line2 |}
  else None.

Definition checkWin (b : board) (startRow startCol player : Z) : WinResult :=
  match firstSome (checkDirection b startRow startCol player) directions with
  | Some r => r
  | None => {| win := false; line := [] |}
  end.

(** The loop pushes every column that is not full, in ascending order. *)
Definition getAvailableMoves (b : board) : list Z :=
  foldl (λ moves col, if negb (isColumnFull b col) then moves ++ [col] else moves)
        [] (seqZ 0 COLS).

(** [player === 1 ? 2 : 1] *)
Definition opponentOf (player : Z) : Z := if player =? 1 then 2 else 1.

(** The row-major scan for a winning cell that [evaluateBoard] and [minimax]
    both start with; [ifPlayer] and [ifOpponent] are the values they return
    from inside the loop. *)
Definition winScan (b : board) (player opponent ifPlayer ifOpponent : Z)
    : option Z :=
  firstSome (λ row,
    firstSome (λ col,
      if strictEq (get b row col) player && win (checkWin b row col player)
      then Some ifPlayer
      else if strictEq (get b row col) opponent
              && win (checkWin b row col opponent)
      then Some ifOpponent
      else None)
      (seqZ 0 COLS))
    (seqZ 0 ROWS).

(** The body of the centre-column loop. *)
Definition centerTerm (b : board) (player opponent : Z) (score row : Z) : Z :=
  if strictEq (get b row 3) player then score + 3
  else if strictEq (get b row 3) opponent then score - 3
  else score.

(** The body of the four loops over adjacent pairs: the cell [(row, col)]
    and its neighbour [(row + dRow, col + dCol)]. *)
Definition pairTerm (b : board) (player opponent dRow dCol : Z)
    (row score col : Z) : Z :=
  let score :=
    if strictEq (get b row col) player
       && strictEq (get b (row + dRow) (col + dCol)) player
    then score + 2 else score in
  if strictEq (get b row col) opponent
     && strictEq (get b (row + dRow) (col + dCol)) opponent
  then score - 2 else score.

(** A double loop [for row in rows, for col in cols] over [pairTerm]. *)
Definition pairLoop (b : board) (player opponent dRow dCol : Z)
    (rows cols : list Z) (score : Z) : Z :=
  foldl (λ score row, foldl (pairTerm b player opponent dRow dCol row) score cols)
        score rows.

Definition heuristic (b : board) (player opponent : Z) : Z :=
  let score := 0 in
  let score := foldl (centerTerm b player opponent) score (seqZ 0 ROWS) in
  let score := pairLoop b player opponent 0 1
                 (seqZ 0 ROWS) (seqZ 0 (COLS - 1)) score in
  let score := pairLoop b player opponent 1 0
                 (seqZ 0 (ROWS - 1)) (seqZ 0 COLS) score in
  let score := pairLoop b player opponent 1 1
                 (seqZ 0 (ROWS - 1)) (seqZ 0 (COLS - 1)) score in
  let score := pairLoop b player opponent 1 (-1)
                 (seqZ 0 (ROWS - 1)) (seqZ 1 (COLS - 1)) score in
  score.

Definition evaluateBoard (b : board) (player : Z) : Z :=
  let opponent := opponentOf player in
  match winScan b player opponent 10000 (-10000) with
  | Some v => v
  | None => heuristic b player opponent
  end.

End Board.

Module AI.
Import Board.

(** A JavaScript number that is an integer, [-Infinity] or [Infinity]. *)
Inductive num := NegInf | Fin (z : Z) | PosInf.

Definition mathMax (x y : num) : num :=
  match x, y with
  | PosInf, _ | _, PosInf => PosInf
  | NegInf, v | v, NegInf => v
  | Fin a, Fin b => Fin (Z.max a b)
  end.

Definition mathMin (x y : num) : num :=
  match x, y with
  | NegInf, _ | _, NegInf => NegInf
  | PosInf, v | v, PosInf => v
  | Fin a, Fin b => Fin (Z.min a b)
  end.

(** [x <= y] *)
Definition numLe (x y : num) : bool :=
  match x, y with
  | NegInf, _ => true
  | _, PosInf => true
  | Fin a, Fin b => a <=? b
  | _, _ => false
  end.

(** [x > y] *)
Definition numGt (x y : num) : bool := negb (numLe x y).

(** [l[i]]: [undefined] outside the array. *)
Definition index {A : Type} (l : list A) (i : Z) : option A :=
  if i <? 0 then None else l !! Z.to_nat i.

(** [rnd] is the value of the call [Math.random()], a number in [0, 1),
    taken as an exact rational. *)
Definition getEasyMove (availableMoves : list Z) (rnd : Q) : option Z :=
  let randomIndex :=
    Qfloor (rnd * inject_Z (Z.of_nat (length availableMoves))) in
  index availableMoves randomIndex.

(** The body shared by the win loop and the block loop of [getMediumMove]:
    simulate the drop of [player] in [col] on a clone and test for a win. *)
Definition tryColumn (b : board) (player col : Z) : option Z :=
  let '(testBoard, result) := dropDisc (cloneBoard b) col player in
  if success result
  then if win (checkWin testBoard (row result) col player)
       then Some col else None
  else None.

Definition centerOrder : list Z := [3; 2; 4; 1; 5; 0; 6].

(** [availableMoves.includes(col)] *)
Definition includes (l : list Z) (col : Z) : bool := bool_decide (col ∈ l).

Definition getMediumMove (b : board) (availableMoves : list Z) (aiPlayer : Z)
    (rnd : Q) : option Z :=
  let opponent := opponentOf aiPlayer in
  match firstSome (tryColumn b aiPlayer) availableMoves with
  | Some col => Some col
  | None =>
  match firstSome (tryColumn b opponent) availableMoves with
  | Some col => Some col
  | None =>
  match firstSome (λ col, if includes availableMoves col then Some col else None)
                  centerOrder with
  | Some col => Some col
  | None => getEasyMove availableMoves rnd
  end end end.

(** [depth], the remaining search depth, is a natural number: the search is
    entered with [depth - 1] for the default [depth = 5] and every level
    passes [depth - 1] on until [depth === 0]. *)
Fixpoint minimax (b : board) (depth : nat) (isMaximizing : bool)
    (aiPlayer opponent : Z) (alpha beta : num) : num :=
  match depth with
  | O => Fin (evaluateBoard b aiPlayer)
  | S depth' =>
      match winScan b aiPlayer opponent
              (10000 + Z.of_nat depth) (-10000 - Z.of_nat depth) with
      | Some v => Fin v
      | None =>
          let availableMoves := getAvailableMoves b in
          if (length availableMoves =? 0)%nat then Fin 0
          else if isMaximizing then
            (fix loop (cols : list Z) (maxScore alpha : num) : num :=
               match cols with
               | [] => maxScore
               | col :: rest =>
                   let '(testBoard, result) :=
                     dropDisc (cloneBoard b) col aiPlayer in
                   if negb (success result) then loop rest maxScore alpha
                   else
                     let score := minimax testBoard depth' false
                                    aiPlayer opponent alpha beta in
                     let maxScore := mathMax maxScore score in
                     let alpha := mathMax alpha score in
                     if numLe beta alpha then maxScore
                     else loop rest maxScore alpha
               end) availableMoves NegInf alpha
          else
            (fix loop (cols : list Z) (minScore beta : num) : num :=
               match cols with
               | [] => minScore
               | col :: rest =>
                   let '(testBoard, result) :=
                     dropDisc (cloneBoard b) col opponent in
                   if negb (success result) then loop rest minScore beta
                   else
                     let score := minimax testBoard depth' true
                                    aiPlayer opponent alpha beta in
                     let minScore := mathMin minScore score in
                     let beta := mathMin beta score in
                     if numLe beta alpha then minScore
                     else loop rest minScore beta
               end) availableMoves PosInf beta
      end
  end.

(** One iteration of the loop of [getHardMove] on [(bestScore, bestMove)]. *)
Definition hardStep (b : board) (aiPlayer opponent : Z) (depth : nat)
    (best : num * option Z) (col : Z) : num * option Z :=
  let '(bestScore, bestMove) := best in
  let '(testBoard, result) := dropDisc (cloneBoard b) col aiPlayer in
  if negb (success result) then best
  else
    let score := minimax testBoard (depth - 1) false aiPlayer opponent
                   NegInf PosInf in
    if numGt score bestScore then (score, Some col) else best.

Definition getHardMove (b : board) (availableMoves : list Z) (aiPlayer : Z)
    (depth : nat) : option Z :=
  let opponent := opponentOf aiPlayer in
  let bestScore := NegInf in
  let bestMove := index availableMoves 0 in
  snd (foldl (hardStep b aiPlayer opponent depth) (bestScore, bestMove)
         availableMoves).

(** The default value of the parameter [depth] of [getHardMove]. *)
Definition defaultDepth : nat := 5.

Definition getAIMove (b : board) (difficulty : string) (aiPlayer : Z)
    (rnd : Q) : option Z :=
  let availableMoves := getAvailableMoves b in
  if (length availableMoves =? 0)%nat then Some (-1)
  else if String.eqb difficulty "easy" then getEasyMove availableMoves rnd
  else if String.eqb difficulty "medium"
       then getMediumMove b availableMoves aiPlayer rnd
  else if String.eqb difficulty "hard"
       then getHardMove b availableMoves aiPlayer defaultDepth
  else getEasyMove availableMoves rnd.

End AI.

Module Session.
Import Board AI.

(** The object built by [createMoveObject] (its [timestamp] left out). *)
Record Move := {
  turn : Z;
  player : Z;
  column : Z;
  moveRow : Z;
  aiFace : option string;
  aiText : option string;
  boardSnapshot : board
}.

(** An entry of [undoStack]. *)
Record Checkpoint := {
  savedBoard : board;
  savedPlayer : Z;
  moveHistoryLength : nat
}.

(** The module-level game state of [app.js]; what belongs to rendering,
    sound, logging and persistence is left out. *)
Record State := {
  currentBoard : board;
  currentPlayer : Z;
  gameMode : string;
  aiDifficulty : string;
  playerOrder : string;
  isGameActive : bool;
  isAnimating : bool;
  moveHistory : list Move;
  undoStack : list Checkpoint
}.

Definition setBoard (st : State) (b : board) : State :=
  {| currentBoard := b; currentPlayer := currentPlayer st;
     gameMode := gameMode st; aiDifficulty := aiDifficulty st;
     playerOrder := playerOrder st;
     isGameActive := isGameActive st; isAnimating := isAnimating st;
     moveHistory := moveHistory st; undoStack := undoStack st |}.

Definition setPlayer (st : State) (p : Z) : State :=
  {| currentBoard := currentBoard st; currentPlayer := p;
     gameMode := gameMode st; aiDifficulty := aiDifficulty st;
     playerOrder := playerOrder st;
     isGameActive := isGameActive st; isAnimating := isAnimating st;
     moveHistory := moveHistory st; undoStack := undoStack st |}.

Definition setActive (st : State) (a : bool) : State :=
  {| currentBoard := currentBoard st; currentPlayer := currentPlayer st;
     gameMode := gameMode st; aiDifficulty := aiDifficulty st;
     playerOrder := playerOrder st;
     isGameActive := a; isAnimating := isAnimating st;
     moveHistory := moveHistory st; undoStack := undoStack st |}.

Definition setAnimating (st : State) (a : bool) : State :=
  {| currentBoard := currentBoard st; currentPlayer := currentPlayer st;
     gameMode := gameMode st; aiDifficulty := aiDifficulty st;
     playerOrder := playerOrder st;
     isGameActive := isGameActive st; isAnimating := a;
     moveHistory := moveHistory st; undoStack := undoStack st |}.

Definition setHistory (st : State) (h : list Move) : State :=
  {| currentBoard := currentBoard st; currentPlayer := currentPlayer st;
     gameMode := gameMode st; aiDifficulty := aiDifficulty st;
     playerOrder := playerOrder st;
     isGameActive := isGameActive st; isAnimating := isAnimating st;
     moveHistory := h; undoStack := undoStack st |}.

Definition setUndo (st : State) (u : list Checkpoint) : State :=
  {| currentBoard := currentBoard st; currentPlayer := currentPlayer st;
     gameMode := gameMode st; aiDifficulty := aiDifficulty st;
     playerOrder := playerOrder st;
     isGameActive := isGameActive st; isAnimating := isAnimating st;
     moveHistory := moveHistory st; undoStack := u |}.

(** The values of the module-level variables when [app.js] is loaded;
    [currentBoard] is [null] there, an array without rows here. *)
Definition initialState : State :=
  {| currentBoard := []; currentPlayer := 1; gameMode := "ai";
     aiDifficulty := "medium"; playerOrder := "player";
     isGameActive := false; isAnimating := false;
     moveHistory := []; undoStack := [] |}.

(** [startNewGame], on the game state. *)
Definition startNewGame (st : State) : State :=
  {| currentBoard := createBoard;
     currentPlayer := if String.eqb (playerOrder st) "player" then 1 else 2;
     gameMode := gameMode st; aiDifficulty := aiDifficulty st;
     playerOrder := playerOrder st;
     isGameActive := true; isAnimating := isAnimating st;
     moveHistory := []; undoStack := [] |}.

(** [handleNewGameSubmit] with the three values of the form. *)
Definition handleNewGameSubmit (mode order difficulty : string) (st : State)
    : State :=
  startNewGame
    {| currentBoard := currentBoard st; currentPlayer := currentPlayer st;
       gameMode := mode; aiDifficulty := difficulty; playerOrder := order;
       isGameActive := isGameActive st; isAnimating := isAnimating st;
       moveHistory := moveHistory st; undoStack := undoStack st |}.

(** [undoStack.push({board: cloneBoard(currentBoard), player: currentPlayer,
    moveHistoryLength: moveHistory.length})] *)
Definition pushCheckpoint (st : State) : State :=
  setUndo st (undoStack st ++
    [{| savedBoard := cloneBoard (currentBoard st);
        savedPlayer := currentPlayer st;
        moveHistoryLength := length (moveHistory st) |}]).

(** [handleGameOver], on the game state. *)
Definition handleGameOver (st : State) : State :=
  setAnimating (setActive st false) false.

(** A move that has been placed and waits for the drop animation: what
    [makeMove] and [makeAIMove] hold across their [await]. *)
Record Placed := {
  placedCol : Z;
  placedPlayer : Z;
  placedRow : Z;
  placedFace : option string;
  placedText : option string
}.

(** [makeMove] up to its [await]: either it has returned ([None]) or the
    disc is placed and the rest runs after the animation. *)
Definition makeMove (col player : Z) (st : State) : State * option Placed :=
  if isAnimating st then (st, None)
  else
    let st := setAnimating st true in
    let st := pushCheckpoint st in
    let '(b', result) := dropDisc (currentBoard st) col player in
    let st := setBoard st b' in
    if negb (success result) then (setAnimating st false, None)
    else (st, Some {| placedCol := col; placedPlayer := player;
                      placedRow := row result;
                      placedFace := None; placedText := None |}).

(** The part of [makeMove] and of [makeAIMove] after the animation: log the
    move, then win, draw or next turn.  [next] is the player to move next
    ([currentPlayer === 1 ? 2 : 1] in [makeMove], [1] in [makeAIMove]). *)
Definition afterAnimation (p : Placed) (next : Z) (st : State) : State :=
  let moveNumber := Z.of_nat (length (moveHistory st)) + 1 in
  let moveObj :=
    {| turn := moveNumber; player := placedPlayer p; column := placedCol p;
       moveRow := placedRow p; aiFace := placedFace p; aiText := placedText p;
       boardSnapshot := cloneBoard (cloneBoard (currentBoard st)) |} in
  let st := setHistory st (moveHistory st ++ [moveObj]) in
  if win (checkWin (currentBoard st) (placedRow p) (placedCol p) (placedPlayer p))
  then setAnimating (handleGameOver st) false
  else if isBoardFull (currentBoard st)
  then setAnimating (handleGameOver st) false
  else setAnimating (setPlayer st next) false.

Definition makeMoveResume (p : Placed) (st : State) : State :=
  afterAnimation p (if currentPlayer st =? 1 then 2 else 1) st.

Definition handleColumnClick (col : Z) (st : State) : State * option Placed :=
  if negb (isGameActive st) || isAnimating st then (st, None)
  else if String.eqb (gameMode st) "ai" && (currentPlayer st =? 2)
  then (st, None)
  else if isColumnFull (currentBoard st) col then (st, None)
  else makeMove col (currentPlayer st) st.

(** [makeAIMove] before its first [await]: [false] when it returns at once. *)
Definition makeAIMove (st : State) : State * bool :=
  if negb (isGameActive st) || isAnimating st || negb (currentPlayer st =? 2)
  then (st, false)
  else (setAnimating st true, true).

(** [makeAIMove] after the thinking delay, up to the animation; [rnd] is the
    value of [Math.random()] in [getAIMove], [face] and [text] the reaction
    chosen by [updateAIFace]. *)
Definition makeAIMoveThink (rnd : Q) (face text : string) (st : State)
    : State * option Placed :=
  match getAIMove (currentBoard st) (aiDifficulty st) 2 rnd with
  | None => (setAnimating st false, None)
  | Some aiCol =>
      if (aiCol =? -1) || isColumnFull (currentBoard st) aiCol
      then (setAnimating st false, None)
      else
        let st := pushCheckpoint st in
        let '(b', result) := dropDisc (currentBoard st) aiCol 2 in
        let st := setBoard st b' in
        if negb (success result) then (setAnimating st false, None)
        else (st, Some {| placedCol := aiCol; placedPlayer := 2;
                          placedRow := row result;
                          placedFace := Some face; placedText := Some text |})
  end.

Definition makeAIMoveResume (p : Placed) (st : State) : State :=
  afterAnimation p 1 st.

(** [undoStack.pop()] and the restore of [handleUndo]. *)
Definition handleUndo (st : State) : State :=
  if negb (isGameActive st) || isAnimating st
     || (length (undoStack st) =? 0)%nat
  then st
  else
    match list.last (undoStack st) with
    | None => st
    | Some lastState =>
        let st := setUndo st (removelast (undoStack st)) in
        let st := setBoard st (savedBoard lastState) in
        let st := setPlayer st (savedPlayer lastState) in
        setHistory st (take (moveHistoryLength lastState) (moveHistory st))
    end.

End Session.

(** ** History and replay: [history.js] and [startReplay] of [app.js] *)

Module History.
Import Board Session.

(** The record that [handleGameOver] hands to [saveGame] (its [timestamp]
    left out). *)
Record HistoryItem := {
  itemId : string;
  itemMode : string;
  itemDifficulty : string;
  itemPlayerOrder : string;
  moves : list Move;
  finalBoard : board;
  winner : option Z
}.

(** The value of [localStorage] under [STORAGE_KEY]: [None] when the key is
    absent, otherwise the array that the stored JSON text encodes. *)
Abbreviation storage := (option (list HistoryItem)).

Definition getAllGames (stored : storage) : list HistoryItem :=
  match stored with
  | None => []
  | Some games => games
  end.

(** [existing.slice(-100)] *)
Definition lastHundred (existing : list HistoryItem) : list HistoryItem :=
  drop (length existing - 100) existing.

(** [saveGame] when [localStorage.setItem] does not throw: the new value of
    the storage and the returned [true]. *)
Definition saveGame (stored : storage) (historyItem : HistoryItem)
    : storage * bool :=
  let existing := getAllGames stored in
  let existing := existing ++ [historyItem] in
  let trimmed := lastHundred existing in
  (Some trimmed, true).

Definition clearHistory (stored : storage) : storage * bool := (None, true).

(** [games.find(game => game.id === gameId) || null] *)
Definition getGameById (stored : storage) (gameId : string)
    : option HistoryItem :=
  let games := getAllGames stored in
  snd <$> list_find (λ game, itemId game = gameId) games.

(** The loop of [replayGame] and of [updateReplayDisplay]:
    [board[move.row][move.column] = move.player] for each move, from
    [createBoard()]. *)
Definition rebuild (moves : list Move) : board :=
  foldl (λ b move, set b (moveRow move) (column move) (player move))
        createBoard moves.

(** [updateReplayDisplay]: the loop runs for
    [i <= currentStep && i < game.moves.length]. *)
Definition rebuildTo (game : HistoryItem) (currentStep : nat) : board :=
  rebuild (take (S currentStep) (moves game)).

(** The three buttons of the replay ([btnPrev], [btnNext]) and a click on
    the timeline entry [index], on [currentStep]. *)
Definition replayPrev (currentStep : nat) : nat :=
  if (0 <? currentStep)%nat then (currentStep - 1)%nat else currentStep.

Definition replayNext (game : HistoryItem) (currentStep : nat) : nat :=
  if (Z.of_nat currentStep <? Z.of_nat (length (moves game)) - 1)
  then S currentStep else currentStep.

End History.

(** ** Pointer and keyboard input: [ui.js] *)

Module UI.
Import Board.

Definition COLUMN_WIDTH : Z := 100.
Definition BOARD_PADDING : Z := 20.
Definition BOARD_WIDTH : Z := COLS * COLUMN_WIDTH + BOARD_PADDING * 2.

(** The [x] attribute of the click zone of column [col] in [createBoardSVG];
    its [width] is [COLUMN_WIDTH]. *)
Definition zoneX (col : Z) : Z := BOARD_PADDING + col * COLUMN_WIDTH.

(** [x < y] on numbers that are not integers, taken as exact rationals. *)
Definition Qltb (x y : Q) : bool := negb (Qle_bool y x).

(** [getColFromClientX] from its local [svgX] on: [svgX] is the value that
    [clientX - rect.left] has in the code, a binary64 number taken as the
    rational number that it is. *)
Definition getColFromClientX (svgX : Q) : Z :=
  if Qltb svgX (inject_Z BOARD_PADDING)
     || Qltb (inject_Z (BOARD_WIDTH - BOARD_PADDING)) svgX
  then -1
  else
    let relativeX := (svgX - inject_Z BOARD_PADDING)%Q in
    let col := Qfloor (relativeX / inject_Z COLUMN_WIDTH) in
    if (col >=? 0) && (col <? COLS) then col else -1.

(** [handleKeyDown] of [setupKeyboardNavigation] on its variable
    [currentCol]: the new value and, when [onDrop] is called, its argument.
    [disabled] is [svgEl.classList.contains('disabled')]. *)
Definition handleKeyDown (disabled : bool) (key : string) (currentCol : Z)
    : Z * option Z :=
  if disabled then (currentCol, None)
  else if String.eqb key "ArrowLeft"
  then (Z.max 0 (currentCol - 1), None)
  else if String.eqb key "ArrowRight"
  then (Z.min (COLS - 1) (currentCol + 1), None)
  else if String.eqb key "Enter" || String.eqb key " "
  then (currentCol, Some currentCol)
  else (currentCol, None).

(** The initial value of [currentCol]. *)
Definition startCol : Z := 3.

End UI.

(** ** Notions of the specification *)

Module Spec.
Import Board AI Session.

(** A side: Red is [1], Yellow is [2]. *)
Definition isSide (s : Z) : Prop := s = 1 ∨ s = 2.

(** Every cell of the 6x7 grid exists. *)
Definition grid (b : board) : Prop :=
  ∀ r c, 0 ≤ r < ROWS → 0 ≤ c < COLS → is_Some (get b r c).

Definition occupied (b : board) (r c : Z) : Prop :=
  ∃ v, get b r c = Some v ∧ v ≠ 0.

(** No floating token: below an occupied cell every cell is occupied. *)
Definition noFloating (b : board) : Prop :=
  ∀ c r r', 0 ≤ c < COLS → 0 ≤ r → r < r' → r' < ROWS →
    occupied b r c → occupied b r' c.

(** The occupied cells of column [c] are the rows [k .. ROWS-1]. *)
Definition segment (b : board) (c : Z) : Prop :=
  ∃ k, 0 ≤ k ≤ ROWS ∧ ∀ r, 0 ≤ r < ROWS → (occupied b r c ↔ k ≤ r).

(** The boards reached from [createBoard()] by successful drops of a side. *)
Inductive reachable : board → Prop :=
  | reach_create : reachable createBoard
  | reach_drop b c s :
      reachable b → isSide s → success (dropDisc b c s).2 = true →
      reachable (dropDisc b c s).1.

(** Column [c] takes no disc: it is outside [0, 6] or has no empty cell. *)
Definition blocked (b : board) (c : Z) : Prop :=
  c < 0 ∨ 6 < c ∨ ∀ r, 0 ≤ r ≤ 5 → get b r c ≠ Some 0.

(** [moves] are pairs (column, side), dropped in order. *)
Definition play (b : board) (moves : list (Z * Z)) : board :=
  foldl (λ b m, (dropDisc b m.1 m.2).1) b moves.

(** A board with one floating token, at row 4 of column 0 (the tests of the
    repository build such boards by writing cells directly). *)
Definition floatingBoard : board := set createBoard 4 0 1.

(** The position of scenario 1 before Red's fourth disc: Red in columns
    0, 1, 2 and Yellow three times in column 6. *)
Definition scenario1 : board :=
  play createBoard [(0, 1); (6, 2); (1, 1); (6, 2); (2, 1); (6, 2)].

(** Relabeling: Red becomes Yellow and Yellow becomes Red. *)
Definition swapCell (v : Z) : Z :=
  if v =? 1 then 2 else if v =? 2 then 1 else v.

Definition swapBoard (b : board) : board := map (map swapCell) b.

(** Playing [col] wins at once for [player]: the drop succeeds and
    [checkWin] at the landing cell reports a win. *)
Definition immediateWin (b : board) (col player : Z) : Prop :=
  success (dropDisc b col player).2 = true
  ∧ win (checkWin (dropDisc b col player).1
           (row (dropDisc b col player).2) col player) = true.

(** [col] is the first column of [order] that is in [moves]. *)
Definition firstOf (order moves : list Z) (col : Z) : Prop :=
  ∃ pre post, order = pre ++ col :: post ∧ col ∈ moves
              ∧ ∀ x, x ∈ pre → x ∉ moves.

(** The value of [Math.random()]. *)
Definition isRandom (rnd : Q) : Prop := (0 <= rnd)%Q ∧ (rnd < 1)%Q.

(** The position of scenario 1 after Red's third disc, Yellow to move. *)
Definition blockBoard : board :=
  play createBoard [(0, 1); (6, 2); (1, 1); (6, 2); (2, 1)].

(** Yellow has three in the bottom row and Red three in column 6: Yellow,
    to move, has both a win (column 3) and a block (column 6). *)
Definition winOrBlockBoard : board :=
  play createBoard [(6, 1); (0, 2); (6, 1); (1, 2); (6, 1); (2, 2); (4, 1)].

Definition inGrid (r c : Z) : Prop := 0 ≤ r < ROWS ∧ 0 ≤ c < COLS.

(** The cell [(r, c)] of the grid holds a disc of [p]. *)
Definition cellIs (b : board) (p r c : Z) : Prop :=
  inGrid r c ∧ get b r c = Some p.

(** The board contains four discs of [p] in a row: four consecutive cells
    of the grid along one of the four directions. *)
Definition fourInRow (b : board) (p : Z) : Prop :=
  ∃ r c dr dc, (dr, dc) ∈ directions
    ∧ ∀ i, 0 ≤ i < WIN_LENGTH → cellIs b p (r + dr * i) (c + dc * i).

(** Some cell of [p] makes [checkWin] report a win: what the scans of
    [evaluateBoard] and [minimax] look for. *)
Definition anchored (b : board) (p : Z) : Prop :=
  ∃ r c, cellIs b p r c ∧ win (checkWin b r c p) = true.

(** A game of 37 moves, Red first, without a four-in-a-row: two cells of
    column 5 and three of column 6 are empty and Yellow is to move, so that
    a search of depth 5 from here looks at full boards at depth 0. *)
Definition searchRoot : board :=
  play createBoard
    [(2, 1); (0, 2); (0, 1); (0, 2); (0, 1); (0, 2); (0, 1); (1, 2); (1, 1);
     (1, 2); (1, 1); (1, 2); (1, 1); (2, 2); (2, 1); (2, 2); (2, 1); (2, 2);
     (3, 1); (3, 2); (3, 1); (3, 2); (3, 1); (3, 2); (6, 1); (4, 2); (4, 1);
     (4, 2); (4, 1); (4, 2); (4, 1); (5, 2); (5, 1); (5, 2); (5, 1); (6, 2);
     (6, 1)].

(** Four plies below [searchRoot]: only the top cell of column 5 is empty
    and Yellow is to move. *)
Definition lastCellBoard : board :=
  play searchRoot [(6, 2); (6, 1); (5, 2); (6, 1)].

(** The full board after Yellow's last disc: a draw. *)
Definition drawnBoard : board := (dropDisc lastCellBoard 5 2).1.

(** A board of exactly 6 rows of 7 cells. *)
Definition sized (b : board) : Prop :=
  length b = 6%nat ∧ Forall (λ r, length r = 7%nat) b.

(** A click on a column followed, when the disc was placed, by the rest of
    [makeMove] after the animation. *)
Definition clickAndSettle (col : Z) (st : State) : State :=
  match handleColumnClick col st with
  | (st', Some p) => makeMoveResume p st'
  | (st', None) => st'
  end.

(** A two-player game in which the first six clicks filled column 0. *)
Definition fullColumnState : State :=
  foldl (λ st col, clickAndSettle col st)
        (handleNewGameSubmit "human" "player" "medium" initialState)
        [0; 0; 0; 0; 0; 0].

End Spec.

(** ** Further notions, for the properties beyond the specification *)

Module More.
Import Board AI Session History UI Spec.

(** Four cells in a row from [(r0, c0)] along [(dr, dc)]. *)
Definition line4 (r0 c0 dr dc : Z) : list (Z * Z) :=
  [(r0, c0); (r0 + dr, c0 + dc); (r0 + dr * 2, c0 + dc * 2);
   (r0 + dr * 3, c0 + dc * 3)].

(** The cell [(r, c)] is one of four cells of [p] in a row: the cell number
    [j] of the four, along one of the four directions. *)
Definition onFour (b : board) (p r c : Z) : Prop :=
  ∃ dr dc j, (dr, dc) ∈ directions ∧ 0 ≤ j ≤ 3
    ∧ ∀ i, 0 ≤ i < 4 → cellIs b p (r + dr * (i - j)) (c + dc * (i - j)).

(** The cells that the forward loop of [checkWin] adds after [k] hits, and
    the cells that the backward loop has put in front after [k] hits. *)
Definition ahead (r c dr dc k : Z) : list (Z * Z) :=
  (λ i, (r + dr * i, c + dc * i)) <$> seqZ 1 k.

Definition behind (r c dr dc k : Z) : list (Z * Z) :=
  reverse ((λ i, (r - dr * i, c - dc * i)) <$> seqZ 1 k).

(** The recursive call of [minimax] for the column [col]: [None] when the
    simulated drop of [mover] fails and the loop goes on to the next
    column. *)
Definition child (b : board) (depth : nat) (mover : Z) (nextMaximizing : bool)
    (aiPlayer opponent : Z) (alpha beta : num) (col : Z) : option num :=
  let '(testBoard, result) := dropDisc (cloneBoard b) col mover in
  if negb (success result) then None
  else Some (minimax testBoard depth nextMaximizing aiPlayer opponent
               alpha beta).

(** The two loops of [minimax] over the available columns, with the
    recursive call as a parameter: [call alpha col] in the maximizing loop,
    [call beta col] in the minimizing loop. *)
Fixpoint maxLoop (call : num → Z → option num) (beta : num) (cols : list Z)
    (maxScore alpha : num) : num :=
  match cols with
  | [] => maxScore
  | col :: rest =>
      match call alpha col with
      | None => maxLoop call beta rest maxScore alpha
      | Some score =>
          let maxScore := mathMax maxScore score in
          let alpha := mathMax alpha score in
          if numLe beta alpha then maxScore
          else maxLoop call beta rest maxScore alpha
      end
  end.

Fixpoint minLoop (call : num → Z → option num) (alpha : num) (cols : list Z)
    (minScore beta : num) : num :=
  match cols with
  | [] => minScore
  | col :: rest =>
      match call beta col with
      | None => minLoop call alpha rest minScore beta
      | Some score =>
          let minScore := mathMin minScore score in
          let beta := mathMin beta score in
          if numLe beta alpha then minScore
          else minLoop call alpha rest minScore beta
      end
  end.

(** The score that [getHardMove] computes for the column [col]. *)
Definition hardScore (b : board) (aiPlayer : Z) (depth : nat) (col : Z)
    : num :=
  minimax (dropDisc (cloneBoard b) col aiPlayer).1 (depth - 1) false aiPlayer
    (opponentOf aiPlayer) NegInf PosInf.

(** A score that is an integer between [lo] and [hi]. *)
Definition within (lo hi : Z) (x : num) : Prop :=
  ∃ v, x = Fin v ∧ lo ≤ v ≤ hi.

(** Playing [col] hands the opponent an immediate win: the move does not
    win itself and some reply of the opponent makes four in a row. *)
Definition handsWin (b : board) (aiPlayer col : Z) : Prop :=
  ¬ fourInRow (dropDisc b col aiPlayer).1 aiPlayer
  ∧ ∃ reply, reply ∈ getAvailableMoves (dropDisc b col aiPlayer).1
      ∧ fourInRow (dropDisc (dropDisc b col aiPlayer).1 reply
                     (opponentOf aiPlayer)).1 (opponentOf aiPlayer).

(** The item that [handleGameOver] hands to [saveGame]: [moves] is a copy
    of [moveHistory], [finalBoard] a clone of [currentBoard]. *)
Definition savedItem (id : string) (winner : option Z) (st : State)
    : HistoryItem :=
  {| itemId := id; itemMode := gameMode st;
     itemDifficulty := aiDifficulty st; itemPlayerOrder := playerOrder st;
     moves := moveHistory st; finalBoard := cloneBoard (currentBoard st);
     winner := winner |}.

(** [makeAIMove] from its guard to its end. *)
Definition aiMoveAndSettle (rnd : Q) (face text : string) (st : State)
    : State :=
  match makeAIMove st with
  | (st', false) => st'
  | (st', true) =>
      match makeAIMoveThink rnd face text st' with
      | (st'', Some p) => makeAIMoveResume p st''
      | (st'', None) => st''
      end
  end.

(** What the page reacts to: the new-game form, a click on a column, the
    timer that calls [makeAIMove], the undo button.  [face] and [text] are
    the emoji and the text that [updateAIFace] returns, neither of them
    empty. *)
Inductive event :=
  | NewGame (mode order difficulty : string)
  | Click (col : Z)
  | AIMove (rnd : Q) (face text : string)
  | Undo.

(** One event with its handler run to its end, the drop animation and the
    thinking delay included: what a handler does when no other handler
    runs in between. *)
Definition handle (st : State) (e : event) : State :=
  match e with
  | NewGame mode order difficulty =>
      handleNewGameSubmit mode order difficulty st
  | Click col => clickAndSettle col st
  | AIMove rnd face text => aiMoveAndSettle rnd face text st
  | Undo => handleUndo st
  end.

(** A session of such events: the page is loaded, a game is started,
    events follow. *)
Definition session (mode order difficulty : string) (es : list event)
    : State :=
  foldl handle initialState (NewGame mode order difficulty :: es).

(** The side that [startNewGame] lets begin. *)
Definition starter (st : State) : Z :=
  if String.eqb (playerOrder st) "player" then 1 else 2.

(** The side to move after the moves [h] of a game begun by [start]. *)
Definition toMove (start : Z) (h : list Move) : Z :=
  match list.last h with
  | None => start
  | Some m => opponentOf (player m)
  end.

(** Nobody has four in a row and the board is not full. *)
Definition undecided (b : board) : Prop :=
  ¬ fourInRow b 1 ∧ ¬ fourInRow b 2 ∧ isBoardFull b = false.

(** The move object and the checkpoint that a move of [s] in [col] adds in
    the state [st], and the state when the move has settled. *)
Definition moveOf (st : State) (col s : Z) (face text : option string)
    : Move :=
  let d := dropDisc (currentBoard st) col s in
  {| turn := Z.of_nat (length (moveHistory st)) + 1; player := s;
     column := col; moveRow := row d.2; aiFace := face; aiText := text;
     boardSnapshot := d.1 |}.

Definition checkpointOf (st : State) : Checkpoint :=
  {| savedBoard := currentBoard st; savedPlayer := currentPlayer st;
     moveHistoryLength := length (moveHistory st) |}.

Definition settled (st : State) (col s next : Z) (face text : option string)
    : State :=
  let d := dropDisc (currentBoard st) col s in
  let over := win (checkWin d.1 (row d.2) col s) || isBoardFull d.1 in
  {| currentBoard := d.1;
     currentPlayer := if over then currentPlayer st else next;
     gameMode := gameMode st; aiDifficulty := aiDifficulty st;
     playerOrder := playerOrder st;
     isGameActive := if over then false else isGameActive st;
     isAnimating := false;
     moveHistory := moveHistory st ++ [moveOf st col s face text];
     undoStack := undoStack st ++ [checkpointOf st] |}.

(** The move list [h], the undo stack [u] and the board [b] of a game begun
    by [start] that was built move by move: each move was made on an
    undecided board by the side to move, its disc landed, and its
    checkpoint holds the board and the side before it. *)
Inductive recorded (start : Z) : list Move → list Checkpoint → board → Prop :=
  | rec_start : recorded start [] [] createBoard
  | rec_move h u b m :
      recorded start h u b → undecided b →
      player m = toMove start h →
      turn m = Z.of_nat (length h) + 1 →
      success (dropDisc b (column m) (player m)).2 = true →
      moveRow m = row (dropDisc b (column m) (player m)).2 →
      boardSnapshot m = (dropDisc b (column m) (player m)).1 →
      recorded start (h ++ [m])
        (u ++ [{| savedBoard := b; savedPlayer := player m;
                  moveHistoryLength := length h |}])
        (dropDisc b (column m) (player m)).1.

(** The state of a session between two events. *)
Definition consistent (st : State) : Prop :=
  recorded (starter st) (moveHistory st) (undoStack st) (currentBoard st)
  ∧ isAnimating st = false
  ∧ (isGameActive st = true →
     undecided (currentBoard st)
     ∧ currentPlayer st = toMove (starter st) (moveHistory st))
  ∧ (isGameActive st = false →
     ∃ m, list.last (moveHistory st) = Some m
          ∧ (fourInRow (currentBoard st) (player m)
             ∨ isBoardFull (currentBoard st) = true)).

(** A move made by a click in a game against the AI, or by the AI. *)
Definition byHumanOrAI (m : Move) : Prop :=
  (player m = 1 ∧ aiFace m = None)
  ∨ (player m = 2 ∧ is_Some (aiFace m) ∧ is_Some (aiText m)).

(** Key presses on the board, each with the value of [disabled] when it
    arrives: the final [currentCol] and the arguments of the calls of
    [onDrop], in order. *)
Definition pressKeys (presses : list (bool * string)) : Z * list Z :=
  foldl (λ acc press,
           let '(currentCol, dropped) :=
             handleKeyDown press.1 press.2 acc.1 in
           (currentCol, acc.2 ++ option_list dropped))
        (startCol, []) presses.

(** Minimax without pruning, the value that the search of [minimax] is
    after: every level scores the position as [minimax] does and takes the
    maximum, or the minimum, over all columns where the drop succeeds. *)
Fixpoint exhaustive (b : board) (depth : nat) (isMaximizing : bool)
    (aiPlayer opponent : Z) : num :=
  match depth with
  | O => Fin (evaluateBoard b aiPlayer)
  | S depth' =>
      match winScan b aiPlayer opponent
              (10000 + Z.of_nat depth) (-10000 - Z.of_nat depth) with
      | Some v => Fin v
      | None =>
          let availableMoves := getAvailableMoves b in
          if (length availableMoves =? 0)%nat then Fin 0
          else if isMaximizing then
            foldl (λ maxScore col,
                     let '(testBoard, result) :=
                       dropDisc (cloneBoard b) col aiPlayer in
                     if negb (success result) then maxScore
                     else mathMax maxScore
                            (exhaustive testBoard depth' false
                               aiPlayer opponent))
                  NegInf availableMoves
          else
            foldl (λ minScore col,
                     let '(testBoard, result) :=
                       dropDisc (cloneBoard b) col opponent in
                     if negb (success result) then minScore
                     else mathMin minScore
                            (exhaustive testBoard depth' true
                               aiPlayer opponent))
                  PosInf availableMoves
      end
  end.

(** The value of the position after the drop of [mover] in [col]; [None]
    when the drop fails. *)
Definition exactChild (b : board) (depth : nat) (mover : Z)
    (nextMaximizing : bool) (aiPlayer opponent : Z) (col : Z) : option num :=
  let '(testBoard, result) := dropDisc (cloneBoard b) col mover in
  if negb (success result) then None
  else Some (exhaustive testBoard depth nextMaximizing aiPlayer opponent).

(** The best of the values of the columns, with [pick] as [Math.max] or
    [Math.min]. *)
Definition bestOf (pick : num → num → num) (exact : Z → option num)
    (start : num) (cols : list Z) : num :=
  foldl (λ best col, match exact col with
                     | None => best
                     | Some v => pick best v
                     end) start cols.

(** [x <= y] as a proposition. *)
Definition nle (x y : num) : Prop :=
  match x, y with
  | NegInf, _ => True
  | _, PosInf => True
  | Fin a, Fin b => a ≤ b
  | _, _ => False
  end.

(** What the result [r] of a search with the window [(alpha, beta)] tells
    about the exact value [v]: at or below [alpha] it is an upper bound, at
    or above [beta] a lower bound, between them the value itself. *)
Definition bounds (alpha beta r v : num) : Prop :=
  (nle r alpha → nle v r)
  ∧ (nle beta r → nle r v)
  ∧ (¬ nle r alpha → ¬ nle beta r → nle r v ∧ nle v r).

(** The result of a call of the search and the exact value of a column. *)
Definition agree (alpha beta : num) (r v : option num) : Prop :=
  match r, v with
  | Some r, Some v => bounds alpha beta r v
  | None, None => True
  | _, _ => False
  end.

(** The difficulty selector of the page: [aiDifficulty = e.target.value]. *)
Definition setDifficulty (st : State) (d : string) : State :=
  {| currentBoard := currentBoard st; currentPlayer := currentPlayer st;
     gameMode := gameMode st; aiDifficulty := d;
     playerOrder := playerOrder st;
     isGameActive := isGameActive st; isAnimating := isAnimating st;
     moveHistory := moveHistory st; undoStack := undoStack st |}.

(** A handler suspended at an [await]: [makeMove] waiting for the drop
    animation with the move it has placed, [makeAIMove] waiting for the
    thinking delay, [makeAIMove] waiting for the drop animation. *)
Inductive task :=
  | Fall (p : Placed)
  | Think
  | FallAI (p : Placed).

(** What happens on the page: the new-game form is submitted, a column is
    clicked (or chosen with the keyboard), a timer set by [startNewGame] or
    [makeMove] calls [makeAIMove], the undo button is pressed, the
    difficulty selector changes, and a suspended handler goes on: the
    thinking delay of the task number [i] is over ([rnd] is the value of
    [Math.random()] in [getAIMove], [face] and [text] the emoji and the text
    that [updateAIFace] returns, neither of them empty), or its drop
    animation is over. *)
Inductive signal :=
  | Submit (mode order difficulty : string)
  | Press (col : Z)
  | Timer
  | UndoButton
  | Select (difficulty : string)
  | ThoughtOver (i : nat) (rnd : Q) (face text : string)
  | Landed (i : nat).

(** The game state and the suspended handlers. *)
Definition page : Type := State * list task.

(** One signal.  A handler runs up to its next [await] or to its end; a
    signal for a task that is not suspended does not occur and changes
    nothing. *)
Definition react (pg : page) (s : signal) : page :=
  let '(st, waiting) := pg in
  match s with
  | Submit mode order difficulty =>
      (handleNewGameSubmit mode order difficulty st, waiting)
  | Press col =>
      match handleColumnClick col st with
      | (st', Some p) => (st', waiting ++ [Fall p])
      | (st', None) => (st', waiting)
      end
  | Timer =>
      match makeAIMove st with
      | (st', true) => (st', waiting ++ [Think])
      | (st', false) => (st', waiting)
      end
  | UndoButton => (handleUndo st, waiting)
  | Select difficulty => (setDifficulty st difficulty, waiting)
  | ThoughtOver i rnd face text =>
      match waiting !! i with
      | Some Think =>
          match makeAIMoveThink rnd face text st with
          | (st', Some p) => (st', <[i := FallAI p]> waiting)
          | (st', None) => (st', delete i waiting)
          end
      | _ => pg
      end
  | Landed i =>
      match waiting !! i with
      | Some (Fall p) => (makeMoveResume p st, delete i waiting)
      | Some (FallAI p) => (makeAIMoveResume p st, delete i waiting)
      | _ => pg
      end
  end.

(** The page when [app.js] is loaded, and after the signals [tr]. *)
Definition loaded : page := (initialState, []).

Definition browse (tr : list signal) : page := foldl react loaded tr.

(** No new game is submitted while a handler is suspended. *)
Fixpoint calmFrom (pg : page) (tr : list signal) : bool :=
  match tr with
  | [] => true
  | s :: rest =>
      match s, pg.2 with
      | Submit _ _ _, _ :: _ => false
      | _, _ => calmFrom (react pg s) rest
      end
  end.

Definition calm (tr : list signal) : bool := calmFrom loaded tr.

(** The state while the disc of [s] falls in [col], and the move that the
    suspended handler holds. *)
Definition placing (st : State) (col s : Z) : State :=
  {| currentBoard := (dropDisc (currentBoard st) col s).1;
     currentPlayer := currentPlayer st;
     gameMode := gameMode st; aiDifficulty := aiDifficulty st;
     playerOrder := playerOrder st;
     isGameActive := isGameActive st; isAnimating := true;
     moveHistory := moveHistory st;
     undoStack := undoStack st ++ [checkpointOf st] |}.

Definition placedOf (st : State) (col s : Z) (face text : option string)
    : Placed :=
  {| placedCol := col; placedPlayer := s;
     placedRow := row (dropDisc (currentBoard st) col s).2;
     placedFace := face; placedText := text |}.

(** The state of a page between two moves. *)
Definition tidy (st : State) : Prop :=
  consistent st
  ∧ (gameMode st = "ai" → Forall byHumanOrAI (moveHistory st)).

(** The state [st] while the move [p] of a human ([ai = false]) or of the AI
    is falling. *)
Definition midMove (st : State) (p : Placed) (ai : bool) : Prop :=
  ∃ st0 col face text,
    tidy st0 ∧ isGameActive st0 = true
    ∧ success (dropDisc (currentBoard st0) col (currentPlayer st0)).2 = true
    ∧ st = placing st0 col (currentPlayer st0)
    ∧ p = placedOf st0 col (currentPlayer st0) face text
    ∧ (if ai then currentPlayer st0 = 2 ∧ is_Some face ∧ is_Some text
       else face = None ∧ text = None
            ∧ ¬ (gameMode st0 = "ai" ∧ currentPlayer st0 = 2)).

(** No game has been started yet. *)
Definition fresh (st : State) : Prop :=
  currentBoard st = [] ∧ isGameActive st = false ∧ isAnimating st = false.

(** The page in a visit without a new game during a move. *)
Definition orderly (pg : page) : Prop :=
  match pg.2 with
  | [] => fresh pg.1 ∨ tidy pg.1
  | [Think] =>
      isAnimating pg.1 = true ∧ isGameActive pg.1 = true
      ∧ currentPlayer pg.1 = 2 ∧ tidy (setAnimating pg.1 false)
  | [Fall p] => midMove pg.1 p false
  | [FallAI p] => midMove pg.1 p true
  | _ => False
  end.

(** A visit against the AI: the human plays column 3 and the AI answers. *)
Definition aiVisit : list signal :=
  [Submit "ai" "player" "easy"; Press 3; Landed 0; Timer;
   ThoughtOver 0 (1 # 2) "face" "text"; Landed 0].

(** The number of discs on the board. *)
Definition discs (b : board) : nat :=
  sum_list (map (λ r : list Z, length (filter (λ v, v ≠ 0) r)) b).

End More.

(** ** The board *)

Module BoardFacts.
Import Board Spec.

Lemma cloneBoard_id (b : board) : cloneBoard b = b.
Proof. unfold cloneBoard. induction b as [|r b IH]; simpl; congruence. Qed.

Lemma get_set_eq (b : board) (r c v : Z) :
  is_Some (get b r c) → get (set b r c v) r c = Some v.
Proof.
  unfold get, set. destruct ((0 <=? r) && (0 <=? c)); [|by intros [? ?]].
  rewrite list_lookup_alter_eq.
  destruct (b !! Z.to_nat r) as [rw|]; simpl; [|by intros [? ?]].
  intros Hc. apply list_lookup_insert_eq. by apply lookup_lt_is_Some.
Qed.

Lemma get_set_ne (b : board) (r c v r' c' : Z) :
  0 ≤ r → 0 ≤ c → (r', c') ≠ (r, c) →
  get (set b r c v) r' c' = get b r' c'.
Proof.
  intros Hr Hc Hne. unfold get, set.
  destruct ((0 <=? r') && (0 <=? c')) eqn:Hb; [|done].
  apply andb_true_iff in Hb as [Hr' Hc'].
  apply Z.leb_le in Hr', Hc'.
  destruct (decide (r' = r)) as [->|Hrr].
  - rewrite list_lookup_alter_eq.
    destruct (b !! Z.to_nat r) as [rw|]; simpl; [|done].
    apply list_lookup_insert_ne. intros Heq. apply Hne. f_equal. lia.
  - rewrite list_lookup_alter_ne; [done|]. lia.
Qed.

Lemma strictEq_true (x : option Z) (v : Z) : strictEq x v = true ↔ x = Some v.
Proof. unfold strictEq. apply bool_decide_eq_true. Qed.

Lemma strictEq_false (x : option Z) (v : Z) : strictEq x v = false ↔ x ≠ Some v.
Proof. unfold strictEq. apply bool_decide_eq_false. Qed.

(** What the scan of [getLowestEmptyRow] returns: the first empty row from
    the bottom, or [-1] when it finds none. *)
Lemma lowestFrom_spec (b : board) (col : Z) (n : nat) :
  let r := lowestFrom b col n in
  (r = -1 ∧ ∀ k, 0 ≤ k < Z.of_nat n → get b k col ≠ Some 0)
  ∨ (0 ≤ r < Z.of_nat n ∧ get b r col = Some 0
     ∧ ∀ k, r < k < Z.of_nat n → get b k col ≠ Some 0).
Proof.
  induction n as [|n IH]; simpl.
  - left. split; [done|]. intros k Hk. lia.
  - destruct (strictEq (get b (Z.of_nat n) col) 0) eqn:He.
    + right. apply strictEq_true in He. repeat split; [lia|lia|done|].
      intros k Hk. lia.
    + apply strictEq_false in He.
      destruct IH as [[-> Hall]|(Hr & H0 & Hall)].
      * left. split; [done|]. intros k Hk.
        destruct (decide (k = Z.of_nat n)) as [->|]; [done|]. apply Hall. lia.
      * right. repeat split; [lia|lia|done|]. intros k Hk.
        destruct (decide (k = Z.of_nat n)) as [->|]; [done|]. apply Hall. lia.
Qed.

(** The scan is determined by that description. *)
Lemma lowestFrom_unique (b : board) (col r : Z) (n : nat) :
  (r = -1 ∧ ∀ k, 0 ≤ k < Z.of_nat n → get b k col ≠ Some 0)
  ∨ (0 ≤ r < Z.of_nat n ∧ get b r col = Some 0
     ∧ ∀ k, r < k < Z.of_nat n → get b k col ≠ Some 0) →
  lowestFrom b col n = r.
Proof.
  intros Hr. pose proof (lowestFrom_spec b col n) as Hs. simpl in Hs.
  destruct Hr as [[-> Hall]|(Hr & H0 & Hall)];
    destruct Hs as [[Hs Hall']|(Hs & H0' & Hall')]; try done.
  - exfalso. by apply (Hall (lowestFrom b col n)).
  - exfalso. by apply (Hall' r).
  - destruct (Z.lt_trichotomy r (lowestFrom b col n)) as [Hlt|[Heq|Hgt]];
      [|done|].
    + exfalso. apply (Hall (lowestFrom b col n)); [lia|done].
    + exfalso. apply (Hall' r); [lia|done].
Qed.

Lemma getLowestEmptyRow_spec (b : board) (col : Z) :
  let r := getLowestEmptyRow b col in
  (r = -1 ∧ blocked b col)
  ∨ (0 ≤ col ≤ 6 ∧ 0 ≤ r ≤ 5 ∧ get b r col = Some 0
     ∧ ∀ k, r < k ≤ 5 → get b k col ≠ Some 0).
Proof.
  unfold getLowestEmptyRow, blocked, COLS.
  destruct ((col <? 0) || (col >=? 7)) eqn:Hc; simpl.
  - left. split; [done|]. apply orb_true_iff in Hc as [Hc|Hc]; lia.
  - apply orb_false_iff in Hc as [Hc1 Hc2].
    pose proof (lowestFrom_spec b col (Z.to_nat ROWS)) as Hs. simpl in Hs.
    change (Z.of_nat (Z.to_nat ROWS)) with 6 in Hs.
    destruct Hs as [[-> Hall]|(Hr & H0 & Hall)].
    + left. split; [done|]. right. right. intros r Hr. apply Hall. lia.
    + right. repeat split; [lia|lia|lia|lia|done|].
      intros k Hk. apply Hall. lia.
Qed.

(** A failed drop returns the board it was given. *)
Lemma dropDisc_failure (b : board) (c s : Z) :
  success (dropDisc b c s).2 = false →
  dropDisc b c s = (b, {| success := false; row := -1 |}).
Proof.
  unfold dropDisc. by destruct (getLowestEmptyRow b c =? -1).
Qed.

(** A successful drop lands on the lowest empty cell of a column of the
    grid and writes that cell only. *)
Lemma dropDisc_landing (b : board) (c s : Z) :
  success (dropDisc b c s).2 = true →
  let b' := (dropDisc b c s).1 in
  let r := row (dropDisc b c s).2 in
  0 ≤ c ≤ 6 ∧ 0 ≤ r ≤ 5 ∧ get b r c = Some 0
  ∧ (∀ k, r < k ≤ 5 → get b k c ≠ Some 0)
  ∧ get b' r c = Some s
  ∧ ∀ r' c', (r', c') ≠ (r, c) → get b' r' c' = get b r' c'.
Proof.
  pose proof (getLowestEmptyRow_spec b c) as Hsp. simpl in Hsp.
  unfold dropDisc.
  destruct Hsp as [[Hm _]|(Hc & Hr & H0 & Hbelow)].
  { rewrite Hm. done. }
  destruct (getLowestEmptyRow b c =? -1) eqn:He; [lia|]. simpl. intros _.
  split; [done|]. split; [done|]. split; [done|]. split; [done|]. split.
  - apply get_set_eq. by rewrite H0.
  - intros r' c' Hne. apply get_set_ne; [lia|lia|done].
Qed.

(** C1. [dropDisc(board, c, s)] reports failure and leaves every cell
    unchanged if and only if [c] is outside [0, 6] or column [c] has no empty
    cell; otherwise it reports success with the row found by
    [getLowestEmptyRow], the lowest empty cell of the column, sets that cell
    to [s] and changes no other cell. *)
Theorem dropDisc_spec (b : board) (c s : Z) :
  let b' := (dropDisc b c s).1 in
  let res := (dropDisc b c s).2 in
  ((success res = false ∧ ∀ r' c', get b' r' c' = get b r' c') ↔ blocked b c)
  ∧ (success res = false → row res = -1 ∧ b' = b)
  ∧ (blocked b c
     ∨ (success res = true
        ∧ row res = getLowestEmptyRow b c
        ∧ 0 ≤ row res ≤ 5
        ∧ get b (row res) c = Some 0
        ∧ (∀ k, row res < k ≤ 5 → get b k c ≠ Some 0)
        ∧ get b' (row res) c = Some s
        ∧ ∀ r' c', (r', c') ≠ (row res, c) → get b' r' c' = get b r' c')).
Proof.
  pose proof (getLowestEmptyRow_spec b c) as Hs. simpl in *.
  unfold dropDisc.
  destruct Hs as [[Hr Hbl]|(Hc & Hr & H0 & Hall)].
  - rewrite Hr. simpl. repeat split; try done. by left.
  - destruct (getLowestEmptyRow b c =? -1) eqn:He; [lia|]. simpl.
    assert (Hnb : ¬ blocked b c).
    { intros [?|[?|Hn]]; [lia|lia|]. by apply (Hn (getLowestEmptyRow b c)). }
    repeat split; try done.
    + by intros [? _].
    + right. repeat split; try done; try lia.
      * apply get_set_eq. by rewrite H0.
      * intros r' c' Hne. apply get_set_ne; [lia|lia|done].
Qed.

Lemma dropDisc_spec_witness :
  (row (dropDisc (play createBoard [(0, 1); (0, 2); (0, 1); (0, 2); (0, 1);
                                    (0, 2)]) 0 1).2 = -1
   ∧ (dropDisc (play createBoard [(0, 1); (0, 2); (0, 1); (0, 2); (0, 1);
                                  (0, 2)]) 0 1).1
     = play createBoard [(0, 1); (0, 2); (0, 1); (0, 2); (0, 1); (0, 2)])
  ∧ (blocked (play createBoard [(0, 1); (0, 2); (0, 1); (0, 2); (0, 1);
                                (0, 2)]) 0).
Proof.
  split.
  - apply (proj1 (proj2 (dropDisc_spec
      (play createBoard [(0, 1); (0, 2); (0, 1); (0, 2); (0, 1); (0, 2)])
      0 1))).
    vm_compute. reflexivity.
  - apply (proj1 (dropDisc_spec
      (play createBoard [(0, 1); (0, 2); (0, 1); (0, 2); (0, 1); (0, 2)])
      0 1)).
    split; [vm_compute; reflexivity|]. intros r' c'. reflexivity.
Defined.

Lemma get_createBoard (r c : Z) :
  0 ≤ r < ROWS → 0 ≤ c < COLS → get createBoard r c = Some 0.
Proof.
  unfold get, createBoard, ROWS, COLS. intros Hr Hc.
  destruct ((0 <=? r) && (0 <=? c)) eqn:Hb.
  - rewrite lookup_replicate_2 by lia. simpl. apply (lookup_replicate_2 7 0). lia.
  - apply andb_false_iff in Hb as [Hb|Hb]; lia.
Qed.

Lemma grid_createBoard : grid createBoard.
Proof. intros r c Hr Hc. rewrite get_createBoard; eauto. Qed.

Lemma grid_set (b : board) (r c v : Z) :
  0 ≤ r → 0 ≤ c → grid b → grid (set b r c v).
Proof.
  intros Hr Hc Hg r' c' Hr' Hc'.
  destruct (decide ((r', c') = (r, c))) as [[= -> ->]|Hne].
  - rewrite get_set_eq; eauto.
  - rewrite get_set_ne; auto.
Qed.

(** On a grid, a cell that is not empty is occupied. *)
Lemma grid_occupied (b : board) (r c : Z) :
  grid b → 0 ≤ r < ROWS → 0 ≤ c < COLS →
  get b r c ≠ Some 0 → occupied b r c.
Proof.
  intros Hg Hr Hc Hne. destruct (Hg r c Hr Hc) as [v Hv].
  exists v. split; [done|]. intros ->. done.
Qed.

Lemma occupied_not_empty (b : board) (r c : Z) :
  occupied b r c → get b r c ≠ Some 0.
Proof. intros (v & Hv & Hne). rewrite Hv. congruence. Qed.

(** A successful drop of a disc other than [0] keeps the grid and the
    no-floating invariant. *)
Lemma dropDisc_invariant (b : board) (c s : Z) :
  s ≠ 0 → grid b → noFloating b → success (dropDisc b c s).2 = true →
  grid (dropDisc b c s).1 ∧ noFloating (dropDisc b c s).1.
Proof.
  intros Hs Hg Hnf Hok.
  destruct (dropDisc_landing b c s Hok) as (Hc & Hr & H0 & Hbelow & Hnew & Hold).
  set (b' := (dropDisc b c s).1) in *. set (r0 := row (dropDisc b c s).2) in *.
  split.
  - intros r' c' Hr' Hc'.
    destruct (decide ((r', c') = (r0, c))) as [[= -> ->]|Hne].
    + rewrite Hnew. eauto.
    + rewrite Hold by done. by apply Hg.
  - intros c1 r1 r2 Hc1 Hr1 Hlt Hr2 (v & Hv & Hvne).
    assert (Hocc2 : get b' r2 c1 ≠ Some 0 → occupied b' r2 c1).
    { intros Hne. destruct (decide ((r2, c1) = (r0, c))) as [[= -> ->]|Hne2].
      - exists s. done.
      - rewrite Hold in Hne by done.
        destruct (grid_occupied b r2 c1) as (w & Hw & Hw0);
          unfold ROWS, COLS in *; auto; try lia.
        exists w. by rewrite Hold. }
    apply Hocc2.
    destruct (decide ((r2, c1) = (r0, c))) as [[= -> ->]|Hne2].
    { rewrite Hnew. congruence. }
    rewrite Hold by done.
    destruct (decide ((r1, c1) = (r0, c))) as [[= -> ->]|Hne1].
    + apply Hbelow. unfold ROWS in *. lia.
    + rewrite Hold in Hv by done. apply occupied_not_empty.
      apply (Hnf c1 r1 r2); auto. exists v. done.
Qed.

Lemma reachable_invariant (b : board) :
  reachable b → grid b ∧ noFloating b.
Proof.
  induction 1 as [|b c s Hreach [Hg Hnf] Hside Hok].
  - split; [apply grid_createBoard|].
    intros c r r' Hc Hr Hlt Hr' (v & Hv & Hne).
    rewrite get_createBoard in Hv by (unfold ROWS in *; lia). congruence.
  - apply dropDisc_invariant; auto. destruct Hside; lia.
Qed.

(** Without floating tokens the occupied cells of a column are a segment
    that ends at the bottom row. *)
Lemma noFloating_segment (b : board) (c : Z) :
  grid b → noFloating b → 0 ≤ c < COLS → segment b c.
Proof.
  intros Hg Hnf Hc. unfold segment, ROWS, COLS in *.
  pose proof (getLowestEmptyRow_spec b c) as Hsp. simpl in Hsp.
  destruct Hsp as [[_ Hbl]|(_ & Hr & H0 & Hbelow)].
  - destruct Hbl as [?|[?|Hn]]; [lia|lia|].
    exists 0. split; [lia|]. intros r Hr. split; [lia|]. intros _.
    apply grid_occupied; unfold ROWS, COLS; auto; try lia. apply Hn. lia.
  - exists (getLowestEmptyRow b c + 1). split; [lia|]. intros r Hr'. split.
    + intros Hocc. destruct (Z_lt_le_dec (getLowestEmptyRow b c) r); [lia|].
      destruct (decide (r = getLowestEmptyRow b c)) as [->|Hne].
      { by apply occupied_not_empty in Hocc. }
      exfalso. eapply occupied_not_empty; [|exact H0].
      apply (Hnf c r); unfold ROWS, COLS; auto; lia.
    + intros Hle. apply grid_occupied; unfold ROWS, COLS; auto; try lia.
      apply Hbelow. lia.
Qed.

(** C2. Every board reached from [createBoard()] by successful drops has no
    floating token: in every column each cell below an occupied cell is
    occupied, that is, the occupied cells of the column are a segment that
    ends at the bottom row 5. *)
Theorem reachable_noFloating (b : board) :
  reachable b →
  noFloating b ∧ ∀ c, 0 ≤ c < COLS → segment b c.
Proof.
  intros Hreach. destruct (reachable_invariant b Hreach) as [Hg Hnf].
  split; [done|]. intros c Hc. by apply noFloating_segment.
Qed.

Lemma reachable_noFloating_witness :
  reachable (dropDisc (dropDisc createBoard 3 1).1 3 2).1
  ∧ noFloating (dropDisc (dropDisc createBoard 3 1).1 3 2).1
  ∧ ∀ c, 0 ≤ c < COLS → segment (dropDisc (dropDisc createBoard 3 1).1 3 2).1 c.
Proof.
  assert (Hr : reachable (dropDisc (dropDisc createBoard 3 1).1 3 2).1).
  { apply reach_drop; [apply reach_drop; [apply reach_create|by left|]|by right|];
      vm_compute; reflexivity. }
  split; [exact Hr|]. exact (reachable_noFloating _ Hr).
Defined.

(** C3, as stated, fails on a board with a floating token: after the drop
    in column 0 of [floatingBoard] the lowest empty row goes from 5 to 3. *)
Lemma dropDisc_lowest_floating :
  grid floatingBoard
  ∧ success (dropDisc floatingBoard 0 1).2 = true
  ∧ getLowestEmptyRow floatingBoard 0 = 5
  ∧ getLowestEmptyRow (dropDisc floatingBoard 0 1).1 0 = 3
  ∧ ¬ (getLowestEmptyRow (dropDisc floatingBoard 0 1).1 0
         = getLowestEmptyRow floatingBoard 0 - 1
       ∨ getLowestEmptyRow (dropDisc floatingBoard 0 1).1 0 = -1).
Proof.
  split; [apply grid_set; [done|done|apply grid_createBoard]|].
  repeat split; try (vm_compute; reflexivity).
  vm_compute. intros [H|H]; discriminate H.
Qed.

(** C3, amended. On a 6x7 board without floating tokens (so on every
    reachable board), after a successful drop of a side in column [c] the
    lowest empty row of [c] is exactly one less than before; this is the
    value [-1] of a full column when the disc landed in row 0. *)
Theorem dropDisc_lowers_by_one (b : board) (c s : Z) :
  grid b → noFloating b → isSide s →
  success (dropDisc b c s).2 = true →
  getLowestEmptyRow (dropDisc b c s).1 c = getLowestEmptyRow b c - 1.
Proof.
  intros Hg Hnf Hside Hok.
  assert (Hs : s ≠ 0) by (destruct Hside; lia).
  pose proof (getLowestEmptyRow_spec b c) as Hsp. simpl in Hsp.
  unfold dropDisc in *.
  destruct Hsp as [[Hm _]|(Hc & Hr & H0 & Hbelow)].
  { rewrite Hm in Hok. done. }
  destruct (getLowestEmptyRow b c =? -1) eqn:He; [lia|]. simpl.
  set (r0 := getLowestEmptyRow b c) in *.
  unfold getLowestEmptyRow at 1. unfold COLS.
  destruct ((c <? 0) || (c >=? 7)) eqn:Hcb.
  { apply orb_true_iff in Hcb as [?|?]; lia. }
  apply lowestFrom_unique. change (Z.of_nat (Z.to_nat ROWS)) with 6.
  assert (Hnew : get (set b r0 c s) r0 c = Some s).
  { apply get_set_eq. by rewrite H0. }
  assert (Hold : ∀ k, k ≠ r0 → get (set b r0 c s) k c = get b k c).
  { intros k Hk. apply get_set_ne; [lia|lia|congruence]. }
  destruct (decide (r0 = 0)) as [Hz|Hnz].
  - left. split; [lia|]. intros k Hk.
    destruct (decide (k = r0)) as [->|Hne].
    + rewrite Hnew. congruence.
    + rewrite Hold by done. apply Hbelow. lia.
  - right. repeat split; [lia|lia| |].
    + rewrite Hold by lia.
      destruct (Hg (r0 - 1) c) as [v Hv]; [unfold ROWS; lia|unfold COLS; lia|].
      destruct (decide (v = 0)) as [->|Hv0]; [done|].
      exfalso. eapply occupied_not_empty; [|exact H0].
      apply (Hnf c (r0 - 1) r0); unfold ROWS, COLS; try lia.
      exists v. done.
    + intros k Hk. destruct (decide (k = r0)) as [->|Hne].
      * rewrite Hnew. congruence.
      * rewrite Hold by done. apply Hbelow. lia.
Qed.

Lemma dropDisc_lowers_by_one_witness :
  getLowestEmptyRow (dropDisc createBoard 3 1).1 3
  = getLowestEmptyRow createBoard 3 - 1.
Proof.
  apply (dropDisc_lowers_by_one createBoard 3 1).
  - apply grid_createBoard.
  - intros c r r' Hc Hr Hlt Hr' (v & Hv & Hne).
    rewrite get_createBoard in Hv by (unfold ROWS in *; lia). congruence.
  - by left.
  - vm_compute. reflexivity.
Defined.

(** C8. From the empty board, with Red in columns 0, 1, 2, 3 and Yellow in
    column 6 in between, every drop succeeds, Red's fourth disc lands in
    row 5 and [checkWin(board, 5, 3, Red)] reports the win with the line
    [(5,0), (5,1), (5,2), (5,3)]. *)
Theorem scenario1_red_wins :
  scenario1 = [[0; 0; 0; 0; 0; 0; 0]; [0; 0; 0; 0; 0; 0; 0];
               [0; 0; 0; 0; 0; 0; 0]; [0; 0; 0; 0; 0; 0; 2];
               [0; 0; 0; 0; 0; 0; 2]; [1; 1; 1; 0; 0; 0; 2]]
  ∧ (dropDisc scenario1 3 1).2 = {| success := true; row := 5 |}
  ∧ checkWin (dropDisc scenario1 3 1).1 5 3 1
    = {| win := true; line := [(5, 0); (5, 1); (5, 2); (5, 3)] |}.
Proof. repeat split; vm_compute; reflexivity. Qed.

Lemma firstSome_ext {A B : Type} (f g : A → option B) (l : list A) :
  (∀ x, f x = g x) → firstSome f l = firstSome g l.
Proof.
  intros Hfg. induction l as [|x l IH]; simpl; [done|].
  rewrite Hfg, IH. done.
Qed.

Lemma firstSome_fmap {A B C : Type} (h : B → C) (f : A → option B)
    (l : list A) :
  firstSome (λ x, h <$> f x) l = h <$> firstSome f l.
Proof.
  induction l as [|x l IH]; simpl; [done|].
  destruct (f x); simpl; done.
Qed.

Lemma opponentOf_side (s : Z) :
  isSide s → isSide (opponentOf s) ∧ opponentOf s ≠ s
  ∧ opponentOf (opponentOf s) = s.
Proof. intros [->| ->]; vm_compute; repeat split; auto; discriminate. Qed.

Lemma get_swapBoard (b : board) (r c : Z) :
  get (swapBoard b) r c = swapCell <$> get b r c.
Proof.
  unfold get, swapBoard. destruct ((0 <=? r) && (0 <=? c)); [|done].
  rewrite list_lookup_fmap. destruct (b !! Z.to_nat r) as [rw|]; simpl; [|done].
  apply list_lookup_fmap.
Qed.

Lemma swapCell_opponent (v s : Z) :
  isSide s → swapCell v = opponentOf s ↔ v = s.
Proof.
  unfold swapCell, opponentOf. intros [->| ->]; simpl;
    destruct (v =? 1) eqn:H1; destruct (v =? 2) eqn:H2; lia.
Qed.

Lemma strictEq_swap (b : board) (r c s : Z) :
  isSide s →
  strictEq (get (swapBoard b) r c) (opponentOf s) = strictEq (get b r c) s.
Proof.
  intros Hs. rewrite get_swapBoard. unfold strictEq.
  apply bool_decide_ext. destruct (get b r c) as [v|]; simpl; [|done].
  split; intros [= H]; f_equal; by apply (swapCell_opponent v s).
Qed.

Lemma forward_swap (b : board) (r c dr dc s : Z) (steps : list Z)
    (ln : list (Z * Z)) (n : Z) :
  isSide s →
  forward (swapBoard b) r c dr dc (opponentOf s) steps ln n
  = forward b r c dr dc s steps ln n.
Proof.
  intros Hs. revert ln n. induction steps as [|i steps IH]; intros ln n;
    simpl; [done|].
  rewrite strictEq_swap by done. rewrite IH. done.
Qed.

Lemma backward_swap (b : board) (r c dr dc s : Z) (steps : list Z)
    (ln : list (Z * Z)) (n : Z) :
  isSide s →
  backward (swapBoard b) r c dr dc (opponentOf s) steps ln n
  = backward b r c dr dc s steps ln n.
Proof.
  intros Hs. revert ln n. induction steps as [|i steps IH]; intros ln n;
    simpl; [done|].
  rewrite strictEq_swap by done. rewrite IH. done.
Qed.

(** C9. [checkWin] on the relabeled board, asked for the opposite side,
    gives the same result as [checkWin(b, r, c, s)]: the same [win] and the
    same [line]. *)
Theorem checkWin_swap (b : board) (r c s : Z) :
  isSide s →
  checkWin (swapBoard b) r c (opponentOf s) = checkWin b r c s.
Proof.
  intros Hs. unfold checkWin.
  rewrite (firstSome_ext (checkDirection (swapBoard b) r c (opponentOf s))
             (checkDirection b r c s)); [done|].
  intros [dr dc]. unfold checkDirection.
  rewrite forward_swap by done.
  destruct (forward b r c dr dc s (seqZ 1 (WIN_LENGTH - 1)) [(r, c)] 1)
    as [line1 count1].
  rewrite backward_swap by done. done.
Qed.

Lemma checkWin_swap_witness :
  isSide 1
  ∧ checkWin (swapBoard (dropDisc scenario1 3 1).1) 5 3 (opponentOf 1)
    = checkWin (dropDisc scenario1 3 1).1 5 3 1.
Proof.
  split; [by left|]. apply (checkWin_swap (dropDisc scenario1 3 1).1 5 3 1).
  by left.
Defined.

End BoardFacts.

(** ** The evaluator *)

Module EvaluatorFacts.
Import Board Spec BoardFacts.

Lemma foldl_opp {A : Type} (f g : Z → A → Z) (l : list A) (s : Z) :
  (∀ s x, g (- s) x = - f s x) → foldl g (- s) l = - foldl f s l.
Proof.
  intros Hfg. revert s. induction l as [|x l IH]; intros s; simpl; [done|].
  rewrite Hfg. apply IH.
Qed.

Lemma winScan_opp (b : board) (p o k1 k2 : Z) :
  winScan b p o (- k1) (- k2) = Z.opp <$> winScan b p o k1 k2.
Proof.
  unfold winScan. rewrite <- firstSome_fmap.
  apply firstSome_ext. intros r. rewrite <- firstSome_fmap.
  apply firstSome_ext. intros c.
  destruct (strictEq (get b r c) p && win (checkWin b r c p)); [done|].
  destruct (strictEq (get b r c) o && win (checkWin b r c o)); done.
Qed.

(** The evaluator with the roles of two different players exchanged. *)
Section Roles.
Context (b : board) (p o : Z) (Hpo : p ≠ o).

(** A cell has one owner: the order of the two tests of the win scan does
    not matter. *)
Lemma winScan_roles (k1 k2 : Z) :
  winScan b p o k1 k2 = winScan b o p k2 k1.
Proof using Hpo.
  unfold winScan.
  apply firstSome_ext. intros r. apply firstSome_ext. intros c.
  destruct (strictEq (get b r c) p) eqn:Hp;
    destruct (strictEq (get b r c) o) eqn:Ho; simpl; try done.
  apply strictEq_true in Hp, Ho. congruence.
Qed.

Lemma centerTerm_opp (s row : Z) :
  centerTerm b o p (- s) row = - centerTerm b p o s row.
Proof using Hpo.
  unfold centerTerm.
  destruct (strictEq (get b row 3) p) eqn:Hp;
    destruct (strictEq (get b row 3) o) eqn:Ho; try lia.
  apply strictEq_true in Hp, Ho. congruence.
Qed.

Lemma pairTerm_opp (dr dc row s col : Z) :
  pairTerm b o p dr dc row (- s) col = - pairTerm b p o dr dc row s col.
Proof using Hpo.
  unfold pairTerm.
  destruct (strictEq (get b row col) p) eqn:Hp;
    destruct (strictEq (get b row col) o) eqn:Ho; simpl;
    try (apply strictEq_true in Hp, Ho; congruence);
    repeat match goal with |- context [if ?x then _ else _] => destruct x end;
    lia.
Qed.

Lemma pairLoop_opp (dr dc : Z) (rows cols : list Z) (s : Z) :
  pairLoop b o p dr dc rows cols (- s) = - pairLoop b p o dr dc rows cols s.
Proof using Hpo.
  unfold pairLoop. apply foldl_opp. intros s' row.
  apply foldl_opp. intros s'' col. apply pairTerm_opp.
Qed.

Lemma heuristic_opp : heuristic b o p = - heuristic b p o.
Proof using Hpo.
  unfold heuristic. rewrite <- !pairLoop_opp.
  rewrite <- (foldl_opp (centerTerm b p o) (centerTerm b o p)); [done|].
  intros s row. apply centerTerm_opp.
Qed.
End Roles.

(** C10. For a side [p] with opponent [q], [evaluateBoard(b, p)] is
    [-evaluateBoard(b, q)]: the win scan stops at the same cell for both
    queries and returns 10000 with the sign given by the owner of that
    cell, and the heuristic terms negate. *)
Theorem evaluateBoard_antisymmetric (b : board) (p : Z) :
  isSide p →
  evaluateBoard b p = - evaluateBoard b (opponentOf p)
  ∧ winScan b p (opponentOf p) 10000 (-10000)
    = Z.opp <$> winScan b (opponentOf p) p 10000 (-10000)
  ∧ heuristic b p (opponentOf p) = - heuristic b (opponentOf p) p.
Proof.
  intros Hp. destruct (opponentOf_side p Hp) as (Hq & Hne & Hpq).
  assert (Hscan : winScan b p (opponentOf p) 10000 (-10000)
                  = Z.opp <$> winScan b (opponentOf p) p 10000 (-10000)).
  { rewrite (winScan_roles b p (opponentOf p)) by done.
    apply (winScan_opp b _ _ 10000 (-10000)). }
  assert (Hheur : heuristic b p (opponentOf p)
                  = - heuristic b (opponentOf p) p).
  { by apply heuristic_opp. }
  split; [|done]. unfold evaluateBoard. rewrite Hpq, Hscan.
  destruct (winScan b (opponentOf p) p 10000 (-10000)); simpl; [done|].
  exact Hheur.
Qed.

Lemma evaluateBoard_antisymmetric_witness :
  isSide 2
  ∧ evaluateBoard (dropDisc scenario1 3 1).1 2
    = - evaluateBoard (dropDisc scenario1 3 1).1 (opponentOf 2).
Proof.
  split; [by right|].
  apply (evaluateBoard_antisymmetric (dropDisc scenario1 3 1).1 2). by right.
Defined.

End EvaluatorFacts.

(** ** The AI tiers *)

Module AIFacts.
Import Board AI Spec BoardFacts.

Lemma foldl_push {A : Type} (P : A → bool) (l acc : list A) :
  foldl (λ moves x, if P x then moves ++ [x] else moves) acc l
  = acc ++ filter (λ x, P x = true) l.
Proof.
  revert acc. induction l as [|x l IH]; intros acc; simpl.
  - by rewrite app_nil_r.
  - rewrite IH. rewrite filter_cons. destruct (P x) eqn:HP.
    + rewrite decide_True by done. by rewrite <- app_assoc.
    + rewrite decide_False by congruence. done.
Qed.

Lemma elem_of_getAvailableMoves (b : board) (col : Z) :
  col ∈ getAvailableMoves b ↔ 0 ≤ col ≤ 6 ∧ isColumnFull b col = false.
Proof.
  unfold getAvailableMoves.
  rewrite (foldl_push (λ col, negb (isColumnFull b col))). simpl.
  rewrite list_elem_of_filter, elem_of_seqZ. unfold COLS.
  rewrite negb_true_iff. intuition lia.
Qed.

Lemma length_zero_nil {A : Type} (l : list A) :
  (length l =? 0)%nat = true ↔ l = [].
Proof. destruct l; simpl; split; intros H; done. Qed.

Lemma index_elem_of {A : Type} (l : list A) (i : Z) (x : A) :
  index l i = Some x → x ∈ l.
Proof.
  unfold index. destruct (i <? 0); [done|]. apply list_elem_of_lookup_2.
Qed.

Lemma index_in_range {A : Type} (l : list A) (i : Z) :
  0 ≤ i < Z.of_nat (length l) → is_Some (index l i).
Proof.
  intros Hi. unfold index. destruct (i <? 0) eqn:Hneg; [lia|].
  apply lookup_lt_is_Some. lia.
Qed.

Lemma randomIndex_in_range (rnd : Q) (n : Z) :
  isRandom rnd → 0 < n → 0 ≤ Qfloor (rnd * inject_Z n) < n.
Proof.
  intros [H0 H1] Hn. split.
  - change 0 with (Qfloor 0). apply Qfloor_resp_le.
    apply Qmult_le_0_compat; [done|].
    change (inject_Z 0 <= inject_Z n)%Q. rewrite <- Zle_Qle. lia.
  - rewrite Zlt_Qlt. eapply Qle_lt_trans; [apply Qfloor_le|].
    rewrite <- (Qmult_1_l (inject_Z n)) at 2.
    apply Qmult_lt_compat_r; [|done].
    change (inject_Z 0 < inject_Z n)%Q. rewrite <- Zlt_Qlt. done.
Qed.

Lemma getEasyMove_legal (availableMoves : list Z) (rnd : Q) :
  isRandom rnd → availableMoves ≠ [] →
  ∃ col, getEasyMove availableMoves rnd = Some col ∧ col ∈ availableMoves.
Proof.
  intros Hrnd Hne. unfold getEasyMove.
  destruct (index_in_range availableMoves
              (Qfloor (rnd * inject_Z (Z.of_nat (length availableMoves)))))
    as [col Hcol].
  { apply randomIndex_in_range; [done|]. destruct availableMoves; [done|].
    simpl. lia. }
  exists col. split; [done|]. by apply index_elem_of in Hcol.
Qed.

Lemma firstSome_Some {A B : Type} (f : A → option B) (l : list A) (v : B) :
  firstSome f l = Some v →
  ∃ pre x post, l = pre ++ x :: post ∧ f x = Some v
                ∧ ∀ y, y ∈ pre → f y = None.
Proof.
  induction l as [|x l IH]; simpl; [done|].
  destruct (f x) as [w|] eqn:Hx.
  - intros [= ->]. exists [], x, l. repeat split; [done|].
    intros y Hy. by apply elem_of_nil in Hy.
  - intros Hl. destruct (IH Hl) as (pre & y & post & -> & Hy & Hpre).
    exists (x :: pre), y, post. repeat split; [done|].
    intros z Hz. apply elem_of_cons in Hz as [->|Hz]; auto.
Qed.

Lemma firstSome_None {A B : Type} (f : A → option B) (l : list A) :
  firstSome f l = None ↔ ∀ x, x ∈ l → f x = None.
Proof.
  induction l as [|x l IH]; simpl.
  - split; [|done]. intros _ x Hx. by apply elem_of_nil in Hx.
  - destruct (f x) as [w|] eqn:Hx.
    + split; [done|]. intros H. rewrite <- Hx. apply H. apply elem_of_cons. auto.
    + rewrite IH. split.
      * intros H y Hy. apply elem_of_cons in Hy as [->|Hy]; auto.
      * intros H y Hy. apply H. apply elem_of_cons. auto.
Qed.

Lemma tryColumn_Some (b : board) (player col v : Z) :
  tryColumn b player col = Some v ↔ v = col ∧ immediateWin b col player.
Proof.
  unfold tryColumn, immediateWin. rewrite cloneBoard_id.
  destruct (dropDisc b col player) as [testBoard result]. simpl.
  destruct (success result); [|split; [done|by intros [_ [? _]]]].
  destruct (win (checkWin testBoard (row result) col player)).
  - split; [by intros [= ->]|by intros [-> _]].
  - split; [done|by intros [_ [_ ?]]].
Qed.



Lemma firstSome_tryColumn (b : board) (player : Z) (l : list Z) (v : Z) :
  firstSome (tryColumn b player) l = Some v →
  v ∈ l ∧ immediateWin b v player.
Proof.
  intros Hf. apply firstSome_Some in Hf as (pre & x & post & -> & Hx & _).
  apply tryColumn_Some in Hx as [-> Hw]. split; [|done].
  apply elem_of_app. right. apply elem_of_cons. auto.
Qed.

Lemma firstSome_center (availableMoves order : list Z) (v : Z) :
  firstSome (λ col, if includes availableMoves col then Some col else None)
    order = Some v →
  firstOf order availableMoves v.
Proof.
  intros Hf. apply firstSome_Some in Hf as (pre & x & post & -> & Hx & Hpre).
  unfold includes in *. exists pre, post.
  destruct (bool_decide (x ∈ availableMoves)) eqn:Hin; [|done].
  injection Hx as ->. apply bool_decide_eq_true in Hin.
  repeat split; [done|]. intros y Hy Hyin. specialize (Hpre y Hy).
  rewrite bool_decide_true in Hpre by done. done.
Qed.

Lemma getMediumMove_legal (b : board) (availableMoves : list Z)
    (aiPlayer : Z) (rnd : Q) :
  isRandom rnd → availableMoves ≠ [] →
  ∃ col, getMediumMove b availableMoves aiPlayer rnd = Some col
         ∧ col ∈ availableMoves.
Proof.
  intros Hrnd Hne. unfold getMediumMove.
  destruct (firstSome (tryColumn b aiPlayer) availableMoves) as [v|] eqn:H1.
  { exists v. split; [done|]. by apply firstSome_tryColumn in H1 as [? _]. }
  destruct (firstSome (tryColumn b (opponentOf aiPlayer)) availableMoves)
    as [v|] eqn:H2.
  { exists v. split; [done|]. by apply firstSome_tryColumn in H2 as [? _]. }
  destruct (firstSome _ centerOrder) as [v|] eqn:H3.
  { exists v. split; [done|].
    by apply firstSome_center in H3 as (_ & _ & _ & ? & _). }
  by apply getEasyMove_legal.
Qed.

Lemma hardStep_legal (b : board) (aiPlayer opponent : Z) (depth : nat)
    (availableMoves l : list Z) (best : num * option Z) :
  (∃ col, best.2 = Some col ∧ col ∈ availableMoves) →
  (∀ x, x ∈ l → x ∈ availableMoves) →
  ∃ col, (foldl (hardStep b aiPlayer opponent depth) best l).2 = Some col
         ∧ col ∈ availableMoves.
Proof.
  revert best. induction l as [|x l IH]; intros best Hbest Hl; simpl; [done|].
  apply IH.
  - unfold hardStep. destruct best as [bestScore bestMove].
    destruct (dropDisc (cloneBoard b) x aiPlayer) as [testBoard result].
    destruct (negb (success result)); [done|].
    destruct (numGt _ bestScore); [|done].
    exists x. split; [done|]. apply Hl. apply elem_of_cons. auto.
  - intros y Hy. apply Hl. apply elem_of_cons. auto.
Qed.

Lemma getHardMove_legal (b : board) (availableMoves : list Z)
    (aiPlayer : Z) (depth : nat) :
  availableMoves ≠ [] →
  ∃ col, getHardMove b availableMoves aiPlayer depth = Some col
         ∧ col ∈ availableMoves.
Proof.
  intros Hne. unfold getHardMove. apply hardStep_legal; [|done].
  destruct availableMoves as [|x l]; [done|]. exists x. simpl.
  split; [done|]. apply elem_of_cons. auto.
Qed.

(** C4. For every board, tier (also an unknown one) and side: when some
    column is not full, [getAIMove] returns a column of
    [getAvailableMoves(board)], a column in [0, 6] that is not full; it
    returns [-1] exactly when no column is available. *)
Theorem getAIMove_legal (b : board) (difficulty : string) (aiPlayer : Z)
    (rnd : Q) :
  isRandom rnd →
  (getAvailableMoves b ≠ [] →
   ∃ col, getAIMove b difficulty aiPlayer rnd = Some col
          ∧ col ∈ getAvailableMoves b
          ∧ 0 ≤ col ≤ 6 ∧ isColumnFull b col = false)
  ∧ (getAIMove b difficulty aiPlayer rnd = Some (-1)
     ↔ getAvailableMoves b = [])
  ∧ (getAvailableMoves b = []
     ↔ ∀ col, 0 ≤ col ≤ 6 → isColumnFull b col = true).
Proof.
  intros Hrnd.
  assert (Hlegal : getAvailableMoves b ≠ [] →
    ∃ col, getAIMove b difficulty aiPlayer rnd = Some col
           ∧ col ∈ getAvailableMoves b).
  { intros Hne. unfold getAIMove.
    destruct (length (getAvailableMoves b) =? 0)%nat eqn:Hlen.
    { by apply length_zero_nil in Hlen. }
    destruct (String.eqb difficulty "easy"); [by apply getEasyMove_legal|].
    destruct (String.eqb difficulty "medium");
      [by apply getMediumMove_legal|].
    destruct (String.eqb difficulty "hard"); [by apply getHardMove_legal|].
    by apply getEasyMove_legal. }
  split; [|split].
  - intros Hne. destruct (Hlegal Hne) as (col & Hcol & Hin).
    pose proof (proj1 (elem_of_getAvailableMoves b col) Hin) as [? ?].
    exists col. repeat split; try done; lia.
  - split.
    + intros Hm. destruct (decide (getAvailableMoves b = [])) as [|Hne];
        [done|].
      destruct (Hlegal Hne) as (col & Hcol & Hin).
      rewrite Hm in Hcol. injection Hcol as <-.
      apply elem_of_getAvailableMoves in Hin as [? _]. lia.
    + intros Hnil. unfold getAIMove. by rewrite Hnil.
  - split.
    + intros Hnil col Hcol. destruct (isColumnFull b col) eqn:Hfull; [done|].
      assert (col ∈ getAvailableMoves b) as Hin
        by (by apply elem_of_getAvailableMoves).
      rewrite Hnil in Hin. by apply elem_of_nil in Hin.
    + intros Hall. destruct (getAvailableMoves b) as [|x l] eqn:Hm; [done|].
      assert (x ∈ getAvailableMoves b) as Hin
        by (rewrite Hm; apply elem_of_cons; auto).
      apply elem_of_getAvailableMoves in Hin as [Hx Hf].
      rewrite Hall in Hf by done. done.
Qed.

Lemma getAIMove_legal_witness :
  isRandom (1 # 2)
  ∧ ∃ col, getAIMove blockBoard "hard" 2 (1 # 2) = Some col
           ∧ col ∈ getAvailableMoves blockBoard
           ∧ 0 ≤ col ≤ 6 ∧ isColumnFull blockBoard col = false.
Proof.
  assert (Hr : isRandom (1 # 2)) by (split; vm_compute; congruence).
  split; [exact Hr|].
  apply (proj1 (getAIMove_legal blockBoard "hard" 2 (1 # 2) Hr)).
  vm_compute. discriminate.
Defined.



End AIFacts.

(** ** The search tier *)

Module SearchFacts.
Import Board AI Spec BoardFacts AIFacts.

Lemma cellIs_hit (b : board) (p r c : Z) :
  cellIs b p r c
  ↔ outOfBounds r c = false ∧ strictEq (get b r c) p = true.
Proof.
  unfold cellIs, inGrid, outOfBounds, ROWS, COLS. rewrite strictEq_true.
  rewrite !orb_false_iff. intuition lia.
Qed.

Lemma cellIs_miss (b : board) (p r c : Z) :
  outOfBounds r c = true ∨ strictEq (get b r c) p = false →
  ¬ cellIs b p r c.
Proof.
  intros Hm Hc. apply cellIs_hit in Hc as [H1 H2]. destruct Hm; congruence.
Qed.

(** In the proofs about the two loops of [checkWin]: the loop stops after
    [k] cells of the player. *)
Local Ltac hits :=
  let i := fresh "i" in let Hi := fresh "Hi" in
  intros i Hi;
  assert (i = 1 ∨ i = 2 ∨ i = 3) as [-> | [-> | ->]] by lia;
  first [by apply cellIs_hit | exfalso; lia].

Local Ltac stops_after k :=
  exists k; simpl;
  split; [lia|split; [lia|split; [hits|intros _; apply cellIs_miss; auto]]].

Local Ltac stops_before k :=
  exists k; simpl; split; [lia|split; [lia|hits]].

(** The forward loop counts the cells of [p] that follow the start cell
    without a gap, at most three. *)
Lemma forward_count (b : board) (r c dr dc p : Z) (ln : list (Z * Z)) (n : Z) :
  ∃ k, 0 ≤ k ≤ 3
    ∧ (forward b r c dr dc p [1; 2; 3] ln n).2 = n + k
    ∧ (∀ i, 1 ≤ i ≤ k → cellIs b p (r + dr * i) (c + dc * i))
    ∧ (k < 3 → ¬ cellIs b p (r + dr * (k + 1)) (c + dc * (k + 1))).
Proof.
  simpl.
  destruct (outOfBounds (r + dr * 1) (c + dc * 1)) eqn:O1;
    [stops_after 0|].
  destruct (strictEq (get b (r + dr * 1) (c + dc * 1)) p) eqn:E1;
    [|stops_after 0].
  destruct (outOfBounds (r + dr * 2) (c + dc * 2)) eqn:O2;
    [stops_after 1|].
  destruct (strictEq (get b (r + dr * 2) (c + dc * 2)) p) eqn:E2;
    [|stops_after 1].
  destruct (outOfBounds (r + dr * 3) (c + dc * 3)) eqn:O3;
    [stops_after 2|].
  destruct (strictEq (get b (r + dr * 3) (c + dc * 3)) p) eqn:E3;
    [|stops_after 2].
  exists 3. simpl. split; [lia|split; [lia|split; [hits|lia]]].
Qed.

(** The backward loop does the same before the start cell. *)
Lemma backward_count (b : board) (r c dr dc p : Z) (ln : list (Z * Z))
    (n : Z) :
  ∃ k, 0 ≤ k ≤ 3
    ∧ (backward b r c dr dc p [1; 2; 3] ln n).2 = n + k
    ∧ (∀ i, 1 ≤ i ≤ k → cellIs b p (r - dr * i) (c - dc * i)).
Proof.
  simpl.
  destruct (outOfBounds (r - dr * 1) (c - dc * 1)) eqn:O1;
    [stops_before 0|].
  destruct (strictEq (get b (r - dr * 1) (c - dc * 1)) p) eqn:E1;
    [|stops_before 0].
  destruct (outOfBounds (r - dr * 2) (c - dc * 2)) eqn:O2;
    [stops_before 1|].
  destruct (strictEq (get b (r - dr * 2) (c - dc * 2)) p) eqn:E2;
    [|stops_before 1].
  destruct (outOfBounds (r - dr * 3) (c - dc * 3)) eqn:O3;
    [stops_before 2|].
  destruct (strictEq (get b (r - dr * 3) (c - dc * 3)) p) eqn:E3;
    [|stops_before 2].
  stops_before 3.
Qed.

Lemma checkDirection_win (b : board) (r c p : Z) (d : Z * Z)
    (res : WinResult) :
  checkDirection b r c p d = Some res → win res = true.
Proof.
  unfold checkDirection. destruct d as [dr dc].
  destruct (forward _ _ _ _ _ _ _ _ _) as [line1 count1].
  destruct (if count1 <? WIN_LENGTH then _ else _) as [line2 count2].
  destruct (count2 >=? WIN_LENGTH); [|done]. by intros [= <-].
Qed.

(** A direction in which [checkWin] finds a win holds four cells of the
    player in a row. *)
Lemma checkDirection_sound (b : board) (r c p dr dc : Z) (res : WinResult) :
  cellIs b p r c → checkDirection b r c p (dr, dc) = Some res →
  ∃ r0 c0, ∀ i, 0 ≤ i < 4 → cellIs b p (r0 + dr * i) (c0 + dc * i).
Proof.
  intros Hstart. unfold checkDirection.
  change (seqZ 1 (WIN_LENGTH - 1)) with [1; 2; 3]. unfold WIN_LENGTH.
  destruct (forward_count b r c dr dc p [(r, c)] 1)
    as (kf & Hkf & Hcf & Hf & _).
  destruct (forward b r c dr dc p [1; 2; 3] [(r, c)] 1) as [line1 count1].
  simpl in Hcf. destruct (count1 <? 4) eqn:Hlt.
  - destruct (backward_count b r c dr dc p line1 count1)
      as (kb & Hkb & Hcb & Hb).
    destruct (backward b r c dr dc p [1; 2; 3] line1 count1)
      as [line2 count2].
    simpl in Hcb. destruct (count2 >=? 4) eqn:Hge; [|done]. intros _.
    exists (r - dr * kb), (c - dc * kb). intros i Hi.
    destruct (Z.lt_trichotomy i kb) as [Hlt'|[->|Hgt]].
    + replace (r - dr * kb + dr * i) with (r - dr * (kb - i)) by ring.
      replace (c - dc * kb + dc * i) with (c - dc * (kb - i)) by ring.
      apply Hb. lia.
    + replace (r - dr * kb + dr * kb) with r by ring.
      replace (c - dc * kb + dc * kb) with c by ring. done.
    + replace (r - dr * kb + dr * i) with (r + dr * (i - kb)) by ring.
      replace (c - dc * kb + dc * i) with (c + dc * (i - kb)) by ring.
      apply Hf. lia.
  - intros _. exists r, c. intros i Hi.
    destruct (decide (i = 0)) as [->|Hne].
    + replace (r + dr * 0) with r by ring.
      replace (c + dc * 0) with c by ring. done.
    + apply Hf. lia.
Qed.

(** Four cells of the player in a row make [checkWin] find the direction
    from the first of them. *)
Lemma checkDirection_complete (b : board) (r c p dr dc : Z) :
  (∀ i, 0 ≤ i < 4 → cellIs b p (r + dr * i) (c + dc * i)) →
  is_Some (checkDirection b r c p (dr, dc)).
Proof.
  intros Hrow. unfold checkDirection.
  change (seqZ 1 (WIN_LENGTH - 1)) with [1; 2; 3]. unfold WIN_LENGTH.
  destruct (forward_count b r c dr dc p [(r, c)] 1)
    as (kf & Hkf & Hcf & _ & Hstop).
  destruct (forward b r c dr dc p [1; 2; 3] [(r, c)] 1) as [line1 count1].
  simpl in Hcf.
  assert (kf = 3) as ->.
  { destruct (decide (kf = 3)) as [|Hne]; [done|]. exfalso.
    apply Hstop; [lia|]. apply Hrow. lia. }
  destruct (count1 <? 4) eqn:Hlt; [lia|].
  destruct (count1 >=? 4) eqn:Hge; [eauto|lia].
Qed.

Lemma anchored_fourInRow (b : board) (p : Z) :
  anchored b p ↔ fourInRow b p.
Proof.
  split.
  - intros (r & c & Hstart & Hwin). unfold checkWin in Hwin.
    destruct (firstSome (checkDirection b r c p) directions) as [res|] eqn:Hf;
      [|done].
    apply firstSome_Some in Hf as (pre & [dr dc] & post & Hd & Hres & _).
    destruct (checkDirection_sound b r c p dr dc res Hstart Hres)
      as (r0 & c0 & Hrow).
    exists r0, c0, dr, dc. split; [|done]. rewrite Hd.
    apply elem_of_app. right. apply elem_of_cons. auto.
  - intros (r & c & dr & dc & Hd & Hrow). exists r, c. split.
    + specialize (Hrow 0). unfold WIN_LENGTH in Hrow.
      replace (r + dr * 0) with r in Hrow by ring.
      replace (c + dc * 0) with c in Hrow by ring. apply Hrow. lia.
    + unfold checkWin.
      destruct (firstSome (checkDirection b r c p) directions) as [res|] eqn:Hf.
      * apply firstSome_Some in Hf as (pre & d & post & _ & Hres & _).
        by apply checkDirection_win in Hres.
      * exfalso. pose proof (proj1 (firstSome_None _ _) Hf _ Hd) as Hnone.
        destruct (checkDirection_complete b r c p dr dc Hrow) as [res Hres].
        congruence.
Qed.

Lemma winScan_None (b : board) (p o k1 k2 : Z) :
  winScan b p o k1 k2 = None ↔ ¬ anchored b p ∧ ¬ anchored b o.
Proof.
  unfold winScan. rewrite firstSome_None. split.
  - intros Hnone.
    assert (Hcell : ∀ q r c, cellIs b q r c → win (checkWin b r c q) = true →
                    q = p ∨ q = o → False).
    { intros q r c [[Hr Hc] Hget] Hwin Hq.
      assert (Hrin : r ∈ seqZ 0 ROWS) by (apply elem_of_seqZ; lia).
      assert (Hcin : c ∈ seqZ 0 COLS) by (apply elem_of_seqZ; lia).
      pose proof (proj1 (firstSome_None _ _) (Hnone r Hrin) c Hcin) as Hb.
      simpl in Hb. apply strictEq_true in Hget.
      destruct Hq as [->| ->]; rewrite Hget, Hwin in Hb; simpl in Hb;
        [done|].
      by destruct (strictEq (get b r c) p && win (checkWin b r c p)). }
    split; intros (r & c & Hcell' & Hwin); eapply Hcell; eauto.
  - intros [Hp Ho] r Hr. apply firstSome_None. intros c Hc.
    apply elem_of_seqZ in Hr, Hc.
    destruct (strictEq (get b r c) p && win (checkWin b r c p)) eqn:H1.
    { apply andb_true_iff in H1 as [H1 H1']. apply strictEq_true in H1.
      exfalso. apply Hp. exists r, c. repeat split; try done; lia. }
    destruct (strictEq (get b r c) o && win (checkWin b r c o)) eqn:H2;
      [|done].
    apply andb_true_iff in H2 as [H2 H2']. apply strictEq_true in H2.
    exfalso. apply Ho. exists r, c. repeat split; try done; lia.
Qed.

Lemma winScan_Some (b : board) (p o k1 k2 v : Z) :
  winScan b p o k1 k2 = Some v →
  (v = k1 ∧ anchored b p) ∨ (v = k2 ∧ anchored b o).
Proof.
  unfold winScan. intros Hf.
  apply firstSome_Some in Hf as (pre & r & post & Hrows & Hf & _).
  apply firstSome_Some in Hf as (pre' & c & post' & Hcols & Hf & _).
  assert (Hr : r ∈ seqZ 0 ROWS).
  { rewrite Hrows. apply elem_of_app. right. apply elem_of_cons. auto. }
  assert (Hc : c ∈ seqZ 0 COLS).
  { rewrite Hcols. apply elem_of_app. right. apply elem_of_cons. auto. }
  apply elem_of_seqZ in Hr, Hc.
  destruct (strictEq (get b r c) p && win (checkWin b r c p)) eqn:H1.
  { apply andb_true_iff in H1 as [H1 H1']. apply strictEq_true in H1.
    injection Hf as <-. left. split; [done|].
    exists r, c. repeat split; try done; lia. }
  destruct (strictEq (get b r c) o && win (checkWin b r c o)) eqn:H2;
    [|done].
  apply andb_true_iff in H2 as [H2 H2']. apply strictEq_true in H2.
  injection Hf as <-. right. split; [done|].
  exists r, c. repeat split; try done; lia.
Qed.

(** The scan when exactly one of the two players has four in a row. *)
Lemma winScan_only (b : board) (p o k1 k2 : Z) :
  (fourInRow b p → ¬ fourInRow b o → winScan b p o k1 k2 = Some k1)
  ∧ (fourInRow b o → ¬ fourInRow b p → winScan b p o k1 k2 = Some k2)
  ∧ (¬ fourInRow b p → ¬ fourInRow b o → winScan b p o k1 k2 = None).
Proof.
  rewrite <- !anchored_fourInRow.
  destruct (winScan b p o k1 k2) as [v|] eqn:Hs.
  - apply winScan_Some in Hs as [[-> Ha]|[-> Ha]];
      repeat split; intros; try done; exfalso; auto.
  - apply winScan_None in Hs as [Hp Ho].
    repeat split; intros; try done; exfalso; auto.
Qed.

Lemma not_fourInRow_scan (b : board) (p : Z) :
  winScan b p p 0 0 = None → ¬ fourInRow b p.
Proof.
  intros Hs. rewrite <- anchored_fourInRow.
  by apply winScan_None in Hs as [? _].
Qed.

Lemma reachable_play (b : board) (moves : list (Z * Z)) :
  reachable b → Forall (λ m, isSide m.2) moves → reachable (play b moves).
Proof.
  unfold play. revert b. induction moves as [|[c s] moves IH]; intros b Hb Hs;
    simpl; [done|].
  inversion Hs as [|m ms Hside Hrest]; subst. simpl in Hside.
  apply IH; [|done].
  destruct (success (dropDisc b c s).2) eqn:Hok.
  - by apply reach_drop.
  - by rewrite (dropDisc_failure b c s Hok).
Qed.

(** C6, as stated, fails at depth 0 on a full board without a four-in-a-row:
    no legal move remains, yet [minimax] returns the evaluator's score 4, not
    0.  The search of depth 5 from the game position [searchRoot] gets
    there: after Yellow 6, Red 6, Yellow 5, Red 6 the call at depth 1 is on
    [lastCellBoard], its only move gives [drawnBoard] at depth 0, and the 4
    is what the call at depth 1 returns. *)
Lemma minimax_draw_depth_zero :
  reachable searchRoot ∧ getAvailableMoves searchRoot = [5; 6]
  ∧ lastCellBoard = play searchRoot [(6, 2); (6, 1); (5, 2); (6, 1)]
  ∧ getAvailableMoves lastCellBoard = [5]
  ∧ dropDisc (cloneBoard lastCellBoard) 5 2
    = (drawnBoard, {| success := true; row := 0 |})
  ∧ reachable drawnBoard
  ∧ getAvailableMoves drawnBoard = []
  ∧ ¬ fourInRow drawnBoard 2 ∧ ¬ fourInRow drawnBoard 1
  ∧ (∀ isMaximizing alpha beta,
       minimax drawnBoard 0 isMaximizing 2 1 alpha beta = Fin 4)
  ∧ minimax drawnBoard 0 false 2 1 NegInf PosInf ≠ Fin 0
  ∧ (∀ alpha beta, minimax lastCellBoard 1 true 2 1 alpha beta = Fin 4).
Proof.
  assert (Hroot : reachable searchRoot).
  { apply reachable_play; [apply reach_create|].
    repeat (apply List.Forall_cons; [first [by left|by right]|]).
    apply List.Forall_nil. }
  assert (Hlast : reachable lastCellBoard).
  { apply reachable_play; [exact Hroot|].
    repeat (apply List.Forall_cons; [first [by left|by right]|]).
    apply List.Forall_nil. }
  split; [exact Hroot|].
  split; [vm_compute; reflexivity|].
  split; [reflexivity|].
  split; [vm_compute; reflexivity|].
  split; [vm_compute; reflexivity|].
  split; [apply reach_drop; [exact Hlast|by right|vm_compute; reflexivity]|].
  split; [vm_compute; reflexivity|].
  split; [apply not_fourInRow_scan; vm_compute; reflexivity|].
  split; [apply not_fourInRow_scan; vm_compute; reflexivity|].
  split; [intros isMaximizing alpha beta; vm_compute; reflexivity|].
  split; [vm_compute; discriminate|].
  intros alpha beta. vm_compute.
  destruct beta as [|y|]; destruct alpha as [|x|]; try reflexivity;
    repeat match goal with
           | |- context [match ?x with _ => _ end] => destruct x
           end; reflexivity.
Qed.

(** C6, amended. At remaining depth [d >= 1]: when only the searching side
    has four in a row [minimax] returns [10000 + d], when only the opponent
    has, [-10000 - d], and when neither has and no legal move remains, 0.
    At depth 0 it returns the evaluator's score for the searching side
    whatever the position; that score is 10000 when only the searching side
    has four in a row and -10000 when only the opponent has. *)
Theorem minimax_terminal (b : board) (depth : nat) (isMaximizing : bool)
    (aiPlayer opponent : Z) (alpha beta : num) :
  let result := minimax b depth isMaximizing aiPlayer opponent alpha beta in
  (depth ≠ 0%nat → fourInRow b aiPlayer → ¬ fourInRow b opponent →
   result = Fin (10000 + Z.of_nat depth))
  ∧ (depth ≠ 0%nat → fourInRow b opponent → ¬ fourInRow b aiPlayer →
     result = Fin (-10000 - Z.of_nat depth))
  ∧ (depth ≠ 0%nat → ¬ fourInRow b aiPlayer → ¬ fourInRow b opponent →
     getAvailableMoves b = [] → result = Fin 0)
  ∧ (depth = 0%nat → result = Fin (evaluateBoard b aiPlayer))
  ∧ (depth = 0%nat → opponent = opponentOf aiPlayer →
     fourInRow b aiPlayer → ¬ fourInRow b opponent →
     result = Fin (10000 + Z.of_nat depth))
  ∧ (depth = 0%nat → opponent = opponentOf aiPlayer →
     fourInRow b opponent → ¬ fourInRow b aiPlayer →
     result = Fin (-10000 - Z.of_nat depth)).
Proof.
  simpl. destruct depth as [|d].
  - split; [done|]. split; [done|]. split; [done|]. simpl.
    split; [done|]. unfold evaluateBoard.
    split; intros _ -> H1 H2.
    + by rewrite (proj1 (winScan_only b aiPlayer (opponentOf aiPlayer)
                           10000 (-10000)) H1 H2).
    + by rewrite (proj1 (proj2 (winScan_only b aiPlayer (opponentOf aiPlayer)
                                  10000 (-10000))) H1 H2).
  - cbn [minimax].
    split; [|split; [|split; [|by repeat split]]].
    + intros _ H1 H2.
      by rewrite (proj1 (winScan_only b aiPlayer opponent _ _) H1 H2).
    + intros _ H1 H2.
      by rewrite (proj1 (proj2 (winScan_only b aiPlayer opponent _ _)) H1 H2).
    + intros _ H1 H2 Hnil.
      rewrite (proj2 (proj2 (winScan_only b aiPlayer opponent _ _)) H1 H2).
      by rewrite Hnil.
Qed.

Lemma minimax_terminal_witness :
  minimax (dropDisc scenario1 3 1).1 4 false 1 2 NegInf PosInf
  = Fin (10000 + Z.of_nat 4)
  ∧ minimax (swapBoard (dropDisc scenario1 3 1).1) 4 true 1 2 NegInf PosInf
    = Fin (-10000 - Z.of_nat 4)
  ∧ minimax drawnBoard 4 true 2 1 NegInf PosInf = Fin 0
  ∧ minimax drawnBoard 0 true 2 1 NegInf PosInf
    = Fin (evaluateBoard drawnBoard 2).
Proof.
  assert (Hred : fourInRow (dropDisc scenario1 3 1).1 1).
  { apply anchored_fourInRow. exists 5, 3. vm_compute. repeat split; congruence. }
  assert (Hyel : fourInRow (swapBoard (dropDisc scenario1 3 1).1) 2).
  { apply anchored_fourInRow. exists 5, 3. vm_compute. repeat split; congruence. }
  split; [|split; [|split]].
  - apply (proj1 (minimax_terminal (dropDisc scenario1 3 1).1 4 false 1 2
                    NegInf PosInf)); [done|exact Hred|].
    apply not_fourInRow_scan. vm_compute. reflexivity.
  - apply (proj1 (proj2 (minimax_terminal
                           (swapBoard (dropDisc scenario1 3 1).1) 4 true 1 2
                           NegInf PosInf))); [done|exact Hyel|].
    apply not_fourInRow_scan. vm_compute. reflexivity.
  - apply (proj1 (proj2 (proj2 (minimax_terminal drawnBoard 4 true 2 1
                                  NegInf PosInf)))); [done| | |].
    + apply not_fourInRow_scan. vm_compute. reflexivity.
    + apply not_fourInRow_scan. vm_compute. reflexivity.
    + vm_compute. reflexivity.
  - apply (proj1 (proj2 (proj2 (proj2 (minimax_terminal drawnBoard 0 true 2 1
                                         NegInf PosInf))))). reflexivity.
Defined.

End SearchFacts.

(** ** The session controller *)

Module SessionFacts.
Import Board AI Session Spec BoardFacts.

Lemma sized_get_bound (b : board) (r c : Z) :
  sized b → is_Some (get b r c) → 0 ≤ r < ROWS ∧ 0 ≤ c < COLS.
Proof.
  intros [Hlen Hrows] [v Hv]. unfold get, ROWS, COLS in *.
  destruct ((0 <=? r) && (0 <=? c)) eqn:Hb; [|done].
  apply andb_true_iff in Hb as [Hr Hc].
  destruct (b !! Z.to_nat r) as [rw|] eqn:Hrw; simpl in Hv; [|done].
  pose proof (lookup_lt_Some _ _ _ Hrw) as Hlt.
  pose proof (lookup_lt_Some _ _ _ Hv) as Hlt'.
  rewrite Forall_lookup in Hrows. rewrite (Hrows _ _ Hrw) in Hlt'. lia.
Qed.

(** On a 6x7 board a column that [isColumnFull] lets through takes the
    disc: the guard of [handleColumnClick] and of [makeAIMove] leaves no
    failing [dropDisc]. *)
Lemma dropDisc_after_guard (b : board) (col player : Z) :
  sized b → isColumnFull b col = false →
  success (dropDisc b col player).2 = true.
Proof.
  intros Hsz Hfull. unfold isColumnFull in Hfull.
  apply negb_false_iff, strictEq_true in Hfull.
  destruct (sized_get_bound b 0 col Hsz) as [_ Hc]; [by rewrite Hfull|].
  pose proof (getLowestEmptyRow_spec b col) as Hsp. simpl in Hsp.
  unfold dropDisc, COLS in *.
  destruct Hsp as [[_ Hbl]|(_ & Hr & _)].
  - exfalso. destruct Hbl as [?|[?|Hn]]; [lia|lia|]. by apply (Hn 0).
  - destruct (getLowestEmptyRow b col =? -1) eqn:He; [lia|done].
Qed.

(** A click that places no disc leaves the whole state as it was. *)
Lemma handleColumnClick_rejected (col : Z) (st : State) :
  sized (currentBoard st) →
  (handleColumnClick col st).2 = None → (handleColumnClick col st).1 = st.
Proof.
  intros Hsz. unfold handleColumnClick.
  destruct (negb (isGameActive st) || isAnimating st) eqn:Hg; [done|].
  destruct (String.eqb (gameMode st) "ai" && (currentPlayer st =? 2));
    [done|].
  destruct (isColumnFull (currentBoard st) col) eqn:Hfull; [done|].
  apply orb_false_iff in Hg as [_ Hanim]. unfold makeMove. rewrite Hanim.
  simpl.
  pose proof (dropDisc_after_guard _ col (currentPlayer st) Hsz Hfull) as Hok.
  destruct (dropDisc (currentBoard st) col (currentPlayer st)) as [b' result].
  simpl in Hok. rewrite Hok. done.
Qed.

(** [makeMove] itself, when its [dropDisc] fails, returns with the
    checkpoint it has pushed still on the undo stack. *)
Lemma makeMove_failed (col player : Z) (st : State) :
  isAnimating st = false →
  success (dropDisc (currentBoard st) col player).2 = false →
  makeMove col player st = (pushCheckpoint st, None).
Proof.
  intros Hanim Hfail. unfold makeMove. rewrite Hanim. simpl.
  rewrite (dropDisc_failure _ col player Hfail). simpl.
  destruct st. unfold pushCheckpoint, setAnimating, setBoard, setUndo.
  simpl in *. subst. done.
Qed.

(** The branch that the guard of [handleColumnClick] keeps away: [makeMove],
    were it called for the full column 0 of an active two-player game,
    would place nothing, leave board, player and move log as they were, and
    leave the undo stack one checkpoint longer.  The only call of
    [makeMove] is the one in [handleColumnClick], which returns before. *)
Lemma makeMove_full_column_keeps_checkpoint :
  let st := fullColumnState in
  let after := makeMove 0 (currentPlayer st) st in
  isGameActive st = true ∧ isAnimating st = false
  ∧ isColumnFull (currentBoard st) 0 = true
  ∧ after.2 = None
  ∧ currentBoard after.1 = currentBoard st
  ∧ currentPlayer after.1 = currentPlayer st
  ∧ moveHistory after.1 = moveHistory st
  ∧ length (undoStack st) = 6%nat
  ∧ length (undoStack after.1) = 7%nat
  ∧ currentBoard (handleUndo after.1) = currentBoard st
  ∧ getLowestEmptyRow (currentBoard (handleUndo st)) 0 = 0
  ∧ after.1 ≠ st
  ∧ handleColumnClick 0 st = (st, None).
Proof.
  cbv zeta. do 11 (split; [vm_compute; reflexivity|]).
  split; [|vm_compute; reflexivity].
  intros Heq. apply (f_equal (λ s, length (undoStack s))) in Heq.
  vm_compute in Heq. discriminate Heq.
Qed.

(** C7. A move that is rejected leaves the state of the session as it
    was.  On a 6x7 board, a click on a full column returns at once; a click
    that places no disc, for whatever reason (game not active, a move in
    progress, not the turn of the human, full column), leaves board, side
    to move, move log and undo stack unchanged, and no checkpoint stays
    behind; [makeAIMove] that returns at its guard changes nothing; the
    part of [makeAIMove] after the thinking delay, when it places no disc,
    only resets [isAnimating], so that the state is again the one before
    [makeAIMove]. *)
Theorem rejected_move_unchanged (st : State) (col : Z) (rnd : Q)
    (face text : string) :
  sized (currentBoard st) →
  (isColumnFull (currentBoard st) col = true →
   handleColumnClick col st = (st, None))
  ∧ ((handleColumnClick col st).2 = None → (handleColumnClick col st).1 = st)
  ∧ ((makeAIMove st).2 = false → (makeAIMove st).1 = st)
  ∧ ((makeAIMoveThink rnd face text st).2 = None →
     (makeAIMoveThink rnd face text st).1 = setAnimating st false)
  ∧ ((makeAIMove st).2 = true →
     (makeAIMoveThink rnd face text (makeAIMove st).1).2 = None →
     (makeAIMoveThink rnd face text (makeAIMove st).1).1 = st).
Proof.
  intros Hsz.
  assert (Hthink : ∀ s, sized (currentBoard s) →
            (makeAIMoveThink rnd face text s).2 = None →
            (makeAIMoveThink rnd face text s).1 = setAnimating s false).
  { intros s Hs. unfold makeAIMoveThink.
    destruct (getAIMove (currentBoard s) (aiDifficulty s) 2 rnd)
      as [aiCol|]; [|done].
    destruct ((aiCol =? -1) || isColumnFull (currentBoard s) aiCol) eqn:Hbad;
      [done|].
    apply orb_false_iff in Hbad as [_ Hfull].
    pose proof (dropDisc_after_guard (currentBoard s) aiCol 2 Hs Hfull)
      as Hok. simpl.
    destruct (dropDisc (currentBoard s) aiCol 2) as [b' result].
    simpl in Hok. rewrite Hok. done. }
  split; [|split; [|split; [|split]]].
  - intros Hfull. unfold handleColumnClick.
    destruct (negb (isGameActive st) || isAnimating st); [done|].
    destruct (String.eqb (gameMode st) "ai" && (currentPlayer st =? 2));
      [done|]. by rewrite Hfull.
  - by apply handleColumnClick_rejected.
  - unfold makeAIMove. by destruct (_ || _).
  - by apply Hthink.
  - unfold makeAIMove.
    destruct (negb (isGameActive st) || isAnimating st
              || negb (currentPlayer st =? 2)) eqn:Hg; [done|].
    intros _ Hnone. simpl in *. rewrite (Hthink (setAnimating st true) Hsz Hnone).
    apply orb_false_iff in Hg as [Hg _].
    apply orb_false_iff in Hg as [_ Hanim].
    destruct st. unfold setAnimating. simpl in *. by subst.
Qed.

Lemma rejected_move_unchanged_witness :
  handleColumnClick 0 fullColumnState = (fullColumnState, None).
Proof.
  refine (proj1 (rejected_move_unchanged fullColumnState 0 (1 # 2)
                   "face" "text" _) _).
  - split; [vm_compute; reflexivity|]. vm_compute. repeat constructor.
  - vm_compute. reflexivity.
Defined.

End SessionFacts.

(** ** More about the board *)

Module BoardMore.
Import Board Spec More BoardFacts AIFacts SearchFacts.

Lemma sized_grid (b : board) : sized b → grid b.
Proof.
  intros [Hlen Hrows] r c Hr Hc. unfold get, ROWS, COLS in *.
  destruct ((0 <=? r) && (0 <=? c)) eqn:Hb.
  - destruct (lookup_lt_is_Some_2 b (Z.to_nat r)) as [rw Hrw]; [lia|].
    rewrite Hrw. simpl. apply lookup_lt_is_Some_2.
    rewrite Forall_lookup in Hrows. rewrite (Hrows _ _ Hrw). lia.
  - apply andb_false_iff in Hb as [Hb|Hb]; lia.
Qed.

Lemma sized_createBoard : sized createBoard.
Proof.
  split; [done|]. unfold createBoard. apply Forall_replicate. done.
Qed.

Lemma sized_set (b : board) (r c v : Z) : sized b → sized (set b r c v).
Proof.
  intros [Hlen Hrows]. unfold set. split.
  - by rewrite length_alter.
  - apply Forall_alter; [done|]. intros rw _ Hrw. by rewrite length_insert.
Qed.

Lemma sized_dropDisc (b : board) (c s : Z) :
  sized b → sized (dropDisc b c s).1.
Proof.
  intros Hsz. unfold dropDisc.
  destruct (getLowestEmptyRow b c =? -1); simpl; [done|]. by apply sized_set.
Qed.

Lemma sized_play (b : board) (moves : list (Z * Z)) :
  sized b → sized (play b moves).
Proof.
  unfold play. revert b. induction moves as [|m moves IH]; intros b Hb;
    simpl; [done|].
  apply IH. by apply sized_dropDisc.
Qed.

Lemma sized_reachable (b : board) : reachable b → sized b.
Proof.
  induction 1; [apply sized_createBoard|by apply sized_dropDisc].
Qed.

Lemma sorted_filter (P : Z → Prop) `{∀ x, Decision (P x)} (l : list Z) :
  StronglySorted Z.lt l → StronglySorted Z.lt (filter P l).
Proof.
  induction 1 as [|x l Hl IH Hx]; [apply SSorted_nil|].
  rewrite filter_cons. destruct (decide (P x)); [|done].
  apply SSorted_cons; [done|]. rewrite List.Forall_forall in *.
  intros y Hy. apply Hx. apply list_elem_of_In.
  apply list_elem_of_In in Hy. by apply list_elem_of_filter in Hy as [_ ?].
Qed.

(** X1. [getAvailableMoves] lists in ascending order, each once, exactly the
    columns 0..6 whose top cell is empty. *)
Theorem getAvailableMoves_sorted (b : board) :
  StronglySorted Z.lt (getAvailableMoves b)
  ∧ NoDup (getAvailableMoves b)
  ∧ ∀ col, col ∈ getAvailableMoves b
           ↔ 0 ≤ col ≤ 6 ∧ get b 0 col = Some 0.
Proof.
  assert (Hs : StronglySorted Z.lt (getAvailableMoves b)).
  { unfold getAvailableMoves.
    rewrite (foldl_push (λ col, negb (isColumnFull b col))). simpl.
    apply sorted_filter.
    change (seqZ 0 COLS) with [0; 1; 2; 3; 4; 5; 6].
    repeat (apply SSorted_cons;
            [|repeat (apply List.Forall_cons; [lia|]); apply List.Forall_nil]).
    apply SSorted_nil. }
  split; [done|]. split.
  - clear -Hs. induction Hs as [|x l Hl IH Hx]; [apply NoDup_nil_2|].
    apply NoDup_cons_2; [|done]. intros Hin.
    rewrite List.Forall_forall in Hx. apply list_elem_of_In in Hin.
    specialize (Hx x Hin). lia.
  - intros col. rewrite elem_of_getAvailableMoves. unfold isColumnFull.
    rewrite negb_false_iff, strictEq_true. done.
Qed.

(** X2. On a 6x7 board without floating discs, for a column in 0..6:
    [isColumnFull] (top cell occupied) says exactly that the column has no
    empty cell, that is, that [dropDisc] fails there. *)
Theorem isColumnFull_no_floating (b : board) (col s : Z) :
  grid b → noFloating b → 0 ≤ col ≤ 6 →
  (isColumnFull b col = true ↔ ∀ r, 0 ≤ r ≤ 5 → get b r col ≠ Some 0)
  ∧ isColumnFull b col = negb (success (dropDisc b col s).2).
Proof.
  intros Hg Hnf Hcol.
  assert (Hiff : isColumnFull b col = true
                 ↔ ∀ r, 0 ≤ r ≤ 5 → get b r col ≠ Some 0).
  { unfold isColumnFull. rewrite negb_true_iff, strictEq_false. split.
    - intros Htop r Hr. destruct (decide (r = 0)) as [->|Hne]; [done|].
      apply occupied_not_empty. apply (Hnf col 0 r); unfold ROWS, COLS; try lia.
      apply grid_occupied; unfold ROWS, COLS; auto; lia.
    - intros Hall. apply Hall. lia. }
  split; [done|].
  pose proof (getLowestEmptyRow_spec b col) as Hsp. simpl in Hsp.
  unfold dropDisc.
  destruct Hsp as [[Hm Hbl]|(_ & Hr & H0 & _)].
  - rewrite Hm. simpl. apply Hiff.
    destruct Hbl as [?|[?|Hn]]; [lia|lia|done].
  - destruct (getLowestEmptyRow b col =? -1) eqn:He; [lia|]. simpl.
    destruct (isColumnFull b col) eqn:Hfull; [|done].
    exfalso. by apply (proj1 Hiff eq_refl (getLowestEmptyRow b col)).
Qed.

Lemma isColumnFull_no_floating_witness :
  isColumnFull blockBoard 6 = negb (success (dropDisc blockBoard 6 2).2).
Proof.
  assert (Hr : reachable blockBoard).
  { apply reachable_play; [apply reach_create|].
    repeat (apply List.Forall_cons; [first [by left|by right]|]).
    apply List.Forall_nil. }
  destruct (reachable_invariant _ Hr) as [Hg Hnf].
  apply (isColumnFull_no_floating blockBoard 6 2 Hg Hnf). lia.
Defined.

(** The top row is full exactly when no column is available. *)
Lemma isBoardFull_available (b : board) :
  sized b → (isBoardFull b = true ↔ getAvailableMoves b = []).
Proof.
  intros Hsz. destruct Hsz as [Hlen Hrows]. unfold isBoardFull.
  destruct (lookup_lt_is_Some_2 b 0) as [rw Hrw]; [lia|]. rewrite Hrw.
  rewrite Forall_lookup in Hrows. pose proof (Hrows _ _ Hrw) as Hrwlen.
  assert (Hget : ∀ col, 0 ≤ col → get b 0 col = rw !! Z.to_nat col).
  { intros col Hcol. unfold get.
    destruct ((0 <=? 0) && (0 <=? col)) eqn:Hb.
    - change (Z.to_nat 0) with 0%nat. by rewrite Hrw.
    - apply andb_false_iff in Hb as [Hb|Hb]; lia. }
  rewrite forallb_forall. split.
  - intros Hall. destruct (getAvailableMoves b) as [|x l] eqn:Hm; [done|].
    assert (x ∈ getAvailableMoves b) as Hin
      by (rewrite Hm; apply elem_of_cons; auto).
    apply elem_of_getAvailableMoves in Hin as [Hx Hfull].
    unfold isColumnFull in Hfull. apply negb_false_iff, strictEq_true in Hfull.
    rewrite Hget in Hfull by lia.
    apply list_elem_of_lookup_2, list_elem_of_In, Hall in Hfull. done.
  - intros Hnil v Hv. apply list_elem_of_In, list_elem_of_lookup_1 in Hv
      as [i Hi].
    destruct (v =? 0) eqn:Hz; [|done]. apply Z.eqb_eq in Hz. subst v.
    pose proof (lookup_lt_Some _ _ _ Hi) as Hlt.
    assert (Z.of_nat i ∈ getAvailableMoves b) as Hin.
    { apply elem_of_getAvailableMoves. split; [lia|].
      unfold isColumnFull. apply negb_false_iff, strictEq_true.
      rewrite Hget by lia. by rewrite Nat2Z.id. }
    rewrite Hnil in Hin. by apply elem_of_nil in Hin.
Qed.

(** X3. On a 6x7 board [isBoardFull] holds exactly when
    [getAvailableMoves] is empty: the draw test of the session and the
    sentinel of the AI agree. *)
Theorem isBoardFull_no_moves (b : board) :
  sized b → (isBoardFull b = true ↔ getAvailableMoves b = []).
Proof. exact (isBoardFull_available b). Qed.

Lemma isBoardFull_no_moves_witness :
  isBoardFull drawnBoard = true ↔ getAvailableMoves drawnBoard = [].
Proof.
  apply (isBoardFull_no_moves drawnBoard).
  apply sized_dropDisc. do 2 apply sized_play. apply sized_createBoard.
Defined.

Lemma filter_insert_disc (l : list Z) (i : nat) (v : Z) :
  l !! i = Some 0 → v ≠ 0 →
  length (filter (λ v, v ≠ 0) (<[i:=v]> l))
  = S (length (filter (λ v, v ≠ 0) l)).
Proof.
  revert i. induction l as [|x l IH]; intros i Hi Hv; [done|].
  destruct i as [|i]; simpl in *.
  - injection Hi as ->. rewrite filter_cons_True by done.
    by rewrite filter_cons_False by (intros H; by apply H).
  - rewrite !filter_cons. destruct (decide (x ≠ 0)); simpl;
      rewrite IH by done; done.
Qed.

Lemma discs_set (b : board) (r c v : Z) :
  get b r c = Some 0 → v ≠ 0 → discs (set b r c v) = S (discs b).
Proof.
  unfold get, set, discs.
  destruct ((0 <=? r) && (0 <=? c)); [|done].
  generalize (Z.to_nat r) as i. generalize (Z.to_nat c) as j. intros j i.
  revert i. induction b as [|rw b IH]; intros i Hget Hv; [done|].
  destruct i as [|i]; simpl in *.
  - by rewrite filter_insert_disc.
  - pose proof (IH i Hget Hv) as IH'. unfold alter in IH'. rewrite IH'. lia.
Qed.

(** X4. A drop of a disc other than [0] that succeeds adds exactly one disc
    to the board and a drop that fails adds none; a 6x7 board holds at most
    42 discs, so from the empty board no more than 42 drops succeed. *)
Theorem dropDisc_counts (b : board) (c s : Z) :
  s ≠ 0 → sized b →
  discs (dropDisc b c s).1
  = (if success (dropDisc b c s).2 then S (discs b) else discs b)
  ∧ (discs (dropDisc b c s).1 ≤ 42)%nat
  ∧ discs createBoard = 0%nat.
Proof.
  intros Hs Hsz. split; [|split; [|done]].
  - pose proof (getLowestEmptyRow_spec b c) as Hsp. simpl in Hsp.
    unfold dropDisc.
    destruct Hsp as [[Hm _]|(_ & Hr & H0 & _)].
    + rewrite Hm. done.
    + destruct (getLowestEmptyRow b c =? -1) eqn:He; [lia|]. simpl.
      by apply discs_set.
  - pose proof (sized_dropDisc b c s Hsz) as [Hlen Hrows].
    revert Hlen Hrows. generalize (dropDisc b c s).1 as b'.
    intros b' Hlen Hrows.
    assert (Hsum : ∀ rows : board, Forall (λ r, length r = 7%nat) rows →
              (discs rows ≤ 7 * length rows)%nat).
    { unfold discs. induction 1 as [|rw rows Hrw _ IH]; simpl; [lia|].
      pose proof (length_filter (λ v : Z, v ≠ 0) rw). lia. }
    specialize (Hsum b' Hrows). lia.
Qed.

Lemma dropDisc_counts_witness :
  discs (dropDisc createBoard 3 1).1
  = (if success (dropDisc createBoard 3 1).2
     then S (discs createBoard) else discs createBoard).
Proof.
  apply (dropDisc_counts createBoard 3 1); [lia|apply sized_createBoard].
Defined.

End BoardMore.

(** ** More about win detection *)

Module WinFacts.
Import Board Spec More BoardFacts AIFacts SearchFacts.

Local Ltac cells :=
  let i := fresh "i" in let Hi := fresh "Hi" in
  intros i Hi;
  assert (i = 1 ∨ i = 2 ∨ i = 3) as [-> | [-> | ->]] by lia;
  first [by apply cellIs_hit | exfalso; lia].

Local Ltac ran k :=
  exists k; unfold ahead, behind; simpl;
  split; [lia|split;
    [f_equal; try lia; rewrite <- ?app_assoc, ?app_nil_r; reflexivity
    |split; [cells|first [lia|intros _; apply cellIs_miss; auto]]]].

(** The forward loop: after [k] cells of [p] it has appended them to the
    line and stops at a cell that is not of [p], or after three. *)
Lemma forward_run (b : board) (r c dr dc p : Z) (ln : list (Z * Z)) (n : Z) :
  ∃ k, 0 ≤ k ≤ 3
    ∧ forward b r c dr dc p [1; 2; 3] ln n = (ln ++ ahead r c dr dc k, n + k)
    ∧ (∀ i, 1 ≤ i ≤ k → cellIs b p (r + dr * i) (c + dc * i))
    ∧ (k < 3 → ¬ cellIs b p (r + dr * (k + 1)) (c + dc * (k + 1))).
Proof.
  simpl.
  destruct (outOfBounds (r + dr * 1) (c + dc * 1)) eqn:O1;
    [ran 0|].
  destruct (strictEq (get b (r + dr * 1) (c + dc * 1)) p) eqn:E1;
    [|ran 0].
  destruct (outOfBounds (r + dr * 2) (c + dc * 2)) eqn:O2; [ran 1|].
  destruct (strictEq (get b (r + dr * 2) (c + dc * 2)) p) eqn:E2; [|ran 1].
  destruct (outOfBounds (r + dr * 3) (c + dc * 3)) eqn:O3; [ran 2|].
  destruct (strictEq (get b (r + dr * 3) (c + dc * 3)) p) eqn:E3; [|ran 2].
  ran 3.
Qed.

(** The backward loop, likewise, in front of the line. *)
Lemma backward_run (b : board) (r c dr dc p : Z) (ln : list (Z * Z)) (n : Z) :
  ∃ k, 0 ≤ k ≤ 3
    ∧ backward b r c dr dc p [1; 2; 3] ln n
      = (behind r c dr dc k ++ ln, n + k)
    ∧ (∀ i, 1 ≤ i ≤ k → cellIs b p (r - dr * i) (c - dc * i))
    ∧ (k < 3 → ¬ cellIs b p (r - dr * (k + 1)) (c - dc * (k + 1))).
Proof.
  simpl.
  destruct (outOfBounds (r - dr * 1) (c - dc * 1)) eqn:O1; [ran 0|].
  destruct (strictEq (get b (r - dr * 1) (c - dc * 1)) p) eqn:E1; [|ran 0].
  destruct (outOfBounds (r - dr * 2) (c - dc * 2)) eqn:O2; [ran 1|].
  destruct (strictEq (get b (r - dr * 2) (c - dc * 2)) p) eqn:E2; [|ran 1].
  destruct (outOfBounds (r - dr * 3) (c - dc * 3)) eqn:O3; [ran 2|].
  destruct (strictEq (get b (r - dr * 3) (c - dc * 3)) p) eqn:E3; [|ran 2].
  ran 3.
Qed.

(** One direction of [checkWin], by the numbers [kf] and [kb] of cells of
    [p] that the two loops find; the backward loop only runs after fewer
    than three hits forward. *)
Lemma checkDirection_cases (b : board) (r c p dr dc : Z) :
  ∃ kf kb, 0 ≤ kf ≤ 3 ∧ 0 ≤ kb ≤ 3
    ∧ (∀ i, 1 ≤ i ≤ kf → cellIs b p (r + dr * i) (c + dc * i))
    ∧ (kf < 3 → ¬ cellIs b p (r + dr * (kf + 1)) (c + dc * (kf + 1)))
    ∧ (∀ i, 1 ≤ i ≤ kb → cellIs b p (r - dr * i) (c - dc * i))
    ∧ (kf < 3 → kb < 3 →
       ¬ cellIs b p (r - dr * (kb + 1)) (c - dc * (kb + 1)))
    ∧ checkDirection b r c p (dr, dc)
      = if 3 <=? kf + kb
        then Some {| win := true;
                     line := take 4 (behind r c dr dc kb
                                     ++ (r, c) :: ahead r c dr dc kf) |}
        else None.
Proof.
  unfold checkDirection.
  change (seqZ 1 (WIN_LENGTH - 1)) with [1; 2; 3]. unfold WIN_LENGTH.
  destruct (forward_run b r c dr dc p [(r, c)] 1)
    as (kf & Hkf & -> & Hf & Hfstop).
  destruct (1 + kf <? 4) eqn:Hlt.
  - destruct (backward_run b r c dr dc p ([(r, c)] ++ ahead r c dr dc kf)
                (1 + kf)) as (kb & Hkb & -> & Hb & Hbstop).
    exists kf, kb. do 6 (split; [first [done|auto]|]).
    rewrite Z.geb_leb.
    destruct (Z.leb_spec 4 (1 + kf + kb)); destruct (Z.leb_spec 3 (kf + kb));
      try lia; done.
  - exists kf, 0. do 6 (split; [first [done|lia|intros; lia]|]).
    rewrite Z.geb_leb.
    destruct (Z.leb_spec 4 (1 + kf)); destruct (Z.leb_spec 3 (kf + 0));
      try lia. rewrite app_nil_l. done.
Qed.

(** With three hits in all, the first four cells of the assembled line are
    four in a row starting [kb] cells behind the start cell. *)
Lemma assembled_line (r c dr dc kf kb : Z) :
  0 ≤ kf ≤ 3 → 0 ≤ kb ≤ 3 → 3 ≤ kf + kb →
  take 4 (behind r c dr dc kb ++ (r, c) :: ahead r c dr dc kf)
  = line4 (r - dr * kb) (c - dc * kb) dr dc.
Proof.
  intros Hkf Hkb Hsum.
  assert (kf = 0 ∨ kf = 1 ∨ kf = 2 ∨ kf = 3) as [->|[->|[->| ->]]] by lia;
    assert (kb = 0 ∨ kb = 1 ∨ kb = 2 ∨ kb = 3) as [->|[->|[->| ->]]] by lia;
    try lia; unfold ahead, behind, line4; simpl;
    repeat (f_equal; try lia).
Qed.

Lemma checkWin_direction (b : board) (r c p : Z) :
  (win (checkWin b r c p) = true
   → ∃ d, d ∈ directions
          ∧ checkDirection b r c p d = Some (checkWin b r c p))
  ∧ (win (checkWin b r c p) = false
     → line (checkWin b r c p) = []
       ∧ ∀ d, d ∈ directions → checkDirection b r c p d = None).
Proof.
  unfold checkWin.
  destruct (firstSome (checkDirection b r c p) directions) as [res|] eqn:Hf.
  - pose proof Hf as Hf'.
    apply firstSome_Some in Hf as (pre & d & post & Hd & Hres & _).
    split.
    + intros _. exists d. split; [|done]. rewrite Hd.
      apply elem_of_app. right. apply elem_of_cons. auto.
    + apply checkDirection_win in Hres. congruence.
  - split; [done|]. intros _. split; [done|]. by apply firstSome_None.
Qed.

(** X5. When [checkWin] reports a win its line is exactly four cells in a
    row along one of the four directions, the start cell is one of them,
    and the other three are cells of the grid holding the player; when it
    reports none the line is empty. *)
Theorem checkWin_line (b : board) (r c p : Z) :
  (win (checkWin b r c p) = false ∧ line (checkWin b r c p) = [])
  ∨ (win (checkWin b r c p) = true
     ∧ ∃ dr dc j, (dr, dc) ∈ directions ∧ 0 ≤ j ≤ 3
         ∧ line (checkWin b r c p) = line4 (r - dr * j) (c - dc * j) dr dc
         ∧ (r, c) ∈ line (checkWin b r c p)
         ∧ ∀ i, 0 ≤ i < 4 → i ≠ j →
             cellIs b p (r + dr * (i - j)) (c + dc * (i - j))).
Proof.
  destruct (checkWin_direction b r c p) as [Hwin Hnone].
  destruct (win (checkWin b r c p)) eqn:Hw.
  - right. split; [done|].
    destruct (Hwin eq_refl) as ([dr dc] & Hd & Hres).
    destruct (checkDirection_cases b r c p dr dc)
      as (kf & kb & Hkf & Hkb & Hf & _ & Hb & _ & Hcd).
    rewrite Hcd in Hres. destruct (3 <=? kf + kb) eqn:Hle; [|done].
    injection Hres as Hres. rewrite <- Hres. simpl.
    rewrite assembled_line by lia.
    exists dr, dc, kb. repeat (split; [done|]). split.
    + unfold line4.
      assert (kb = 0 ∨ kb = 1 ∨ kb = 2 ∨ kb = 3) as [->|[->|[->| ->]]]
        by lia; rewrite !elem_of_cons.
      * left. f_equal; lia.
      * right. left. f_equal; lia.
      * right. right. left. f_equal; lia.
      * right. right. right. left. f_equal; lia.
    + intros i Hi Hne.
      destruct (Z.lt_trichotomy i kb) as [Hlt|[->|Hgt]]; [|done|].
      * replace (r + dr * (i - kb)) with (r - dr * (kb - i)) by ring.
        replace (c + dc * (i - kb)) with (c - dc * (kb - i)) by ring.
        apply Hb. lia.
      * apply Hf. lia.
  - left. split; [done|]. by apply Hnone.
Qed.

(** [checkWin] at a cell of [p] against the fours through that cell. *)
Lemma checkWin_onFour (b : board) (r c p : Z) :
  cellIs b p r c →
  (win (checkWin b r c p) = true ↔ onFour b p r c).
Proof.
  intros Hstart. destruct (checkWin_direction b r c p) as [Hwin Hnone].
  split.
  - intros Hw. destruct (Hwin Hw) as ([dr dc] & Hd & Hres).
    destruct (checkDirection_cases b r c p dr dc)
      as (kf & kb & Hkf & Hkb & Hf & _ & Hb & _ & Hcd).
    rewrite Hcd in Hres. destruct (3 <=? kf + kb) eqn:Hle; [|done].
    exists dr, dc, kb. repeat (split; [done|]). intros i Hi.
    destruct (Z.lt_trichotomy i kb) as [Hlt|[->|Hgt]].
    + replace (r + dr * (i - kb)) with (r - dr * (kb - i)) by ring.
      replace (c + dc * (i - kb)) with (c - dc * (kb - i)) by ring.
      apply Hb. lia.
    + replace (r + dr * (kb - kb)) with r by ring.
      replace (c + dc * (kb - kb)) with c by ring. done.
    + apply Hf. lia.
  - intros (dr & dc & j & Hd & Hj & Hrow).
    destruct (win (checkWin b r c p)) eqn:Hw; [done|]. exfalso.
    destruct (Hnone eq_refl) as [_ Hall]. specialize (Hall _ Hd).
    destruct (checkDirection_cases b r c p dr dc)
      as (kf & kb & Hkf & Hkb & _ & Hfstop & _ & Hbstop & Hcd).
    rewrite Hcd in Hall. destruct (3 <=? kf + kb) eqn:Hle; [done|].
    assert (Hfwd : 3 - j ≤ kf).
    { destruct (Z_le_gt_dec (3 - j) kf) as [|Hgt]; [done|]. exfalso.
      apply Hfstop; [lia|]. specialize (Hrow (kf + 1 + j)).
      replace (kf + 1 + j - j) with (kf + 1) in Hrow by ring.
      apply Hrow. lia. }
    assert (Hbwd : j ≤ kb).
    { destruct (Z_le_gt_dec j kb) as [|Hgt]; [done|]. exfalso.
      apply Hbstop; [lia|lia|]. specialize (Hrow (j - (kb + 1))).
      replace (r + dr * (j - (kb + 1) - j)) with (r - dr * (kb + 1))
        in Hrow by ring.
      replace (c + dc * (j - (kb + 1) - j)) with (c - dc * (kb + 1))
        in Hrow by ring.
      apply Hrow. lia. }
    lia.
Qed.



End WinFacts.

(** ** More about the evaluator and the AI tiers *)

Module AIMore.
Import Board AI Spec More BoardFacts AIFacts SearchFacts SessionFacts
  BoardMore.

(** [minimax] at a depth above 0, with its two loops by name. *)
Lemma minimax_step (b : board) (d : nat) (isMaximizing : bool)
    (aiPlayer opponent : Z) (alpha beta : num) :
  minimax b (S d) isMaximizing aiPlayer opponent alpha beta
  = match winScan b aiPlayer opponent
            (10000 + Z.of_nat (S d)) (-10000 - Z.of_nat (S d)) with
    | Some v => Fin v
    | None =>
        if (length (getAvailableMoves b) =? 0)%nat then Fin 0
        else if isMaximizing
        then maxLoop (λ alpha, child b d aiPlayer false aiPlayer opponent
                                 alpha beta)
               beta (getAvailableMoves b) NegInf alpha
        else minLoop (λ beta, child b d opponent true aiPlayer opponent
                                alpha beta)
               alpha (getAvailableMoves b) PosInf beta
    end.
Proof.
  cbn [minimax].
  destruct (winScan b aiPlayer opponent _ _); [done|].
  destruct (length (getAvailableMoves b) =? 0)%nat; [done|].
  generalize (getAvailableMoves b) as cols. intros cols.
  destruct isMaximizing.
  - generalize NegInf as maxScore. revert alpha.
    induction cols as [|col cols IH]; intros alpha maxScore; [done|].
    cbn [maxLoop]. unfold child at 1.
    destruct (dropDisc (cloneBoard b) col aiPlayer) as [testBoard result].
    destruct (negb (success result)); [apply IH|].
    destruct (numLe beta _); [done|]. apply IH.
  - generalize PosInf as minScore. revert beta.
    induction cols as [|col cols IH]; intros beta minScore; [done|].
    cbn [minLoop]. unfold child at 1.
    destruct (dropDisc (cloneBoard b) col opponent) as [testBoard result].
    destruct (negb (success result)); [apply IH|].
    destruct (numLe _ alpha); [done|]. apply IH.
Qed.

Lemma foldl_drift {A : Type} (f : Z → A → Z) (k : Z) (l : list A) (s : Z) :
  (∀ s x, s - k ≤ f s x ≤ s + k) →
  s - k * Z.of_nat (length l) ≤ foldl f s l ≤ s + k * Z.of_nat (length l).
Proof.
  intros Hf. revert s. induction l as [|x l IH]; intros s; simpl length.
  - simpl. lia.
  - cbn [foldl]. specialize (IH (f s x)). specialize (Hf s x).
    rewrite Nat2Z.inj_succ, Z.mul_succ_r. lia.
Qed.

Lemma centerTerm_drift (b : board) (p o s row : Z) :
  s - 3 ≤ centerTerm b p o s row ≤ s + 3.
Proof.
  unfold centerTerm.
  repeat match goal with |- context [if ?x then _ else _] => destruct x end;
    lia.
Qed.

Lemma pairTerm_drift (b : board) (p o dr dc row s col : Z) :
  s - 2 ≤ pairTerm b p o dr dc row s col ≤ s + 2.
Proof.
  unfold pairTerm.
  repeat match goal with |- context [if ?x then _ else _] => destruct x end;
    lia.
Qed.

Lemma pairLoop_drift (b : board) (p o dr dc : Z) (rows cols : list Z)
    (s : Z) :
  s - 2 * Z.of_nat (length cols) * Z.of_nat (length rows)
  ≤ pairLoop b p o dr dc rows cols s
  ≤ s + 2 * Z.of_nat (length cols) * Z.of_nat (length rows).
Proof.
  unfold pairLoop. apply foldl_drift. intros s' row.
  apply (foldl_drift (pairTerm b p o dr dc row) 2). intros s'' col.
  apply pairTerm_drift.
Qed.

Lemma heuristic_range (b : board) (p o : Z) : -280 ≤ heuristic b p o ≤ 280.
Proof.
  unfold heuristic.
  pose proof (foldl_drift (centerTerm b p o) 3 (seqZ 0 ROWS) 0
                (centerTerm_drift b p o)) as H0.
  set (s0 := foldl (centerTerm b p o) 0 (seqZ 0 ROWS)) in *.
  pose proof (pairLoop_drift b p o 0 1 (seqZ 0 ROWS) (seqZ 0 (COLS - 1)) s0)
    as H1.
  set (s1 := pairLoop b p o 0 1 _ _ s0) in *.
  pose proof (pairLoop_drift b p o 1 0 (seqZ 0 (ROWS - 1)) (seqZ 0 COLS) s1)
    as H2.
  set (s2 := pairLoop b p o 1 0 _ _ s1) in *.
  pose proof (pairLoop_drift b p o 1 1 (seqZ 0 (ROWS - 1))
                (seqZ 0 (COLS - 1)) s2) as H3.
  set (s3 := pairLoop b p o 1 1 _ _ s2) in *.
  pose proof (pairLoop_drift b p o 1 (-1) (seqZ 0 (ROWS - 1))
                (seqZ 1 (COLS - 1)) s3) as H4.
  change (length (seqZ 0 ROWS)) with 6%nat in *.
  change (length (seqZ 0 (ROWS - 1))) with 5%nat in *.
  change (length (seqZ 0 COLS)) with 7%nat in *.
  change (length (seqZ 0 (COLS - 1))) with 6%nat in *.
  change (length (seqZ 1 (COLS - 1))) with 6%nat in *.
  lia.
Qed.

(** X7. [evaluateBoard] is 10000 when only the player has four in a row,
    -10000 when only the opponent has, and between -280 and 280 when
    neither has: a heuristic score is never taken for a win or a loss. *)
Theorem evaluateBoard_range (b : board) (p : Z) :
  (fourInRow b p → ¬ fourInRow b (opponentOf p) → evaluateBoard b p = 10000)
  ∧ (fourInRow b (opponentOf p) → ¬ fourInRow b p →
     evaluateBoard b p = -10000)
  ∧ (¬ fourInRow b p → ¬ fourInRow b (opponentOf p) →
     -280 ≤ evaluateBoard b p ≤ 280)
  ∧ -10000 ≤ evaluateBoard b p ≤ 10000.
Proof.
  unfold evaluateBoard.
  destruct (winScan_only b p (opponentOf p) 10000 (-10000))
    as (Hp & Ho & Hn).
  pose proof (heuristic_range b p (opponentOf p)) as Hh.
  split; [|split; [|split]].
  - intros H1 H2. by rewrite (Hp H1 H2).
  - intros H1 H2. by rewrite (Ho H1 H2).
  - intros H1 H2. by rewrite (Hn H1 H2).
  - destruct (winScan b p (opponentOf p) 10000 (-10000)) as [v|] eqn:Hs;
      [|lia].
    apply winScan_Some in Hs as [[-> _]|[-> _]]; lia.
Qed.

Lemma evaluateBoard_range_witness :
  evaluateBoard (dropDisc scenario1 3 1).1 2 = -10000
  ∧ -280 ≤ evaluateBoard drawnBoard 2 ≤ 280.
Proof.
  split.
  - apply (proj1 (proj2 (evaluateBoard_range (dropDisc scenario1 3 1).1 2))).
    + apply anchored_fourInRow. exists 5, 3. vm_compute.
      repeat split; congruence.
    + apply not_fourInRow_scan. vm_compute. reflexivity.
  - apply (proj1 (proj2 (proj2 (evaluateBoard_range drawnBoard 2)))).
    + apply not_fourInRow_scan. vm_compute. reflexivity.
    + apply not_fourInRow_scan. vm_compute. reflexivity.
Defined.

Lemma mathMax_within (lo hi : Z) (m x : num) :
  m = NegInf ∨ within lo hi m → within lo hi x →
  within lo hi (mathMax m x).
Proof.
  intros [->|(w & -> & Hw)] (v & -> & Hv); simpl.
  - exists v. done.
  - exists (Z.max w v). split; [done|]. lia.
Qed.

Lemma mathMin_within (lo hi : Z) (m x : num) :
  m = PosInf ∨ within lo hi m → within lo hi x →
  within lo hi (mathMin m x).
Proof.
  intros [->|(w & -> & Hw)] (v & -> & Hv); simpl.
  - exists v. done.
  - exists (Z.min w v). split; [done|]. lia.
Qed.

(** A loop whose calls all return scores between [lo] and [hi] returns
    such a score, provided it makes at least one call. *)
Lemma maxLoop_within (call : num → Z → option num) (beta : num)
    (cols : list Z) (maxScore alpha : num) (lo hi : Z) :
  (∀ a col, col ∈ cols → ∃ x, call a col = Some x ∧ within lo hi x) →
  maxScore = NegInf ∨ within lo hi maxScore →
  cols ≠ [] ∨ within lo hi maxScore →
  within lo hi (maxLoop call beta cols maxScore alpha).
Proof.
  revert maxScore alpha.
  induction cols as [|col cols IH]; intros maxScore alpha Hcall Hm Hne.
  - simpl. by destruct Hne.
  - cbn [maxLoop].
    destruct (Hcall alpha col) as (x & -> & Hx); [apply elem_of_cons; auto|].
    pose proof (mathMax_within lo hi maxScore x Hm Hx) as Hnew.
    destruct (numLe beta (mathMax alpha x)); [done|].
    apply IH; auto. intros a c Hc. apply Hcall. apply elem_of_cons. auto.
Qed.

Lemma minLoop_within (call : num → Z → option num) (alpha : num)
    (cols : list Z) (minScore beta : num) (lo hi : Z) :
  (∀ a col, col ∈ cols → ∃ x, call a col = Some x ∧ within lo hi x) →
  minScore = PosInf ∨ within lo hi minScore →
  cols ≠ [] ∨ within lo hi minScore →
  within lo hi (minLoop call alpha cols minScore beta).
Proof.
  revert minScore beta.
  induction cols as [|col cols IH]; intros minScore beta Hcall Hm Hne.
  - simpl. by destruct Hne.
  - cbn [minLoop].
    destruct (Hcall beta col) as (x & -> & Hx); [apply elem_of_cons; auto|].
    pose proof (mathMin_within lo hi minScore x Hm Hx) as Hnew.
    destruct (numLe (mathMin beta x) alpha); [done|].
    apply IH; auto. intros a c Hc. apply Hcall. apply elem_of_cons. auto.
Qed.

(** On a 6x7 board the simulated drop in an available column succeeds. *)
Lemma child_available (b : board) (d : nat) (mover : Z) (nextMax : bool)
    (aiPlayer opponent : Z) (alpha beta : num) (col : Z) :
  sized b → col ∈ getAvailableMoves b →
  sized (dropDisc b col mover).1
  ∧ success (dropDisc b col mover).2 = true
  ∧ child b d mover nextMax aiPlayer opponent alpha beta col
    = Some (minimax (dropDisc b col mover).1 d nextMax aiPlayer opponent
              alpha beta).
Proof.
  intros Hsz Hin. apply elem_of_getAvailableMoves in Hin as [_ Hfull].
  pose proof (dropDisc_after_guard b col mover Hsz Hfull) as Hok.
  split; [by apply sized_dropDisc|]. split; [done|].
  unfold child. rewrite cloneBoard_id.
  destruct (dropDisc b col mover) as [testBoard result]. simpl in *.
  by rewrite Hok.
Qed.

Lemma within_weaken (lo hi lo' hi' : Z) (x : num) :
  lo' ≤ lo → hi ≤ hi' → within lo hi x → within lo' hi' x.
Proof. intros Hl Hh (v & -> & Hv). exists v. split; [done|]. lia. Qed.

Lemma available_nonempty (b : board) :
  (length (getAvailableMoves b) =? 0)%nat = false → getAvailableMoves b ≠ [].
Proof. by destruct (getAvailableMoves b). Qed.

Lemma minimax_range (b : board) (depth : nat) (isMaximizing : bool)
    (aiPlayer opponent : Z) (alpha beta : num) :
  sized b →
  within (-10000 - Z.of_nat depth) (10000 + Z.of_nat depth)
    (minimax b depth isMaximizing aiPlayer opponent alpha beta).
Proof.
  revert b isMaximizing alpha beta.
  induction depth as [|d IH]; intros b isMaximizing alpha beta Hsz.
  - simpl. exists (evaluateBoard b aiPlayer). split; [done|].
    unfold evaluateBoard.
    pose proof (heuristic_range b aiPlayer (opponentOf aiPlayer)) as Hh.
    destruct (winScan b aiPlayer (opponentOf aiPlayer) 10000 (-10000))
      as [v|] eqn:Hs; [|lia].
    apply winScan_Some in Hs as [[-> _]|[-> _]]; lia.
  - rewrite minimax_step.
    destruct (winScan b aiPlayer opponent _ _) as [v|] eqn:Hs.
    { exists v. split; [done|].
      apply winScan_Some in Hs as [[-> _]|[-> _]]; lia. }
    destruct (length (getAvailableMoves b) =? 0)%nat eqn:Hlen.
    { exists 0. split; [done|]. lia. }
    apply available_nonempty in Hlen.
    apply (within_weaken (-10000 - Z.of_nat d) (10000 + Z.of_nat d));
      [lia|lia|].
    destruct isMaximizing.
    + apply maxLoop_within; auto. intros a col Hcol.
      destruct (child_available b d aiPlayer false aiPlayer opponent a beta
                  col Hsz Hcol) as (Hsz' & _ & ->).
      eexists. split; [done|]. by apply IH.
    + apply minLoop_within; auto. intros a col Hcol.
      destruct (child_available b d opponent true aiPlayer opponent alpha a
                  col Hsz Hcol) as (Hsz' & _ & ->).
      eexists. split; [done|]. by apply IH.
Qed.

(** X8. On a 6x7 board [minimax] returns an integer between
    [-10000 - depth] and [10000 + depth], never [-Infinity] or [Infinity],
    whatever window and players it is given; so every score that
    [getHardMove] compares for an available column is such an integer. *)
Theorem minimax_within (b : board) (depth : nat) (isMaximizing : bool)
    (aiPlayer opponent : Z) (alpha beta : num) :
  sized b →
  within (-10000 - Z.of_nat depth) (10000 + Z.of_nat depth)
    (minimax b depth isMaximizing aiPlayer opponent alpha beta)
  ∧ ∀ col, col ∈ getAvailableMoves b →
      within (-10000 - Z.of_nat (depth - 1)) (10000 + Z.of_nat (depth - 1))
        (hardScore b aiPlayer depth col).
Proof.
  intros Hsz. split; [by apply minimax_range|].
  intros col Hcol. unfold hardScore. rewrite cloneBoard_id.
  apply minimax_range. by apply sized_dropDisc.
Qed.

Lemma minimax_within_witness :
  within (-10000 - Z.of_nat 4) (10000 + Z.of_nat 4)
    (minimax blockBoard 4 false 2 1 NegInf PosInf).
Proof.
  apply (proj1 (minimax_within blockBoard 4 false 2 1 NegInf PosInf
                  (sized_play _ _ sized_createBoard))).
Defined.

Lemma numLe_refl (x : num) : numLe x x = true.
Proof. destruct x; simpl; try done. apply Z.leb_refl. Qed.

Lemma numLe_trans (x y z : num) :
  numLe x y = true → numLe y z = true → numLe x z = true.
Proof.
  destruct x, y, z; simpl; try done. intros H1 H2.
  apply Z.leb_le in H1, H2. apply Z.leb_le. lia.
Qed.

Lemma numGt_le (x y : num) : numGt x y = false → numLe x y = true.
Proof. unfold numGt. by destruct (numLe x y). Qed.

Lemma numGt_total (x y : num) : numGt x y = true → numLe y x = true.
Proof.
  unfold numGt. destruct x, y; simpl; try done. intros H.
  apply negb_true_iff, Z.leb_gt in H. apply Z.leb_le. lia.
Qed.

Lemma numGt_le_trans (x y z : num) :
  numGt x y = true → numLe z y = true → numGt x z = true.
Proof.
  unfold numGt. destruct x, y, z; simpl; try done. intros H1 H2.
  apply negb_true_iff, Z.leb_gt in H1. apply Z.leb_le in H2.
  apply negb_true_iff, Z.leb_gt. lia.
Qed.

Lemma hardStep_score (b : board) (aiPlayer : Z) (depth : nat)
    (best : num * option Z) (col : Z) :
  success (dropDisc b col aiPlayer).2 = true →
  hardStep b aiPlayer (opponentOf aiPlayer) depth best col
  = if numGt (hardScore b aiPlayer depth col) best.1
    then (hardScore b aiPlayer depth col, Some col) else best.
Proof.
  intros Hok. unfold hardStep, hardScore. destruct best as [bs bm].
  rewrite cloneBoard_id.
  destruct (dropDisc b col aiPlayer) as [testBoard result]. simpl in *.
  by rewrite Hok.
Qed.

(** The loop of [getHardMove] from the state [(bs, bm)]: either no score
    beats [bs] and the state stays, or the state ends at the first column
    of the highest score. *)
Lemma hardFold (b : board) (aiPlayer : Z) (depth : nat) (l : list Z)
    (bs : num) (bm : option Z) :
  (∀ c, c ∈ l → success (dropDisc b c aiPlayer).2 = true) →
  let final := foldl (hardStep b aiPlayer (opponentOf aiPlayer) depth)
                 (bs, bm) l in
  (final = (bs, bm)
   ∧ ∀ c, c ∈ l → numLe (hardScore b aiPlayer depth c) bs = true)
  ∨ (∃ pre col post, l = pre ++ col :: post
       ∧ final = (hardScore b aiPlayer depth col, Some col)
       ∧ numGt (hardScore b aiPlayer depth col) bs = true
       ∧ (∀ c, c ∈ pre →
            numGt (hardScore b aiPlayer depth col)
              (hardScore b aiPlayer depth c) = true)
       ∧ ∀ c, c ∈ post →
            numLe (hardScore b aiPlayer depth c)
              (hardScore b aiPlayer depth col) = true).
Proof.
  revert bs bm. induction l as [|x l IH]; intros bs bm Hok; cbn [foldl].
  { left. split; [done|]. intros c Hc. by apply elem_of_nil in Hc. }
  rewrite hardStep_score by (apply Hok, elem_of_cons; auto). cbn [fst].
  assert (Hok' : ∀ c, c ∈ l → success (dropDisc b c aiPlayer).2 = true).
  { intros c Hc. apply Hok, elem_of_cons. auto. }
  set (sx := hardScore b aiPlayer depth x).
  destruct (numGt sx bs) eqn:Hgt.
  - destruct (IH sx (Some x) Hok') as [[Hfin Hall]|Hex].
    + right. exists [], x, l. split; [done|]. split; [done|].
      split; [done|]. split; [|done]. intros c Hc.
      by apply elem_of_nil in Hc.
    + destruct Hex as (pre & col & post & -> & Hfin & Hbeat & Hpre & Hpost).
      right. exists (x :: pre), col, post. split; [done|]. split; [done|].
      split.
      { eapply numGt_le_trans; [exact Hbeat|]. by apply numGt_total. }
      split; [|done]. intros c Hc. apply elem_of_cons in Hc as [->|Hc]; auto.
  - apply numGt_le in Hgt.
    destruct (IH bs bm Hok') as [[Hfin Hall]|Hex].
    + left. split; [done|]. intros c Hc.
      apply elem_of_cons in Hc as [->|Hc]; auto.
    + destruct Hex as (pre & col & post & -> & Hfin & Hbeat & Hpre & Hpost).
      right. exists (x :: pre), col, post. split; [done|]. split; [done|].
      split; [done|]. split; [|done]. intros c Hc.
      apply elem_of_cons in Hc as [->|Hc]; auto.
      eapply numGt_le_trans; [exact Hbeat|done].
Qed.

(** The choice of [getHardMove] on a 6x7 board with an available column:
    the first column of the highest score. *)
Lemma getHardMove_best (b : board) (aiPlayer : Z) (depth : nat) :
  sized b → getAvailableMoves b ≠ [] →
  ∃ pre col post, getAvailableMoves b = pre ++ col :: post
    ∧ getHardMove b (getAvailableMoves b) aiPlayer depth = Some col
    ∧ (∀ c, c ∈ pre →
         numGt (hardScore b aiPlayer depth col)
           (hardScore b aiPlayer depth c) = true)
    ∧ ∀ c, c ∈ getAvailableMoves b →
         numLe (hardScore b aiPlayer depth c)
           (hardScore b aiPlayer depth col) = true.
Proof.
  intros Hsz Hne. unfold getHardMove.
  assert (Hok : ∀ c, c ∈ getAvailableMoves b →
                     success (dropDisc b c aiPlayer).2 = true).
  { intros c Hc. apply elem_of_getAvailableMoves in Hc as [_ Hfull].
    by apply dropDisc_after_guard. }
  destruct (hardFold b aiPlayer depth (getAvailableMoves b) NegInf
              (index (getAvailableMoves b) 0) Hok) as [[_ Hall]|Hex].
  - exfalso. destruct (getAvailableMoves b) as [|x l] eqn:Hm; [done|].
    assert (Hx : x ∈ x :: l) by (apply elem_of_cons; auto).
    specialize (Hall x Hx). rewrite <- Hm in Hx.
    destruct (minimax_range (dropDisc b x aiPlayer).1 (depth - 1) false
                aiPlayer (opponentOf aiPlayer) NegInf PosInf)
      as (v & Hv & _); [by apply sized_dropDisc|].
    unfold hardScore in Hall. rewrite cloneBoard_id, Hv in Hall. done.
  - destruct Hex as (pre & col & post & Hl & Hfin & _ & Hpre & Hpost).
    exists pre, col, post. split; [done|]. rewrite Hfin. split; [done|].
    split; [done|]. intros c Hc. rewrite Hl in Hc.
    apply elem_of_app in Hc as [Hc|Hc].
    + apply numGt_total. by apply Hpre.
    + apply elem_of_cons in Hc as [->|Hc]; [apply numLe_refl|by apply Hpost].
Qed.

(** X9. On a 6x7 board with an available column the hard tier returns a
    column of the highest [minimax] score, and of those the first: every
    available column before it has a strictly lower score. *)
Theorem getAIMove_hard_best (b : board) (aiPlayer : Z) (rnd : Q) :
  sized b → getAvailableMoves b ≠ [] →
  ∃ pre col post, getAvailableMoves b = pre ++ col :: post
    ∧ getAIMove b "hard" aiPlayer rnd = Some col
    ∧ (∀ c, c ∈ pre →
         numGt (hardScore b aiPlayer defaultDepth col)
           (hardScore b aiPlayer defaultDepth c) = true)
    ∧ ∀ c, c ∈ getAvailableMoves b →
         numLe (hardScore b aiPlayer defaultDepth c)
           (hardScore b aiPlayer defaultDepth col) = true.
Proof.
  intros Hsz Hne.
  destruct (getHardMove_best b aiPlayer defaultDepth Hsz Hne)
    as (pre & col & post & Hl & Hmove & Hpre & Hall).
  exists pre, col, post. split; [done|]. split; [|done].
  unfold getAIMove.
  destruct (length (getAvailableMoves b) =? 0)%nat eqn:Hlen.
  { by apply length_zero_nil in Hlen. }
  done.
Qed.

Lemma getAIMove_hard_best_witness :
  ∃ pre col post, getAvailableMoves blockBoard = pre ++ col :: post
    ∧ getAIMove blockBoard "hard" 2 (1 # 2) = Some col
    ∧ (∀ c, c ∈ pre →
         numGt (hardScore blockBoard 2 defaultDepth col)
           (hardScore blockBoard 2 defaultDepth c) = true)
    ∧ ∀ c, c ∈ getAvailableMoves blockBoard →
         numLe (hardScore blockBoard 2 defaultDepth c)
           (hardScore blockBoard 2 defaultDepth col) = true.
Proof.
  apply (getAIMove_hard_best blockBoard 2 (1 # 2)).
  - apply sized_play, sized_createBoard.
  - vm_compute. discriminate.
Defined.

(** A simulated drop of [mover] makes no four in a row for another
    player. *)
Lemma drop_keeps_no_four (b : board) (c mover q : Z) :
  mover ≠ q → ¬ fourInRow b q → ¬ fourInRow (dropDisc b c mover).1 q.
Proof.
  intros Hne Hno Hfour. apply Hno.
  destruct (success (dropDisc b c mover).2) eqn:Hok.
  - destruct (dropDisc_landing b c mover Hok)
      as (_ & _ & _ & _ & Hnew & Hold).
    destruct Hfour as (r0 & c0 & dr & dc & Hd & Hrow).
    exists r0, c0, dr, dc. split; [done|]. intros i Hi.
    destruct (Hrow i Hi) as [Hg Hget]. split; [done|].
    destruct (decide ((r0 + dr * i, c0 + dc * i)
                      = (row (dropDisc b c mover).2, c))) as [Heq|Hneq].
    + injection Heq as Hr Hc. rewrite Hr, Hc, Hnew in Hget. congruence.
    + by rewrite <- Hold.
  - by rewrite (dropDisc_failure b c mover Hok) in Hfour.
Qed.

Lemma opponentOf_ne (p : Z) : opponentOf p ≠ p.
Proof. unfold opponentOf. destruct (p =? 1) eqn:H; lia. Qed.

Lemma fourInRow_dec (b : board) (p : Z) : fourInRow b p ∨ ¬ fourInRow b p.
Proof.
  destruct (winScan b p p 0 0) as [v|] eqn:Hs.
  - left. apply anchored_fourInRow.
    by apply winScan_Some in Hs as [[_ ?]|[_ ?]].
  - right. by apply not_fourInRow_scan.
Qed.

(** [minimax] on a position that one player only has won. *)
Lemma minimax_won (b : board) (d : nat) (isMax : bool) (ai : Z)
    (alpha beta : num) :
  fourInRow b ai → ¬ fourInRow b (opponentOf ai) →
  minimax b d isMax ai (opponentOf ai) alpha beta = Fin (10000 + Z.of_nat d).
Proof.
  intros H1 H2. destruct d as [|d].
  - simpl. unfold evaluateBoard.
    by rewrite (proj1 (winScan_only b ai (opponentOf ai) _ _) H1 H2).
  - rewrite minimax_step.
    by rewrite (proj1 (winScan_only b ai (opponentOf ai) _ _) H1 H2).
Qed.

Lemma minimax_lost (b : board) (d : nat) (isMax : bool) (ai : Z)
    (alpha beta : num) :
  fourInRow b (opponentOf ai) → ¬ fourInRow b ai →
  minimax b d isMax ai (opponentOf ai) alpha beta = Fin (-10000 - Z.of_nat d).
Proof.
  intros H1 H2. destruct d as [|d].
  - simpl. unfold evaluateBoard.
    by rewrite (proj1 (proj2 (winScan_only b ai (opponentOf ai) _ _)) H1 H2).
  - rewrite minimax_step.
    by rewrite (proj1 (proj2 (winScan_only b ai (opponentOf ai) _ _)) H1 H2).
Qed.

(** Only a position that the searching side has won gets the top score of
    its depth. *)
Lemma minimax_top (b : board) (d : nat) (isMax : bool) (ai : Z)
    (alpha beta : num) :
  sized b →
  minimax b d isMax ai (opponentOf ai) alpha beta = Fin (10000 + Z.of_nat d) →
  fourInRow b ai.
Proof.
  intros Hsz. rewrite <- anchored_fourInRow. destruct d as [|d].
  - simpl. unfold evaluateBoard. intros [= Hv].
    pose proof (heuristic_range b ai (opponentOf ai)) as Hh.
    destruct (winScan b ai (opponentOf ai) 10000 (-10000)) as [v|] eqn:Hs;
      [|lia].
    apply winScan_Some in Hs as [[_ Ha]|[-> _]]; [done|lia].
  - rewrite minimax_step.
    destruct (winScan b ai (opponentOf ai) _ _) as [v|] eqn:Hs.
    { intros [= Hv]. apply winScan_Some in Hs as [[_ Ha]|[-> _]]; [done|lia]. }
    destruct (length (getAvailableMoves b) =? 0)%nat eqn:Hlen.
    { intros [= Hv]; lia. }
    apply available_nonempty in Hlen. intros Hv. exfalso.
    assert (Hw : within (-10000 - Z.of_nat d) (10000 + Z.of_nat d)
                   (Fin (10000 + Z.of_nat (S d)))).
    { rewrite <- Hv. destruct isMax.
      - apply maxLoop_within; auto. intros a col Hcol.
        destruct (child_available b d ai false ai (opponentOf ai) a beta
                    col Hsz Hcol) as (Hsz' & _ & ->).
        eexists. split; [done|]. by apply minimax_range.
      - apply minLoop_within; auto. intros a col Hcol.
        destruct (child_available b d (opponentOf ai) true ai (opponentOf ai)
                    alpha a col Hsz Hcol) as (Hsz' & _ & ->).
        eexists. split; [done|]. by apply minimax_range. }
    destruct Hw as (v & [= <-] & Hv'). lia.
Qed.

(** X10. On a 6x7 board where the opponent has no four in a row: when some
    available column completes four in a row for the AI, the hard tier
    plays a column that does. *)
Theorem getAIMove_hard_wins (b : board) (aiPlayer : Z) (rnd : Q) :
  sized b → ¬ fourInRow b (opponentOf aiPlayer) →
  (∃ c, c ∈ getAvailableMoves b ∧ fourInRow (dropDisc b c aiPlayer).1 aiPlayer)
  →
  ∃ col, getAIMove b "hard" aiPlayer rnd = Some col
    ∧ col ∈ getAvailableMoves b
    ∧ fourInRow (dropDisc b col aiPlayer).1 aiPlayer.
Proof.
  intros Hsz Hopp (c & Hc & Hwin).
  assert (Hne : getAvailableMoves b ≠ []).
  { intros Hnil. rewrite Hnil in Hc. by apply elem_of_nil in Hc. }
  destruct (getHardMove_best b aiPlayer defaultDepth Hsz Hne)
    as (pre & col & post & Hl & Hmove & _ & Hall).
  assert (Hcol : col ∈ getAvailableMoves b).
  { rewrite Hl. apply elem_of_app. right. apply elem_of_cons. auto. }
  exists col. split; [|split; [done|]].
  { unfold getAIMove.
    destruct (length (getAvailableMoves b) =? 0)%nat eqn:Hlen; [|done].
    by apply length_zero_nil in Hlen. }
  specialize (Hall c Hc). unfold hardScore in Hall.
  rewrite !cloneBoard_id in Hall.
  rewrite (minimax_won (dropDisc b c aiPlayer).1) in Hall;
    [|done|apply drop_keeps_no_four; [apply not_eq_sym, opponentOf_ne|done]].
  destruct (minimax_range (dropDisc b col aiPlayer).1 (defaultDepth - 1)
              false aiPlayer (opponentOf aiPlayer) NegInf PosInf)
    as (v & Hv & Hvr); [by apply sized_dropDisc|].
  rewrite Hv in Hall. simpl in Hall. apply Z.leb_le in Hall.
  apply (minimax_top _ (defaultDepth - 1) false aiPlayer NegInf PosInf);
    [by apply sized_dropDisc|].
  rewrite Hv. change (defaultDepth - 1)%nat with 4%nat in *. f_equal. lia.
Qed.

Lemma getAIMove_hard_wins_witness :
  ∃ col, getAIMove winOrBlockBoard "hard" 2 (1 # 2) = Some col
    ∧ col ∈ getAvailableMoves winOrBlockBoard
    ∧ fourInRow (dropDisc winOrBlockBoard col 2).1 2.
Proof.
  apply (getAIMove_hard_wins winOrBlockBoard 2 (1 # 2)).
  - apply sized_play, sized_createBoard.
  - apply not_fourInRow_scan. vm_compute. reflexivity.
  - exists 3. split.
    + apply elem_of_getAvailableMoves. split; [lia|]. vm_compute. reflexivity.
    + apply anchored_fourInRow. exists 5, 3. vm_compute.
      repeat split; congruence.
Defined.

(** With [alpha = -Infinity] the minimizing loop never breaks: its result
    is at most the score of each of its calls. *)
Lemma minLoop_noprune (call : num → Z → option num) (cols : list Z)
    (minScore beta : num) (lo hi : Z) (col0 w : Z) :
  (∀ a col, col ∈ cols → ∃ x, call a col = Some x ∧ within lo hi x) →
  minScore = PosInf ∨ within lo hi minScore →
  beta ≠ NegInf →
  (col0 ∈ cols ∧ ∀ a, call a col0 = Some (Fin w))
  ∨ (∃ m, minScore = Fin m ∧ m ≤ w) →
  ∃ v, minLoop call NegInf cols minScore beta = Fin v ∧ v ≤ w.
Proof.
  revert minScore beta.
  induction cols as [|col cols IH]; intros minScore beta Hcall Hm Hbeta Hw.
  - simpl. destruct Hw as [[Hin _]|(m & -> & Hle)].
    + by apply elem_of_nil in Hin.
    + exists m. done.
  - cbn [minLoop].
    destruct (Hcall beta col) as (x & Hx & Hxw); [apply elem_of_cons; auto|].
    rewrite Hx. pose proof (mathMin_within lo hi minScore x Hm Hxw) as Hnew.
    destruct Hxw as (xv & -> & Hxv).
    assert (Hbeta' : mathMin beta (Fin xv) ≠ NegInf) by (by destruct beta).
    assert (Hno : numLe (mathMin beta (Fin xv)) NegInf = false).
    { by destruct (mathMin beta (Fin xv)). }
    rewrite Hno. apply IH; auto.
    { intros a c Hc. apply Hcall. apply elem_of_cons. auto. }
    destruct Hw as [[Hin Hcol0]|(m & -> & Hle)].
    + apply elem_of_cons in Hin as [->|Hin]; [|by left].
      right. rewrite Hcol0 in Hx. injection Hx as <-.
      destruct Hm as [->|(m & -> & _)]; simpl.
      * exists w. split; [done|]. lia.
      * exists (Z.min m w). split; [done|]. lia.
    + right. exists (Z.min m xv). split; [done|]. lia.
Qed.

(** The score of a column that hands the opponent an immediate win. *)
Lemma hardScore_handsWin (b : board) (ai col : Z) :
  sized b → ¬ fourInRow b (opponentOf ai) → handsWin b ai col →
  hardScore b ai defaultDepth col = Fin (-10003).
Proof.
  intros Hsz Hopp [Hnowin (reply & Hreply & Hlose)].
  unfold hardScore. rewrite cloneBoard_id.
  change (defaultDepth - 1)%nat with 4%nat.
  set (b1 := (dropDisc b col ai).1) in *.
  assert (Hsz1 : sized b1) by (by apply sized_dropDisc).
  assert (Hopp1 : ¬ fourInRow b1 (opponentOf ai)).
  { apply drop_keeps_no_four; [apply not_eq_sym, opponentOf_ne|done]. }
  rewrite minimax_step.
  rewrite (proj2 (proj2 (winScan_only b1 ai (opponentOf ai) _ _))
             Hnowin Hopp1).
  destruct (length (getAvailableMoves b1) =? 0)%nat eqn:Hlen.
  { apply length_zero_nil in Hlen. rewrite Hlen in Hreply.
    by apply elem_of_nil in Hreply. }
  assert (Hcalls : ∀ a c, c ∈ getAvailableMoves b1 →
            ∃ x, child b1 3 (opponentOf ai) true ai (opponentOf ai) NegInf a c
                 = Some x ∧ within (-10003) 10003 x).
  { intros a c Hc.
    destruct (child_available b1 3 (opponentOf ai) true ai (opponentOf ai)
                NegInf a c Hsz1 Hc) as (Hsz2 & _ & ->).
    eexists. split; [done|].
    by apply (minimax_range _ 3 true ai (opponentOf ai) NegInf a). }
  destruct (minLoop_noprune
              (λ beta, child b1 3 (opponentOf ai) true ai (opponentOf ai)
                         NegInf beta)
              (getAvailableMoves b1) PosInf PosInf (-10003) 10003 reply
              (-10003) Hcalls) as (v & Hv & Hle); [by left|done| |].
  { left. split; [done|]. intros a.
    destruct (child_available b1 3 (opponentOf ai) true ai (opponentOf ai)
                NegInf a reply Hsz1 Hreply) as (_ & _ & ->).
    f_equal. apply (minimax_lost _ 3); [done|].
    apply drop_keeps_no_four; [apply opponentOf_ne|done]. }
  destruct (minLoop_within
              (λ beta, child b1 3 (opponentOf ai) true ai (opponentOf ai)
                         NegInf beta)
              NegInf (getAvailableMoves b1) PosInf PosInf (-10003) 10003
              Hcalls) as (v' & Hv' & Hge); [by left| |].
  { left. by apply available_nonempty. }
  rewrite Hv in Hv' |- *. injection Hv' as <-. f_equal. lia.
Qed.

(** The score of an available column that does not. *)
Lemma hardScore_safe (b : board) (ai col : Z) :
  sized b → ¬ fourInRow b (opponentOf ai) → ¬ handsWin b ai col →
  ∃ v, hardScore b ai defaultDepth col = Fin v ∧ -10002 ≤ v.
Proof.
  intros Hsz Hopp Hsafe. unfold hardScore. rewrite cloneBoard_id.
  change (defaultDepth - 1)%nat with 4%nat.
  set (b1 := (dropDisc b col ai).1) in *.
  assert (Hsz1 : sized b1) by (by apply sized_dropDisc).
  assert (Hopp1 : ¬ fourInRow b1 (opponentOf ai)).
  { apply drop_keeps_no_four; [apply not_eq_sym, opponentOf_ne|done]. }
  destruct (fourInRow_dec b1 ai) as [Hwin|Hnowin].
  { rewrite (minimax_won b1 4) by done. eexists. split; [done|]. lia. }
  assert (Hreplies : ∀ reply, reply ∈ getAvailableMoves b1 →
            ¬ fourInRow (dropDisc b1 reply (opponentOf ai)).1 (opponentOf ai)).
  { intros reply Hreply Hlose. apply Hsafe. split; [done|]. eauto. }
  rewrite minimax_step.
  rewrite (proj2 (proj2 (winScan_only b1 ai (opponentOf ai) _ _))
             Hnowin Hopp1).
  destruct (length (getAvailableMoves b1) =? 0)%nat eqn:Hlen.
  { exists 0. split; [done|]. lia. }
  apply available_nonempty in Hlen.
  destruct (minLoop_within
              (λ beta, child b1 3 (opponentOf ai) true ai (opponentOf ai)
                         NegInf beta)
              NegInf (getAvailableMoves b1) PosInf PosInf (-10002) 10003)
    as (v & Hv & Hge); [|by left|by left|].
  - intros a c Hc.
    destruct (child_available b1 3 (opponentOf ai) true ai (opponentOf ai)
                NegInf a c Hsz1 Hc) as (Hsz2 & _ & ->).
    eexists. split; [done|].
    set (b2 := (dropDisc b1 c (opponentOf ai)).1) in *.
    assert (Hno2 : ¬ fourInRow b2 ai).
    { apply drop_keeps_no_four; [apply opponentOf_ne|done]. }
    rewrite minimax_step.
    rewrite (proj2 (proj2 (winScan_only b2 ai (opponentOf ai) _ _))
               Hno2 (Hreplies c Hc)).
    destruct (length (getAvailableMoves b2) =? 0)%nat eqn:Hlen2.
    { exists 0. split; [done|]. lia. }
    apply available_nonempty in Hlen2.
    apply (within_weaken (-10002) 10002); [lia|lia|].
    apply maxLoop_within; auto. intros a' c' Hc'.
    destruct (child_available b2 2 ai false ai (opponentOf ai) a' a c'
                Hsz2 Hc') as (Hsz3 & _ & ->).
    eexists. split; [done|].
    by apply (minimax_range _ 2 false ai (opponentOf ai) a' a).
  - exists v. split; [done|]. lia.
Qed.

(** X11. On a 6x7 board where the opponent has no four in a row: when some
    available column does not hand the opponent an immediate win, the hard
    tier plays a column that does not. *)
Theorem getAIMove_hard_no_blunder (b : board) (aiPlayer : Z) (rnd : Q) :
  sized b → ¬ fourInRow b (opponentOf aiPlayer) →
  (∃ c, c ∈ getAvailableMoves b ∧ ¬ handsWin b aiPlayer c) →
  ∃ col, getAIMove b "hard" aiPlayer rnd = Some col
    ∧ col ∈ getAvailableMoves b
    ∧ ¬ handsWin b aiPlayer col.
Proof.
  intros Hsz Hopp (c & Hc & Hsafe).
  assert (Hne : getAvailableMoves b ≠ []).
  { intros Hnil. rewrite Hnil in Hc. by apply elem_of_nil in Hc. }
  destruct (getHardMove_best b aiPlayer defaultDepth Hsz Hne)
    as (pre & col & post & Hl & Hmove & _ & Hall).
  assert (Hcol : col ∈ getAvailableMoves b).
  { rewrite Hl. apply elem_of_app. right. apply elem_of_cons. auto. }
  exists col. split; [|split; [done|]].
  { unfold getAIMove.
    destruct (length (getAvailableMoves b) =? 0)%nat eqn:Hlen; [|done].
    by apply length_zero_nil in Hlen. }
  intros Hbad. specialize (Hall c Hc).
  rewrite (hardScore_handsWin b aiPlayer col Hsz Hopp Hbad) in Hall.
  destruct (hardScore_safe b aiPlayer c Hsz Hopp Hsafe) as (v & Hv & Hge).
  rewrite Hv in Hall. simpl in Hall. apply Z.leb_le in Hall. lia.
Qed.

Lemma getAIMove_hard_no_blunder_witness :
  ∃ col, getAIMove blockBoard "hard" 2 (1 # 2) = Some col
    ∧ col ∈ getAvailableMoves blockBoard
    ∧ ¬ handsWin blockBoard 2 col.
Proof.
  apply (getAIMove_hard_no_blunder blockBoard 2 (1 # 2)).
  - apply sized_play, sized_createBoard.
  - apply not_fourInRow_scan. vm_compute. reflexivity.
  - exists 3. split.
    + apply elem_of_getAvailableMoves. split; [lia|]. vm_compute. reflexivity.
    + intros [_ (reply & Hreply & Hlose)]. revert Hlose.
      apply elem_of_getAvailableMoves in Hreply as [Hr _].
      assert (reply = 0 ∨ reply = 1 ∨ reply = 2 ∨ reply = 3 ∨ reply = 4
              ∨ reply = 5 ∨ reply = 6) as Hcases by lia.
      destruct Hcases as [->|[->|[->|[->|[->|[->| ->]]]]]];
        apply not_fourInRow_scan; vm_compute; reflexivity.
Defined.

End AIMore.

(** ** The easy and the medium tier *)

Module TierFacts.
Import Board AI Spec More BoardFacts AIFacts.

Lemma Qfloor_unique (x : Q) (i : Z) :
  (inject_Z i <= x)%Q → (x < inject_Z (i + 1))%Q → Qfloor x = i.
Proof.
  intros Hle Hlt.
  assert (i ≤ Qfloor x).
  { rewrite <- (Qfloor_Z i). by apply Qfloor_resp_le. }
  assert (Qfloor x < i + 1).
  { rewrite Zlt_Qlt. eapply Qle_lt_trans; [apply Qfloor_le|done]. }
  lia.
Qed.

(** The center list of [getMediumMove] holds every column, so its loop
    finds an available one. *)
Lemma center_found (b : board) :
  getAvailableMoves b ≠ [] →
  is_Some (firstSome (λ col, if includes (getAvailableMoves b) col
                             then Some col else None) centerOrder).
Proof.
  intros Hne.
  destruct (firstSome _ centerOrder) as [v|] eqn:Hf; [by eexists|].
  exfalso. destruct (getAvailableMoves b) as [|col rest] eqn:Hl; [done|].
  assert (Hcol : col ∈ getAvailableMoves b).
  { rewrite Hl. apply elem_of_cons. auto. }
  pose proof (proj1 (firstSome_None _ _) Hf col) as Hnone.
  rewrite <- Hl in Hnone.
  unfold includes in Hnone. rewrite (bool_decide_eq_true_2 _ Hcol) in Hnone.
  apply elem_of_getAvailableMoves in Hcol as [Hr _].
  assert (col = 0 ∨ col = 1 ∨ col = 2 ∨ col = 3 ∨ col = 4 ∨ col = 5
          ∨ col = 6) as Hcases by lia.
  assert (col ∈ centerOrder) as Hin.
  { unfold centerOrder.
    destruct Hcases as [->|[->|[->|[->|[->|[->| ->]]]]]];
      repeat (first [apply list_elem_of_here | apply list_elem_of_further]). }
  by specialize (Hnone Hin).
Qed.

(** X12. The medium tier never reaches its random fallback: the column it
    returns does not depend on the value of [Math.random()]. *)
Theorem getAIMove_medium_no_random (b : board) (aiPlayer : Z) (rnd rnd' : Q) :
  getAIMove b "medium" aiPlayer rnd = getAIMove b "medium" aiPlayer rnd'
  ∧ getMediumMove b (getAvailableMoves b) aiPlayer rnd
    = getMediumMove b (getAvailableMoves b) aiPlayer rnd'.
Proof.
  assert (Hmed : getAvailableMoves b ≠ [] →
            getMediumMove b (getAvailableMoves b) aiPlayer rnd
            = getMediumMove b (getAvailableMoves b) aiPlayer rnd').
  { intros Hne. unfold getMediumMove.
    destruct (firstSome (tryColumn b aiPlayer) _); [done|].
    destruct (firstSome (tryColumn b (opponentOf aiPlayer)) _); [done|].
    by destruct (center_found b Hne) as [v ->]. }
  split.
  - unfold getAIMove.
    destruct (length (getAvailableMoves b) =? 0)%nat eqn:Hlen; [done|].
    simpl. apply Hmed. intros Hnil. by rewrite Hnil in Hlen.
  - destruct (decide (getAvailableMoves b = [])) as [Hnil|Hne]; [|auto].
    rewrite Hnil. unfold getMediumMove, getEasyMove, index. simpl.
    by do 2 destruct (_ <? 0).
Qed.

(** The middle of the interval of the index [i]. *)
Lemma middle_index (i n : Z) :
  0 ≤ i < n →
  let rnd := (inject_Z (2 * i + 1) / inject_Z (2 * n))%Q in
  isRandom rnd ∧ Qfloor (rnd * inject_Z n) = i.
Proof.
  intros Hi rnd.
  assert (Hn : (0 < inject_Z n)%Q).
  { change 0%Q with (inject_Z 0). rewrite <- Zlt_Qlt. lia. }
  assert (Hi0 : (0 <= inject_Z i)%Q).
  { change 0%Q with (inject_Z 0). rewrite <- Zle_Qle. lia. }
  assert (Hin : (inject_Z i + 1 <= inject_Z n)%Q).
  { change 1%Q with (inject_Z 1). rewrite <- inject_Z_plus, <- Zle_Qle. lia. }
  assert (H2n : (0 < inject_Z (2 * n))%Q).
  { change 0%Q with (inject_Z 0). rewrite <- Zlt_Qlt. lia. }
  assert (Hprod : (rnd * inject_Z n == inject_Z i + (1 # 2))%Q).
  { unfold rnd. rewrite !inject_Z_plus, !inject_Z_mult.
    change (inject_Z 2) with 2%Q. change (inject_Z 1) with 1%Q.
    field. intros H0. rewrite H0 in Hn. by apply Qlt_irrefl in Hn. }
  split; [split|].
  - unfold rnd. apply Qle_shift_div_l; [done|].
    rewrite Qmult_0_l. rewrite inject_Z_plus, inject_Z_mult.
    change (inject_Z 2) with 2%Q. change (inject_Z 1) with 1%Q. lra.
  - unfold rnd. apply Qlt_shift_div_r; [done|].
    rewrite !inject_Z_plus, !inject_Z_mult.
    change (inject_Z 2) with 2%Q. change (inject_Z 1) with 1%Q. lra.
  - rewrite Hprod. apply Qfloor_unique.
    + lra.
    + rewrite inject_Z_plus. change (inject_Z 1) with 1%Q. lra.
Qed.

(** X13. The easy tier (and every difficulty other than medium and hard)
    can return every available column and nothing else: a column is
    returned for some value of [Math.random()] in [0, 1) exactly when it is
    available. *)
Theorem getAIMove_easy_reaches (b : board) (difficulty : string)
    (aiPlayer col : Z) :
  difficulty ≠ "medium" → difficulty ≠ "hard" →
  getAvailableMoves b ≠ [] →
  (∃ rnd, isRandom rnd ∧ getAIMove b difficulty aiPlayer rnd = Some col)
  ↔ col ∈ getAvailableMoves b.
Proof.
  intros Hm Hh Hne.
  assert (Heasy : ∀ rnd, getAIMove b difficulty aiPlayer rnd
                         = getEasyMove (getAvailableMoves b) rnd).
  { intros rnd. unfold getAIMove.
    destruct (length (getAvailableMoves b) =? 0)%nat eqn:Hlen.
    { by apply length_zero_nil in Hlen. }
    destruct (String.eqb difficulty "easy"); [done|].
    destruct (String.eqb_spec difficulty "medium"); [done|].
    destruct (String.eqb_spec difficulty "hard"); [done|]. done. }
  split.
  - intros (rnd & _ & Hcol). rewrite Heasy in Hcol.
    by apply index_elem_of in Hcol.
  - intros Hin. apply list_elem_of_lookup in Hin as [i Hi].
    pose proof (lookup_lt_Some _ _ _ Hi) as Hlt.
    destruct (middle_index (Z.of_nat i)
                (Z.of_nat (length (getAvailableMoves b)))) as [Hrnd Hfloor];
      [lia|].
    eexists. split; [exact Hrnd|]. rewrite Heasy. unfold getEasyMove.
    rewrite Hfloor. unfold index.
    destruct (Z.of_nat i <? 0) eqn:Hneg; [lia|]. by rewrite Nat2Z.id.
Qed.

Lemma getAIMove_easy_reaches_witness :
  (∃ rnd, isRandom rnd ∧ getAIMove blockBoard "easy" 2 rnd = Some 3)
  ↔ 3 ∈ getAvailableMoves blockBoard.
Proof.
  apply (getAIMove_easy_reaches blockBoard "easy" 2 3).
  - done.
  - done.
  - vm_compute. discriminate.
Defined.

End TierFacts.

(** ** Sessions: [app.js] with the replay of [history.js] *)

Module SessionMore.
Import Board AI Session History Spec More.
Import BoardFacts AIFacts SearchFacts SessionFacts BoardMore WinFacts AIMore.

Lemma dropDisc_set (b : board) (c s : Z) :
  success (dropDisc b c s).2 = true →
  (dropDisc b c s).1 = set b (row (dropDisc b c s).2) c s.
Proof. unfold dropDisc. by destruct (getLowestEmptyRow b c =? -1). Qed.

Lemma onFour_fourInRow (b : board) (p r c : Z) :
  onFour b p r c → fourInRow b p.
Proof.
  intros (dr & dc & j & Hd & Hj & Hrow).
  exists (r - dr * j), (c - dc * j), dr, dc. split; [done|].
  intros i Hi. unfold WIN_LENGTH in Hi.
  replace (r - dr * j + dr * i) with (r + dr * (i - j)) by ring.
  replace (c - dc * j + dc * i) with (c + dc * (i - j)) by ring.
  by apply Hrow.
Qed.

(** A four in a row of the mover after a drop was there before or runs
    through the new disc. *)
Lemma drop_four_through (b : board) (c s : Z) :
  success (dropDisc b c s).2 = true →
  fourInRow (dropDisc b c s).1 s →
  fourInRow b s ∨ onFour (dropDisc b c s).1 s (row (dropDisc b c s).2) c.
Proof.
  intros Hok (r0 & c0 & dr & dc & Hd & Hrow). unfold WIN_LENGTH in Hrow.
  destruct (dropDisc_landing b c s Hok) as (_ & _ & _ & _ & Hnew & Hold).
  remember (row (dropDisc b c s).2) as r eqn:Hr.
  remember (dropDisc b c s).1 as b' eqn:Hb'.
  assert (Hcase : (∃ j, 0 ≤ j ≤ 3 ∧ r0 + dr * j = r ∧ c0 + dc * j = c)
                  ∨ ∀ i, 0 ≤ i < 4 → (r0 + dr * i, c0 + dc * i) ≠ (r, c)).
  { destruct (decide ((r0 + dr * 0, c0 + dc * 0) = (r, c))) as [H0|H0];
      [injection H0 as ? ?; left; exists 0; lia|].
    destruct (decide ((r0 + dr * 1, c0 + dc * 1) = (r, c))) as [H1|H1];
      [injection H1 as ? ?; left; exists 1; lia|].
    destruct (decide ((r0 + dr * 2, c0 + dc * 2) = (r, c))) as [H2|H2];
      [injection H2 as ? ?; left; exists 2; lia|].
    destruct (decide ((r0 + dr * 3, c0 + dc * 3) = (r, c))) as [H3|H3];
      [injection H3 as ? ?; left; exists 3; lia|].
    right. intros i Hi.
    assert (i = 0 ∨ i = 1 ∨ i = 2 ∨ i = 3) as [->|[->|[->| ->]]] by lia;
      done. }
  destruct Hcase as [(j & Hj & Hjr & Hjc)|Hnone].
  - right. exists dr, dc, j. split; [done|]. split; [done|]. intros i Hi.
    rewrite <- Hjr, <- Hjc.
    replace (r0 + dr * j + dr * (i - j)) with (r0 + dr * i) by ring.
    replace (c0 + dc * j + dc * (i - j)) with (c0 + dc * i) by ring.
    by apply Hrow.
  - left. exists r0, c0, dr, dc. split; [done|]. intros i Hi.
    unfold WIN_LENGTH in Hi. destruct (Hrow i Hi) as [Hg Hget].
    split; [done|]. rewrite <- Hold; [done|]. by apply Hnone.
Qed.

(** On a board without a four of the mover, [checkWin] at the landing cell
    decides whether the move made one. *)
Lemma move_decides (b : board) (c s : Z) :
  success (dropDisc b c s).2 = true → ¬ fourInRow b s →
  (win (checkWin (dropDisc b c s).1 (row (dropDisc b c s).2) c s) = true
   ↔ fourInRow (dropDisc b c s).1 s).
Proof.
  intros Hok Hno.
  destruct (dropDisc_landing b c s Hok) as (Hc & Hr & _ & _ & Hnew & _).
  assert (Hcell : cellIs (dropDisc b c s).1 s (row (dropDisc b c s).2) c).
  { split; [unfold inGrid, ROWS, COLS; lia|done]. }
  split.
  - intros Hw. apply anchored_fourInRow. by eexists _, _.
  - intros Hfour. destruct (drop_four_through b c s Hok Hfour) as [?|Hon];
      [done|]. by apply checkWin_onFour.
Qed.

Lemma isSide_opponentOf (p : Z) : isSide (opponentOf p).
Proof. unfold isSide, opponentOf. destruct (p =? 1); auto. Qed.

Lemma isSide_starter (st : State) : isSide (starter st).
Proof. unfold isSide, starter. destruct (String.eqb _ _); auto. Qed.

Lemma isSide_toMove (start : Z) (h : list Move) :
  isSide start → isSide (toMove start h).
Proof.
  intros Hs. unfold toMove. destruct (list.last h); [|done].
  apply isSide_opponentOf.
Qed.

Lemma undecided_createBoard : undecided createBoard.
Proof.
  split; [|split; [|done]]; apply not_fourInRow_scan; vm_compute;
    reflexivity.
Qed.

Lemma undecided_drop (b : board) (c s : Z) :
  isSide s → undecided b → success (dropDisc b c s).2 = true →
  win (checkWin (dropDisc b c s).1 (row (dropDisc b c s).2) c s) = false →
  isBoardFull (dropDisc b c s).1 = false →
  undecided (dropDisc b c s).1.
Proof.
  intros Hs (H1 & H2 & _) Hok Hw Hfull.
  destruct Hs as [-> | ->].
  - split; [|split; [|done]].
    + intros Hf. apply (move_decides b c 1 Hok H1) in Hf. congruence.
    + by apply drop_keeps_no_four.
  - split; [|split; [|done]].
    + by apply drop_keeps_no_four.
    + intros Hf. apply (move_decides b c 2 Hok H2) in Hf. congruence.
Qed.

(** *** What a handler does to the state *)

Lemma click_cases (col : Z) (st : State) :
  (clickAndSettle col st = st
   ∧ (isGameActive st = false ∨ isAnimating st = true
      ∨ (gameMode st = "ai" ∧ currentPlayer st = 2)
      ∨ isColumnFull (currentBoard st) col = true))
  ∨ (isColumnFull (currentBoard st) col = false
     ∧ isGameActive st = true ∧ isAnimating st = false
     ∧ ¬ (gameMode st = "ai" ∧ currentPlayer st = 2)
     ∧ success (dropDisc (currentBoard st) col (currentPlayer st)).2 = true
     ∧ (handleColumnClick col st).2 ≠ None
     ∧ clickAndSettle col st
       = settled st col (currentPlayer st)
           (if currentPlayer st =? 1 then 2 else 1) None None)
  ∨ (success (dropDisc (currentBoard st) col (currentPlayer st)).2 = false
     ∧ isColumnFull (currentBoard st) col = false).
Proof.
  unfold clickAndSettle, handleColumnClick.
  destruct (negb (isGameActive st) || isAnimating st) eqn:Hg.
  { left. split; [done|]. apply orb_true_iff in Hg as [Hg|Hg]; [|auto].
    apply negb_true_iff in Hg. auto. }
  apply orb_false_iff in Hg as [Hact Hanim]. apply negb_false_iff in Hact.
  destruct (String.eqb (gameMode st) "ai" && (currentPlayer st =? 2))
    eqn:Hturn.
  { left. split; [done|]. apply andb_true_iff in Hturn as [Hm Hp].
    apply String.eqb_eq in Hm. apply Z.eqb_eq in Hp. auto. }
  destruct (isColumnFull (currentBoard st) col) eqn:Hfull; [left; auto|].
  destruct (success (dropDisc (currentBoard st) col (currentPlayer st)).2)
    eqn:Hok; [|by right; right].
  right. left. split; [done|]. split; [done|]. split; [done|]. split.
  { intros [Hm Hp]. rewrite Hm, Hp in Hturn. done. }
  split; [done|].
  unfold makeMove. rewrite Hanim.
  destruct st as [b p gm ad po act anim h u]. simpl in *.
  unfold settled, moveOf, checkpointOf, makeMoveResume, afterAnimation,
    handleGameOver, pushCheckpoint, setAnimating, setActive, setPlayer,
    setHistory, setUndo, setBoard. simpl.
  rewrite !cloneBoard_id.
  destruct (dropDisc b col p) as [b' res] eqn:Hd. simpl in *.
  rewrite Hok. simpl. split; [done|]. rewrite !cloneBoard_id.
  destruct (win (checkWin b' (row res) col p)); simpl; [by subst|].
  destruct (isBoardFull b'); simpl; by subst.
Qed.

Lemma ai_cases (rnd : Q) (face text : string) (st : State) :
  sized (currentBoard st) →
  (aiMoveAndSettle rnd face text st = st
   ∧ (isGameActive st = false ∨ isAnimating st = true
      ∨ currentPlayer st ≠ 2
      ∨ match getAIMove (currentBoard st) (aiDifficulty st) 2 rnd with
        | Some col => col = -1 ∨ isColumnFull (currentBoard st) col = true
        | None => True
        end))
  ∨ (isGameActive st = true ∧ isAnimating st = false ∧ currentPlayer st = 2
     ∧ ∃ col,
         getAIMove (currentBoard st) (aiDifficulty st) 2 rnd = Some col
         ∧ success (dropDisc (currentBoard st) col 2).2 = true
         ∧ aiMoveAndSettle rnd face text st
           = settled st col 2 1 (Some face) (Some text)).
Proof.
  intros Hsz. unfold aiMoveAndSettle, makeAIMove.
  destruct (negb (isGameActive st) || isAnimating st
            || negb (currentPlayer st =? 2)) eqn:Hg.
  { left. split; [done|]. apply orb_true_iff in Hg as [Hg|Hg].
    - apply orb_true_iff in Hg as [Hg|Hg]; [|auto].
      apply negb_true_iff in Hg. auto.
    - apply negb_true_iff, Z.eqb_neq in Hg. auto. }
  apply orb_false_iff in Hg as [Hg Hp].
  apply orb_false_iff in Hg as [Hact Hanim].
  apply negb_false_iff in Hact. apply negb_false_iff, Z.eqb_eq in Hp.
  assert (Hback : setAnimating (setAnimating st true) false = st).
  { destruct st. unfold setAnimating. simpl in *. by subst. }
  unfold makeAIMoveThink.
  change (currentBoard (setAnimating st true)) with (currentBoard st).
  change (aiDifficulty (setAnimating st true)) with (aiDifficulty st).
  destruct (getAIMove (currentBoard st) (aiDifficulty st) 2 rnd)
    as [aiCol|] eqn:Hmove; [|left; auto 6].
  destruct ((aiCol =? -1) || isColumnFull (currentBoard st) aiCol) eqn:Hbad.
  { left. split; [done|]. do 3 right.
    apply orb_true_iff in Hbad as [Hbad|Hbad]; [|auto].
    apply Z.eqb_eq in Hbad. auto. }
  apply orb_false_iff in Hbad as [_ Hfull].
  pose proof (dropDisc_after_guard (currentBoard st) aiCol 2 Hsz Hfull)
    as Hok.
  right. split; [done|]. split; [done|]. split; [done|].
  exists aiCol. split; [done|]. split; [done|].
  destruct st as [b p gm ad po act anim h u]. simpl in *.
  unfold settled, moveOf, checkpointOf, makeAIMoveResume, afterAnimation,
    handleGameOver, pushCheckpoint, setAnimating, setActive, setPlayer,
    setHistory, setUndo, setBoard. simpl.
  rewrite !cloneBoard_id.
  destruct (dropDisc b aiCol 2) as [b' res] eqn:Hd. simpl in *.
  rewrite Hok. simpl. rewrite !cloneBoard_id.
  destruct (win (checkWin b' (row res) aiCol 2)); simpl; [by subst|].
  destruct (isBoardFull b'); simpl; by subst.
Qed.


(** *** The record of a game *)

Lemma recorded_sized (start : Z) (h : list Move) (u : list Checkpoint)
    (b : board) :
  recorded start h u b → sized b.
Proof.
  induction 1; [apply sized_createBoard|by apply sized_dropDisc].
Qed.

Lemma recorded_rebuild (start : Z) (h : list Move) (u : list Checkpoint)
    (b : board) :
  recorded start h u b → rebuild h = b.
Proof.
  induction 1 as [|h u b m Hrec IH Hund Hp Ht Hok Hrow Hsnap]; [done|].
  unfold rebuild in *. rewrite foldl_snoc, IH, Hrow. symmetry.
  by apply dropDisc_set.
Qed.

Lemma recorded_length (start : Z) (h : list Move) (u : list Checkpoint)
    (b : board) :
  recorded start h u b → length u = length h.
Proof. induction 1; [done|]. rewrite !length_app. simpl. lia. Qed.

Lemma recorded_play (start : Z) (h : list Move) (u : list Checkpoint)
    (b : board) :
  recorded start h u b →
  b = play createBoard ((λ m, (column m, player m)) <$> h).
Proof.
  induction 1 as [|h u b m Hrec IH Hund Hp Ht Hok Hrow Hsnap]; [done|].
  rewrite fmap_app. unfold play in *. rewrite foldl_app. simpl.
  by rewrite <- IH.
Qed.

Lemma recorded_reachable (start : Z) (h : list Move) (u : list Checkpoint)
    (b : board) :
  isSide start → recorded start h u b → reachable b.
Proof.
  intros Hs. induction 1 as [|h u b m Hrec IH Hund Hp Ht Hok Hrow Hsnap];
    [constructor|].
  constructor; [done| |done]. rewrite Hp. by apply isSide_toMove.
Qed.

Lemma recorded_discs (start : Z) (h : list Move) (u : list Checkpoint)
    (b : board) :
  isSide start → recorded start h u b → discs b = length h.
Proof.
  intros Hs. induction 1 as [|h u b m Hrec IH Hund Hp Ht Hok Hrow Hsnap];
    [done|].
  rewrite length_app, (dropDisc_set _ _ _ Hok). simpl.
  destruct (dropDisc_landing _ _ _ Hok) as (_ & _ & Hget & _).
  rewrite discs_set; [lia|done|].
  assert (isSide (player m)) as [-> | ->]
    by (rewrite Hp; by apply isSide_toMove); done.
Qed.

(** The move number [i] of a recorded game and its checkpoint. *)
Lemma recorded_at (start : Z) (h : list Move) (u : list Checkpoint)
    (b : board) (i : nat) (m : Move) :
  recorded start h u b → h !! i = Some m →
  undecided (rebuild (take i h))
  ∧ player m = toMove start (take i h)
  ∧ turn m = Z.of_nat i + 1
  ∧ success (dropDisc (rebuild (take i h)) (column m) (player m)).2 = true
  ∧ moveRow m = row (dropDisc (rebuild (take i h)) (column m) (player m)).2
  ∧ boardSnapshot m = rebuild (take (S i) h)
  ∧ rebuild (take (S i) h)
    = (dropDisc (rebuild (take i h)) (column m) (player m)).1
  ∧ u !! i = Some {| savedBoard := rebuild (take i h);
                     savedPlayer := player m; moveHistoryLength := i |}.
Proof.
  intros Hrec. revert i m.
  induction Hrec as [|h u b m' Hrec IH Hund Hp Ht Hok Hrow Hsnap];
    intros i m Hi; [done|].
  pose proof (recorded_rebuild _ _ _ _ Hrec) as Hb.
  pose proof (recorded_length _ _ _ _ Hrec) as Hlen.
  pose proof (recorded_rebuild _ _ _ _
                (rec_move start h u b m' Hrec Hund Hp Ht Hok Hrow Hsnap))
    as Hb'.
  destruct (decide (i < length h)%nat) as [Hlt|Hge].
  - rewrite lookup_app_l in Hi by done.
    rewrite !take_app_le by lia. rewrite lookup_app_l by lia.
    by apply IH.
  - pose proof (lookup_lt_Some _ _ _ Hi) as Hlt.
    rewrite length_app in Hlt. simpl in Hlt.
    assert (i = length h) as -> by lia.
    rewrite lookup_app_r, Nat.sub_diag in Hi by lia.
    injection Hi as <-.
    rewrite take_app_length, Hb.
    rewrite (take_ge (h ++ [m'])) by (rewrite length_app; simpl; lia).
    rewrite Hb'. rewrite lookup_app_r by lia.
    rewrite Hlen, Nat.sub_diag. done.
Qed.

(** *** The state of a session *)

Lemma consistent_new (mode order difficulty : string) (st : State) :
  isAnimating st = false →
  consistent (handleNewGameSubmit mode order difficulty st).
Proof.
  intros Hanim. unfold consistent, handleNewGameSubmit, startNewGame. simpl.
  split; [constructor|]. split; [done|]. split; [|done]. intros _.
  split; [apply undecided_createBoard|done].
Qed.

Lemma consistent_settled (st : State) (col s next : Z)
    (face text : option string) :
  consistent st → isGameActive st = true → s = currentPlayer st →
  next = opponentOf s →
  success (dropDisc (currentBoard st) col s).2 = true →
  consistent (settled st col s next face text).
Proof.
  intros (Hrec & Hanim & Hon & _) Hact -> -> Hok.
  destruct (Hon Hact) as [Hund Hturn].
  assert (Hside : isSide (currentPlayer st)).
  { rewrite Hturn. apply isSide_toMove, isSide_starter. }
  unfold consistent, settled. simpl.
  change (starter _) with (starter st).
  set (m := moveOf st col (currentPlayer st) face text).
  split; [|split; [done|]].
  - replace (checkpointOf st)
      with {| savedBoard := currentBoard st; savedPlayer := player m;
              moveHistoryLength := length (moveHistory st) |} by done.
    by apply (rec_move (starter st) (moveHistory st) (undoStack st)
                (currentBoard st) m).
  - destruct (win _) eqn:Hw; simpl.
    + split; [done|]. intros _. exists m. rewrite last_snoc.
      split; [done|]. left.
      apply (move_decides _ _ _ Hok); [|done].
      destruct Hund as (H1 & H2 & _). by destruct Hside as [-> | ->].
    + destruct (isBoardFull _) eqn:Hfull.
      * split; [done|]. intros _. exists m. rewrite last_snoc.
        split; [done|]. by right.
      * split; [|by rewrite Hact]. intros _. split.
        -- by apply undecided_drop.
        -- unfold toMove. by rewrite last_snoc.
Qed.

Lemma consistent_undo (st : State) : consistent st → consistent (handleUndo st).
Proof.
  intros Hc. pose proof Hc as (Hrec & Hanim & Hon & Hoff).
  unfold handleUndo.
  destruct (negb (isGameActive st) || isAnimating st
            || (length (undoStack st) =? 0)%nat) eqn:Hg; [done|].
  apply orb_false_iff in Hg as [Hg Hne].
  apply orb_false_iff in Hg as [Hact _]. apply negb_false_iff in Hact.
  apply Nat.eqb_neq in Hne.
  destruct st as [b p gm ad po act anim h u]. simpl in *.
  unfold starter in *. simpl in *.
  inversion Hrec as [Hh Hu Hb|h0 u0 b0 m Hrec0 Hund Hp Ht Hok Hrow Hsnap
                            Hh Hu Hb]; subst; [done|].
  rewrite last_snoc.
  unfold consistent, setHistory, setPlayer, setBoard, setUndo, starter.
  simpl. rewrite removelast_last, take_app_length.
  split; [done|]. split; [done|]. split; [intros _; by split|done].
Qed.

Lemma consistent_handle (st : State) (e : event) :
  consistent st → consistent (handle st e).
Proof.
  intros Hc. pose proof Hc as (Hrec & Hanim & Hon & Hoff).
  pose proof (recorded_sized _ _ _ _ Hrec) as Hsz.
  destruct e as [mode order difficulty|col|rnd face text|]; simpl.
  - by apply consistent_new.
  - destruct (click_cases col st)
      as [[-> _]|[(_ & Hact & _ & _ & Hok & _ & ->)|[Hfail Hfull]]]; [done| |].
    + by apply consistent_settled.
    + rewrite (dropDisc_after_guard _ _ _ Hsz Hfull) in Hfail. done.
  - destruct (ai_cases rnd face text st Hsz)
      as [[-> _]|(Hact & _ & Hp & col & _ & Hok & ->)]; [done|].
    by apply consistent_settled.
  - by apply consistent_undo.
Qed.

Lemma consistent_run (es : list event) (st : State) :
  consistent st → consistent (foldl handle st es).
Proof.
  revert st. induction es as [|e es IH]; intros st Hc; [done|].
  simpl. by apply IH, consistent_handle.
Qed.

Lemma consistent_session (mode order difficulty : string) (es : list event) :
  consistent (session mode order difficulty es).
Proof.
  unfold session. simpl. by apply consistent_run, consistent_new.
Qed.



Lemma getAIMove_available (b : board) (difficulty : string)
    (aiPlayer : Z) (rnd : Q) :
  isRandom rnd → getAvailableMoves b ≠ [] →
  ∃ col, getAIMove b difficulty aiPlayer rnd = Some col
         ∧ col ∈ getAvailableMoves b.
Proof.
  intros Hrnd Hne. unfold getAIMove.
  destruct (length (getAvailableMoves b) =? 0)%nat eqn:Hlen.
  { by apply length_zero_nil in Hlen. }
  destruct (String.eqb difficulty "easy"); [by apply getEasyMove_legal|].
  destruct (String.eqb difficulty "medium"); [by apply getMediumMove_legal|].
  destruct (String.eqb difficulty "hard"); [by apply getHardMove_legal|].
  by apply getEasyMove_legal.
Qed.

(** X24. In every session, while the game is active: a click of the side
    to move on a column that is not full places its disc, a click on a full
    column or outside the board changes nothing, and the AI, when it is its
    turn, places a disc in an available column for every difficulty and
    every random value; the branch for an invalid AI move and the branches
    for a failed drop are never taken. *)
Theorem session_moves (mode order difficulty : string) (es : list event) :
  let st := session mode order difficulty es in
  isGameActive st = true →
  (∀ col, ¬ (gameMode st = "ai" ∧ currentPlayer st = 2) →
     handle st (Click col)
     = if isColumnFull (currentBoard st) col then st
       else settled st col (currentPlayer st)
              (opponentOf (currentPlayer st)) None None)
  ∧ (∀ col, col < 0 ∨ COLS ≤ col →
       isColumnFull (currentBoard st) col = true)
  ∧ (∀ rnd face text, isRandom rnd → currentPlayer st = 2 →
       ∃ col, getAIMove (currentBoard st) (aiDifficulty st) 2 rnd = Some col
         ∧ col ∈ getAvailableMoves (currentBoard st)
         ∧ handle st (AIMove rnd face text)
           = settled st col 2 1 (Some face) (Some text)).
Proof.
  intros st Hact.
  destruct (consistent_session mode order difficulty es)
    as (Hrec & Hanim & Hon & _).
  fold st in Hrec, Hanim, Hon.
  pose proof (recorded_sized _ _ _ _ Hrec) as Hsz.
  destruct (Hon Hact) as [(_ & _ & Hfull) _].
  split; [|split].
  - intros col Hturn. simpl.
    destruct (click_cases col st)
      as [[-> Hwhy]|[(Hcf & _ & _ & _ & _ & _ & ->)|[Hfail Hok]]].
    + destruct Hwhy as [Hw|[Hw|[Hw|Hw]]]; [congruence|congruence|done|].
      by rewrite Hw.
    + by rewrite Hcf.
    + rewrite (dropDisc_after_guard _ _ _ Hsz Hok) in Hfail. done.
  - intros col Hcol. unfold isColumnFull.
    destruct (get (currentBoard st) 0 col) as [v|] eqn:Hget; [|done].
    destruct (sized_get_bound _ 0 col Hsz) as [_ Hc]; [by rewrite Hget|].
    unfold COLS in *. lia.
  - intros rnd face text Hrnd Hp. simpl.
    destruct (getAIMove_available (currentBoard st) (aiDifficulty st) 2 rnd
                Hrnd) as (col & Hcol & Hin).
    { intros Hnil. apply (isBoardFull_available _ Hsz) in Hnil. congruence. }
    exists col. split; [done|]. split; [done|].
    apply elem_of_getAvailableMoves in Hin as [Hc Hcf].
    destruct (ai_cases rnd face text st Hsz)
      as [[_ Hwhy]|(_ & _ & _ & col' & Hcol' & _ & ->)].
    + rewrite Hcol in Hwhy.
      destruct Hwhy as [Hw|[Hw|[Hw|[Hw|Hw]]]]; try congruence. lia.
    + rewrite Hcol in Hcol'. by injection Hcol' as <-.
Qed.

Lemma session_moves_witness :
  handle (session "human" "player" "easy" [Click 3]) (Click 3)
  = settled (session "human" "player" "easy" [Click 3]) 3
      (currentPlayer (session "human" "player" "easy" [Click 3]))
      (opponentOf (currentPlayer (session "human" "player" "easy" [Click 3])))
      None None.
Proof.
  apply (proj1 (session_moves "human" "player" "easy" [Click 3] eq_refl) 3).
  intros [Hm _]. vm_compute in Hm. discriminate.
Defined.

End SessionMore.

(** ** Pointer, keyboard and the stored history *)

Module InterfaceFacts.
Import Board Session History UI Spec More.

Lemma Qltb_lt (x y : Q) : Qltb x y = true ↔ (x < y)%Q.
Proof.
  unfold Qltb. rewrite negb_true_iff. split.
  - intros H. apply Qnot_le_lt. intros Hle. apply Qle_bool_iff in Hle.
    congruence.
  - intros H. destruct (Qle_bool y x) eqn:E; [|done].
    apply Qle_bool_iff in E. exfalso. by apply (Qlt_not_le x y).
Qed.

Lemma Qfloor_iff (x : Q) (k : Z) :
  Qfloor x = k ↔ (inject_Z k <= x)%Q ∧ (x < inject_Z (k + 1))%Q.
Proof.
  split.
  - intros <-. split; [apply Qfloor_le|apply Qlt_floor].
  - intros [Hle Hlt].
    assert (k ≤ Qfloor x).
    { rewrite <- (Qfloor_Z k). by apply Qfloor_resp_le. }
    assert (Qfloor x < k + 1).
    { rewrite Zlt_Qlt. eapply Qle_lt_trans; [apply Qfloor_le|done]. }
    lia.
Qed.

Lemma column_of (x : Q) (k : Z) :
  Qfloor ((x - inject_Z BOARD_PADDING) / inject_Z COLUMN_WIDTH) = k
  ↔ (inject_Z (zoneX k) <= x)%Q ∧ (x < inject_Z (zoneX k + COLUMN_WIDTH))%Q.
Proof.
  rewrite Qfloor_iff. unfold zoneX, BOARD_PADDING, COLUMN_WIDTH.
  rewrite !inject_Z_plus, !inject_Z_mult.
  unfold Qdiv. change (/ inject_Z 100)%Q with (1 # 100)%Q.
  change (inject_Z 20) with (20 # 1)%Q.
  change (inject_Z 100) with (100 # 1)%Q.
  change (inject_Z 1) with (1 # 1)%Q.
  generalize (inject_Z k). intros q. split; intros [H1 H2]; split; lra.
Qed.

(** X20. [getColFromClientX] agrees with the click zones of the board:
    with [svgX] the x coordinate of the pointer in the board as the code
    computes it, it returns the column [k] exactly when [svgX] is inside
    the zone of [k], from its left edge up to but not including its right
    edge, and [-1] exactly when [svgX] is left of the first zone or at or
    beyond the right edge of the last one; it returns nothing else. *)
Theorem getColFromClientX_zone (svgX : Q) :
  let col := getColFromClientX svgX in
  (col = -1 ∨ 0 ≤ col < COLS)
  ∧ (∀ k, 0 ≤ k < COLS →
       col = k ↔ (inject_Z (zoneX k) <= svgX)%Q
                 ∧ (svgX < inject_Z (zoneX k + COLUMN_WIDTH))%Q)
  ∧ (col = -1 ↔ (svgX < inject_Z (zoneX 0))%Q
                ∨ (inject_Z (zoneX COLS) <= svgX)%Q).
Proof.
  intros col. unfold col, getColFromClientX. clear col.
  revert svgX. intros x. cbv zeta.
  destruct (Qltb x (inject_Z BOARD_PADDING)) eqn:Hlo; cbn [orb].
  { apply Qltb_lt in Hlo. split; [by left|]. split.
    - intros k Hk. split; [lia|]. intros [Hle _]. exfalso.
      unfold zoneX, BOARD_WIDTH, COLS, BOARD_PADDING, COLUMN_WIDTH in *.
      assert (inject_Z 20 <= inject_Z (20 + k * 100))%Q
        by (rewrite <- Zle_Qle; lia).
      lra.
    - split; [|done]. intros _. by left. }
  assert (Hlo' : (inject_Z BOARD_PADDING <= x)%Q).
  { apply Qnot_lt_le. intros H. apply Qltb_lt in H. congruence. }
  destruct (Qltb (inject_Z (BOARD_WIDTH - BOARD_PADDING)) x) eqn:Hhi.
  { apply Qltb_lt in Hhi. split; [by left|]. split.
    - intros k Hk. split; [lia|]. intros [_ Hlt]. exfalso.
      unfold zoneX, BOARD_WIDTH, COLS, BOARD_PADDING, COLUMN_WIDTH in *.
      assert (inject_Z (20 + k * 100 + 100)
              <= inject_Z (7 * 100 + 20 * 2 - 20))%Q
        by (rewrite <- Zle_Qle; lia).
      lra.
    - split; [|done]. intros _. right.
      unfold zoneX, BOARD_WIDTH, COLS, BOARD_PADDING, COLUMN_WIDTH in *.
      apply Qlt_le_weak. exact Hhi. }
  assert (Hhi' : (x <= inject_Z (BOARD_WIDTH - BOARD_PADDING))%Q).
  { apply Qnot_lt_le. intros H. apply Qltb_lt in H. congruence. }
  set (c := Qfloor ((x - inject_Z BOARD_PADDING) / inject_Z COLUMN_WIDTH)).
  assert (Hc : 0 ≤ c ≤ COLS).
  { pose proof (proj1 (column_of x c) eq_refl) as [H1 H2].
    unfold zoneX, BOARD_WIDTH, COLS, BOARD_PADDING, COLUMN_WIDTH in *.
    split.
    - assert (0 < c + 1); [|lia].
      assert (20 < 20 + c * 100 + 100); [|lia].
      rewrite Zlt_Qlt. lra.
    - assert (20 + c * 100 ≤ 7 * 100 + 20 * 2 - 20); [|lia].
      rewrite Zle_Qle. lra. }
  destruct (Z.eq_dec c COLS) as [Heq|Hne].
  - rewrite Heq. simpl. split; [by left|]. split.
    + intros k Hk. split; [lia|]. intros Hz. apply column_of in Hz.
      fold c in Hz. lia.
    + split; [|done]. intros _. right.
      pose proof (proj1 (column_of x c) eq_refl) as [H1 _].
      by rewrite Heq in H1.
  - replace ((c >=? 0) && (c <? COLS)) with true.
    2:{ symmetry. apply andb_true_iff.
        split; [apply Z.geb_le|apply Z.ltb_lt]; lia. }
    split; [right; lia|]. split.
    + intros k Hk. apply column_of.
    + split; [lia|]. intros [Hl|Hr]; exfalso.
      * apply (Qlt_not_le _ _ Hl). exact Hlo'.
      * pose proof (proj1 (column_of x c) eq_refl) as [_ H2].
        assert (zoneX COLS < zoneX c + COLUMN_WIDTH).
        { rewrite Zlt_Qlt. lra. }
        unfold zoneX, COLS, COLUMN_WIDTH in *. lia.
Qed.

Lemma handleKeyDown_range (disabled : bool) (key : string) (col : Z) :
  0 ≤ col < COLS →
  0 ≤ (handleKeyDown disabled key col).1 < COLS
  ∧ ∀ c, (handleKeyDown disabled key col).2 = Some c → c = col.
Proof.
  intros Hcol. unfold handleKeyDown, COLS in *.
  destruct disabled; [by split|].
  destruct (String.eqb key "ArrowLeft"); [simpl; split; [lia|done]|].
  destruct (String.eqb key "ArrowRight"); [simpl; split; [lia|done]|].
  destruct (String.eqb key "Enter" || String.eqb key " "); simpl;
    (split; [lia|]); [|done]. by intros c [= <-].
Qed.

(** X21. Whatever keys are pressed, the column selected with the keyboard
    stays on the board, and every column handed to [onDrop], that is to
    [handleColumnClick], is a column of the board. *)
Theorem pressKeys_on_board (presses : list (bool * string)) :
  0 ≤ (pressKeys presses).1 < COLS
  ∧ ∀ col, col ∈ (pressKeys presses).2 → 0 ≤ col < COLS.
Proof.
  unfold pressKeys.
  assert (Hgen : ∀ acc : Z * list Z,
            0 ≤ acc.1 < COLS → (∀ col, col ∈ acc.2 → 0 ≤ col < COLS) →
            let res := foldl (λ acc press,
                         let '(currentCol, dropped) :=
                           handleKeyDown press.1 press.2 acc.1 in
                         (currentCol, acc.2 ++ option_list dropped))
                         acc presses in
            0 ≤ res.1 < COLS ∧ ∀ col, col ∈ res.2 → 0 ≤ col < COLS).
  { induction presses as [|[disabled key] presses IH]; intros [col drops];
      simpl; [done|].
    intros Hcol Hdrops.
    destruct (handleKeyDown_range disabled key col Hcol) as [Hnew Hdrop].
    destruct (handleKeyDown disabled key col) as [col' dropped].
    simpl in *. apply IH; simpl; [done|].
    intros c Hc. apply elem_of_app in Hc as [Hc|Hc]; [by apply Hdrops|].
    destruct dropped as [d|]; simpl in Hc; [|by apply elem_of_nil in Hc].
    apply list_elem_of_singleton in Hc as ->.
    by rewrite (Hdrop d eq_refl). }
  apply Hgen; simpl.
  - unfold startCol, COLS. lia.
  - intros col Hcol. by apply elem_of_nil in Hcol.
Qed.

(** X22. [saveGame] appends the game and keeps the last hundred: the stored
    list is the end of the old list followed by the new game, the new game
    is its last element, and nothing is dropped below a hundred games. *)
Theorem saveGame_last_hundred (stored : storage) (item : HistoryItem) :
  let games := getAllGames (saveGame stored item).1 in
  (saveGame stored item).2 = true
  ∧ length games = (S (length (getAllGames stored)) `min` 100)%nat
  ∧ list.last games = Some item
  ∧ games `suffix_of` (getAllGames stored ++ [item])
  ∧ ((length (getAllGames stored) < 100)%nat →
     games = getAllGames stored ++ [item]).
Proof.
  simpl. unfold lastHundred. generalize (getAllGames stored) as ex.
  intros ex. rewrite length_app. simpl.
  split; [done|]. split; [|split; [|split]].
  - rewrite length_drop, length_app. simpl. lia.
  - rewrite drop_app_le by lia. apply last_snoc.
  - apply suffix_drop.
  - intros Hlt. replace (length ex + 1 - 100)%nat with 0%nat by lia. done.
Qed.

Lemma find_snoc_fresh (id : string) (l : list HistoryItem)
    (item : HistoryItem) :
  (∀ g, g ∈ l → itemId g ≠ id) → itemId item = id →
  snd <$> list_find (λ game, itemId game = id) (l ++ [item]) = Some item.
Proof.
  intros Hl Hid. induction l as [|g l IH]; simpl.
  - by rewrite decide_True.
  - rewrite decide_False by (apply Hl, elem_of_cons; auto).
    destruct (list_find _ (l ++ [item])) as [[i x]|] eqn:Hf; simpl in *.
    + apply IH. intros g' Hg'. apply Hl, elem_of_cons. auto.
    + exfalso. assert (None = Some item); [|done].
      apply IH. intros g' Hg'. apply Hl, elem_of_cons. auto.
Qed.

(** X23. A game saved under an id that no stored game has is found again by
    [getGameById]; after [clearHistory] no game is found. *)
Theorem getGameById_saved (stored : storage) (item : HistoryItem) :
  (∀ g, g ∈ getAllGames stored → itemId g ≠ itemId item) →
  getGameById (saveGame stored item).1 (itemId item) = Some item
  ∧ ∀ id, getGameById (clearHistory (saveGame stored item).1).1 id = None.
Proof.
  intros Hfresh. split; [|done]. unfold getGameById. simpl.
  unfold lastHundred. rewrite drop_app_le by (rewrite length_app; simpl; lia).
  apply find_snoc_fresh; [|done].
  intros g Hg. apply Hfresh.
  rewrite <- (take_drop (length (getAllGames stored ++ [item]) - 100)
                (getAllGames stored)).
  apply elem_of_app. by right.
Qed.

Lemma getGameById_saved_witness :
  getGameById
    (saveGame None (savedItem "game_1" (Some 1) initialState)).1 "game_1"
  = Some (savedItem "game_1" (Some 1) initialState).
Proof.
  apply (getGameById_saved None (savedItem "game_1" (Some 1) initialState)).
  intros g Hg. by apply elem_of_nil in Hg.
Defined.

End InterfaceFacts.

(** ** Alpha-beta pruning in [minimax] *)

Module PruningFacts.
Import Board AI Spec More BoardFacts AIMore.

Lemma numLe_nle (x y : num) : numLe x y = true ↔ nle x y.
Proof. destruct x, y; simpl; try done. apply Z.leb_le. Qed.

Lemma numLe_not_nle (x y : num) : numLe x y = false ↔ ¬ nle x y.
Proof.
  rewrite <- numLe_nle. destruct (numLe x y); split; done.
Qed.

Lemma nle_antisym (x y : num) : nle x y → nle y x → x = y.
Proof. destruct x, y; simpl; try done. intros. f_equal. lia. Qed.

Local Ltac nums :=
  unfold bounds in *;
  repeat match goal with
         | x : num |- _ => destruct x; simpl in *; try tauto
         end;
  try lia.

Lemma exhaustive_step (b : board) (d : nat) (isMaximizing : bool)
    (aiPlayer opponent : Z) :
  exhaustive b (S d) isMaximizing aiPlayer opponent
  = match winScan b aiPlayer opponent
            (10000 + Z.of_nat (S d)) (-10000 - Z.of_nat (S d)) with
    | Some v => Fin v
    | None =>
        if (length (getAvailableMoves b) =? 0)%nat then Fin 0
        else if isMaximizing
        then bestOf mathMax (exactChild b d aiPlayer false aiPlayer opponent)
               NegInf (getAvailableMoves b)
        else bestOf mathMin (exactChild b d opponent true aiPlayer opponent)
               PosInf (getAvailableMoves b)
    end.
Proof.
  cbn [exhaustive].
  destruct (winScan b aiPlayer opponent _ _); [done|].
  destruct (length (getAvailableMoves b) =? 0)%nat; [done|].
  generalize (getAvailableMoves b) as cols. intros cols. unfold bestOf.
  destruct isMaximizing.
  - generalize NegInf as best.
    induction cols as [|col cols IH]; intros best; [done|].
    cbn [foldl]. rewrite IH. f_equal. unfold exactChild.
    destruct (dropDisc (cloneBoard b) col aiPlayer) as [testBoard result].
    by destruct (negb (success result)).
  - generalize PosInf as best.
    induction cols as [|col cols IH]; intros best; [done|].
    cbn [foldl]. rewrite IH. f_equal. unfold exactChild.
    destruct (dropDisc (cloneBoard b) col opponent) as [testBoard result].
    by destruct (negb (success result)).
Qed.

Lemma bestOf_max_ge (exact : Z → option num) (cols : list Z) (start : num) :
  nle start (bestOf mathMax exact start cols).
Proof.
  revert start. induction cols as [|col cols IH]; intros start.
  - simpl. nums.
  - unfold bestOf in *. cbn [foldl]. destruct (exact col) as [v|]; [|apply IH].
    specialize (IH (mathMax start v)). revert IH.
    generalize (foldl (λ best col0, match exact col0 with
                     | None => best | Some v0 => mathMax best v0 end)
                  (mathMax start v) cols).
    intros t. nums.
Qed.

Lemma bestOf_min_le (exact : Z → option num) (cols : list Z) (start : num) :
  nle (bestOf mathMin exact start cols) start.
Proof.
  revert start. induction cols as [|col cols IH]; intros start.
  - simpl. nums.
  - unfold bestOf in *. cbn [foldl]. destruct (exact col) as [v|]; [|apply IH].
    specialize (IH (mathMin start v)). revert IH.
    generalize (foldl (λ best col0, match exact col0 with
                     | None => best | Some v0 => mathMin best v0 end)
                  (mathMin start v) cols).
    intros t. nums.
Qed.

(** The maximizing loop of [minimax] against the maximum over all columns:
    [M] is the exact maximum of the columns done, [m] is [maxScore]. *)
Lemma maxLoop_bounds (call : num → Z → option num) (exact : Z → option num)
    (alpha beta : num) (cols : list Z) :
  ∀ m a M,
    (∀ a' col, col ∈ cols → ¬ nle beta a' →
       agree a' beta (call a' col) (exact col)) →
    a = mathMax alpha m → ¬ nle beta a → nle M m →
    (¬ nle m alpha → M = m) →
    bounds alpha beta (maxLoop call beta cols m a)
      (bestOf mathMax exact M cols).
Proof.
  induction cols as [|col cols IH]; intros m a M Hcall Ha Hab HM Hex.
  - simpl. subst a. clear Hcall.
    assert (¬ nle m alpha → nle m M ∧ nle M m).
    { intros H. rewrite (Hex H). split; nums. }
    clear Hex. nums.
  - cbn [maxLoop]. unfold bestOf. cbn [foldl]. fold (bestOf mathMax exact).
    pose proof (Hcall a col (list_elem_of_here _ _) Hab) as Hc.
    unfold agree in Hc.
    destruct (call a col) as [r|], (exact col) as [v|]; try done.
    2:{ apply IH; try done. intros a' c Hc'. apply Hcall.
        by apply list_elem_of_further. }
    fold (bestOf mathMax exact (mathMax M v) cols).
    destruct (numLe beta (mathMax a r)) eqn:Hcut.
    + apply numLe_nle in Hcut.
      pose proof (bestOf_max_ge exact cols (mathMax M v)) as Hge.
      revert Hge. generalize (bestOf mathMax exact (mathMax M v) cols).
      intros t Hge. subst a. clear IH Hcall Hex.
      nums.
    + apply numLe_not_nle in Hcut.
      apply IH.
      * intros a' c Hc'. apply Hcall. by apply list_elem_of_further.
      * subst a. clear. nums; f_equal; lia.
      * done.
      * subst a. clear IH Hcall Hex. nums.
      * intros Hgt. subst a.
        assert (¬ nle m alpha → nle m M ∧ nle M m).
        { intros H. rewrite (Hex H). split; nums. }
        apply nle_antisym; clear IH Hcall Hex; nums.
Qed.

(** The minimizing loop, in the same way. *)
Lemma minLoop_bounds (call : num → Z → option num) (exact : Z → option num)
    (alpha beta : num) (cols : list Z) :
  ∀ m bt M,
    (∀ b' col, col ∈ cols → ¬ nle b' alpha →
       agree alpha b' (call b' col) (exact col)) →
    bt = mathMin beta m → ¬ nle bt alpha → nle m M →
    (¬ nle beta m → M = m) →
    bounds alpha beta (minLoop call alpha cols m bt)
      (bestOf mathMin exact M cols).
Proof.
  induction cols as [|col cols IH]; intros m bt M Hcall Hb Hab HM Hex.
  - simpl. subst bt. clear Hcall.
    assert (¬ nle beta m → nle m M ∧ nle M m).
    { intros H. rewrite (Hex H). clear. split; nums. }
    clear Hex. nums.
  - cbn [minLoop]. unfold bestOf. cbn [foldl]. fold (bestOf mathMin exact).
    pose proof (Hcall bt col (list_elem_of_here _ _) Hab) as Hc.
    unfold agree in Hc.
    destruct (call bt col) as [r|], (exact col) as [v|]; try done.
    2:{ apply IH; try done. intros b' c Hc'. apply Hcall.
        by apply list_elem_of_further. }
    fold (bestOf mathMin exact (mathMin M v) cols).
    destruct (numLe (mathMin bt r) alpha) eqn:Hcut.
    + apply numLe_nle in Hcut.
      pose proof (bestOf_min_le exact cols (mathMin M v)) as Hge.
      revert Hge. generalize (bestOf mathMin exact (mathMin M v) cols).
      intros t Hge. subst bt. clear IH Hcall Hex.
      nums.
    + apply numLe_not_nle in Hcut.
      apply IH.
      * intros b' c Hc'. apply Hcall. by apply list_elem_of_further.
      * subst bt. clear. nums; f_equal; lia.
      * done.
      * subst bt. clear IH Hcall Hex. nums.
      * intros Hgt. subst bt.
        assert (¬ nle beta m → nle m M ∧ nle M m).
        { intros H. rewrite (Hex H). clear. split; nums. }
        apply nle_antisym; clear IH Hcall Hex; nums.
Qed.

Lemma bounds_refl (alpha beta r : num) : bounds alpha beta r r.
Proof. nums. Qed.

Lemma minimax_bounds (aiPlayer opponent : Z) (d : nat) :
  ∀ b isMaximizing alpha beta, ¬ nle beta alpha →
    bounds alpha beta
      (minimax b d isMaximizing aiPlayer opponent alpha beta)
      (exhaustive b d isMaximizing aiPlayer opponent).
Proof.
  induction d as [|d IH]; intros b isMaximizing alpha beta Hab.
  - apply bounds_refl.
  - rewrite minimax_step, exhaustive_step.
    destruct (winScan b aiPlayer opponent _ _); [apply bounds_refl|].
    destruct (length (getAvailableMoves b) =? 0)%nat; [apply bounds_refl|].
    destruct isMaximizing.
    + apply maxLoop_bounds.
      * intros a' col _ Ha'. unfold agree, child, exactChild.
        destruct (dropDisc (cloneBoard b) col aiPlayer) as [tb res].
        destruct (negb (success res)); [done|]. by apply IH.
      * by destruct alpha.
      * done.
      * done.
      * intros H. by destruct H.
    + apply minLoop_bounds.
      * intros b' col _ Hb'. unfold agree, child, exactChild.
        destruct (dropDisc (cloneBoard b) col opponent) as [tb res].
        destruct (negb (success res)); [done|]. by apply IH.
      * by destruct beta.
      * done.
      * by destruct beta.
      * intros H. destruct H. by destruct beta.
Qed.

(** X25. Alpha-beta pruning does not change the result of the search:
    with the full window [(-Infinity, Infinity)], as [getHardMove] calls
    it, [minimax] returns the value of minimax without pruning, and so is
    the score of every column in [getHardMove].  With any window
    [alpha < beta], a result at or below [alpha] is an upper bound of that
    value, a result at or above [beta] a lower bound, and a result between
    them is the value. *)
Theorem minimax_pruning_exact (b : board) (depth : nat) (isMaximizing : bool)
    (aiPlayer opponent : Z) :
  minimax b depth isMaximizing aiPlayer opponent NegInf PosInf
  = exhaustive b depth isMaximizing aiPlayer opponent
  ∧ (∀ col, hardScore b aiPlayer (S depth) col
       = exhaustive (dropDisc b col aiPlayer).1 depth false aiPlayer
           (opponentOf aiPlayer))
  ∧ ∀ alpha beta, numLe beta alpha = false →
      let r := minimax b depth isMaximizing aiPlayer opponent alpha beta in
      let v := exhaustive b depth isMaximizing aiPlayer opponent in
      (numLe r alpha = true → numLe v r = true)
      ∧ (numLe beta r = true → numLe r v = true)
      ∧ (numLe r alpha = false → numLe beta r = false → r = v).
Proof.
  assert (Hfull : ∀ b' d m,
            minimax b' d m aiPlayer opponent NegInf PosInf
            = exhaustive b' d m aiPlayer opponent).
  { intros b' d m.
    pose proof (minimax_bounds aiPlayer opponent d b' m NegInf PosInf) as H.
    revert H. generalize (minimax b' d m aiPlayer opponent NegInf PosInf).
    generalize (exhaustive b' d m aiPlayer opponent). intros v r H.
    apply nle_antisym; nums. }
  split; [apply Hfull|]. split.
  - intros col. unfold hardScore. rewrite cloneBoard_id. simpl.
    rewrite Nat.sub_0_r.
    pose proof (minimax_bounds aiPlayer (opponentOf aiPlayer) depth
                  (dropDisc b col aiPlayer).1 false NegInf PosInf) as H.
    revert H. generalize (minimax (dropDisc b col aiPlayer).1 depth false
                            aiPlayer (opponentOf aiPlayer) NegInf PosInf).
    generalize (exhaustive (dropDisc b col aiPlayer).1 depth false aiPlayer
                  (opponentOf aiPlayer)). intros v r H.
    apply nle_antisym; nums.
  - intros alpha beta Hab r v. apply numLe_not_nle in Hab.
    destruct (minimax_bounds aiPlayer opponent depth b isMaximizing
                alpha beta Hab) as (HA & HB & HC).
    fold r in HA, HB, HC. fold v in HA, HB, HC.
    rewrite !numLe_nle, !numLe_not_nle. split; [done|]. split; [done|].
    intros H1 H2. destruct (HC H1 H2). by apply nle_antisym.
Qed.

End PruningFacts.

(** ** The page with its suspended handlers *)

Module PageFacts.
Import Board AI Session History Spec More.
Import BoardFacts AIFacts SearchFacts SessionFacts BoardMore SessionMore.

(** While a move is in progress, and before a game is started, a click,
    [makeAIMove] and undo return at once. *)
Lemma busy_ignores (st : State) (col : Z) :
  isAnimating st = true →
  handleColumnClick col st = (st, None) ∧ makeAIMove st = (st, false)
  ∧ handleUndo st = st.
Proof.
  intros Hanim. unfold handleColumnClick, makeAIMove, handleUndo.
  rewrite Hanim, !orb_true_r. done.
Qed.

Lemma fresh_ignores (st : State) (col : Z) :
  isGameActive st = false →
  handleColumnClick col st = (st, None) ∧ makeAIMove st = (st, false)
  ∧ handleUndo st = st.
Proof.
  intros Hact. unfold handleColumnClick, makeAIMove, handleUndo.
  rewrite Hact. done.
Qed.

(** [handleColumnClick] up to the [await] of [makeMove]. *)
Lemma click_begin (col : Z) (st : State) :
  handleColumnClick col st = (st, None)
  ∨ (isGameActive st = true ∧ isAnimating st = false
     ∧ ¬ (gameMode st = "ai" ∧ currentPlayer st = 2)
     ∧ success (dropDisc (currentBoard st) col (currentPlayer st)).2 = true
     ∧ handleColumnClick col st
       = (placing st col (currentPlayer st),
          Some (placedOf st col (currentPlayer st) None None)))
  ∨ (success (dropDisc (currentBoard st) col (currentPlayer st)).2 = false
     ∧ isColumnFull (currentBoard st) col = false).
Proof.
  unfold handleColumnClick.
  destruct (negb (isGameActive st) || isAnimating st) eqn:Hg; [by left|].
  apply orb_false_iff in Hg as [Hact Hanim]. apply negb_false_iff in Hact.
  destruct (String.eqb (gameMode st) "ai" && (currentPlayer st =? 2))
    eqn:Hturn; [by left|].
  destruct (isColumnFull (currentBoard st) col) eqn:Hfull; [by left|].
  destruct (success (dropDisc (currentBoard st) col (currentPlayer st)).2)
    eqn:Hok; [|by right; right].
  right. left. split; [done|]. split; [done|]. split.
  { intros [Hm Hp]. rewrite Hm, Hp in Hturn. done. }
  split; [done|].
  unfold makeMove. rewrite Hanim.
  destruct st as [b p gm ad po act anim h u]. simpl in *.
  unfold placing, placedOf, checkpointOf, pushCheckpoint, setAnimating,
    setUndo, setBoard. simpl. rewrite !cloneBoard_id.
  destruct (dropDisc b col p) as [b' res] eqn:Hd. simpl in *.
  rewrite Hok. simpl. by subst.
Qed.

(** [makeAIMove] from the end of the thinking delay to its second
    [await]. *)
Lemma think_step (rnd : Q) (face text : string) (st : State) :
  sized (currentBoard st) → isAnimating st = true →
  makeAIMoveThink rnd face text st = (setAnimating st false, None)
  ∨ ∃ col,
      success (dropDisc (currentBoard st) col 2).2 = true
      ∧ makeAIMoveThink rnd face text st
        = (placing (setAnimating st false) col 2,
           Some (placedOf (setAnimating st false) col 2
                   (Some face) (Some text))).
Proof.
  intros Hsz Hanim. unfold makeAIMoveThink.
  destruct (getAIMove (currentBoard st) (aiDifficulty st) 2 rnd)
    as [aiCol|]; [|by left].
  destruct ((aiCol =? -1) || isColumnFull (currentBoard st) aiCol) eqn:Hbad;
    [by left|].
  apply orb_false_iff in Hbad as [_ Hfull].
  pose proof (dropDisc_after_guard (currentBoard st) aiCol 2 Hsz Hfull)
    as Hok.
  right. exists aiCol. split; [done|].
  destruct st as [b p gm ad po act anim h u]. simpl in *.
  unfold placing, placedOf, checkpointOf, pushCheckpoint, setAnimating,
    setUndo, setBoard. simpl. rewrite !cloneBoard_id.
  destruct (dropDisc b aiCol 2) as [b' res] eqn:Hd. simpl in *.
  rewrite Hok. simpl. by subst.
Qed.

(** The rest of a move after the animation. *)
Lemma resume_settled (st0 : State) (col s next : Z)
    (face text : option string) :
  afterAnimation (placedOf st0 col s face text) next (placing st0 col s)
  = settled st0 col s next face text.
Proof.
  destruct st0 as [b p gm ad po act anim h u].
  unfold afterAnimation, placedOf, placing, settled, moveOf, checkpointOf,
    handleGameOver, setAnimating, setActive, setPlayer, setHistory. simpl.
  rewrite !cloneBoard_id.
  destruct (win _); simpl; [done|]. by destruct (isBoardFull _).
Qed.

Lemma consistent_setDifficulty (st : State) (d : string) :
  consistent st → consistent (setDifficulty st d).
Proof. by destruct st. Qed.

Lemma tidy_setDifficulty (st : State) (d : string) :
  tidy st → tidy (setDifficulty st d).
Proof. intros [Hc Hall]. split; [by apply consistent_setDifficulty|done]. Qed.

Lemma tidy_new (mode order difficulty : string) (st : State) :
  isAnimating st = false → tidy (handleNewGameSubmit mode order difficulty st).
Proof.
  intros Hanim. split; [by apply consistent_new|]. intros _. constructor.
Qed.

Lemma tidy_undo (st : State) : tidy st → tidy (handleUndo st).
Proof.
  intros [Hc Hall]. split; [by apply consistent_undo|].
  unfold handleUndo.
  destruct (negb (isGameActive st) || isAnimating st
            || (length (undoStack st) =? 0)%nat); [done|].
  destruct (list.last (undoStack st)); [|done]. simpl.
  intros Hm. by apply Forall_take, Hall.
Qed.

Lemma tidy_settled (st : State) (col : Z) (face text : option string)
    (ai : bool) :
  tidy st → isGameActive st = true →
  success (dropDisc (currentBoard st) col (currentPlayer st)).2 = true →
  (if ai then currentPlayer st = 2 ∧ is_Some face ∧ is_Some text
   else face = None ∧ text = None
        ∧ ¬ (gameMode st = "ai" ∧ currentPlayer st = 2)) →
  tidy (settled st col (currentPlayer st) (opponentOf (currentPlayer st))
          face text).
Proof.
  intros [Hc Hall] Hact Hok Hwho. split; [by apply consistent_settled|].
  simpl. intros Hm. apply Forall_app. split; [by apply Hall|].
  constructor; [|constructor]. unfold byHumanOrAI. simpl.
  destruct ai.
  - right. exact Hwho.
  - left. destruct Hwho as (-> & _ & Hturn). split; [|done].
    destruct Hc as (_ & _ & Hon & _). destruct (Hon Hact) as [_ Hp].
    assert (isSide (currentPlayer st)) as [H1|H2]
      by (rewrite Hp; apply isSide_toMove, isSide_starter); [done|].
    by destruct Hturn.
Qed.

Lemma tidy_sized (st : State) : tidy st → sized (currentBoard st).
Proof. intros [(Hrec & _) _]. by eapply recorded_sized. Qed.

Lemma tidy_calm (st : State) : tidy st → isAnimating st = false.
Proof. by intros [(_ & Hanim & _) _]. Qed.

Lemma midMove_busy (st : State) (p : Placed) (ai : bool) :
  midMove st p ai → isAnimating st = true.
Proof. by intros (st0 & col & face & text & _ & _ & _ & -> & _). Qed.

Lemma midMove_setDifficulty (st : State) (p : Placed) (ai : bool)
    (d : string) :
  midMove st p ai → midMove (setDifficulty st d) p ai.
Proof.
  intros (st0 & col & face & text & Ht & Hact & Hok & -> & -> & Hwho).
  exists (setDifficulty st0 d), col, face, text.
  split; [by apply tidy_setDifficulty|]. by destruct st0.
Qed.

(** One signal keeps the page in order. *)
Lemma orderly_react (pg : page) (s : signal) :
  orderly pg →
  match s, pg.2 with Submit _ _ _, _ :: _ => False | _, _ => True end →
  orderly (react pg s).
Proof.
  destruct pg as [st waiting]. unfold orderly. simpl.
  destruct waiting as [|t [|t' waiting]]; [| |by destruct t].
  - (* nothing is suspended *)
    intros Hidle _.
    assert (Hanim : isAnimating st = false).
    { destruct Hidle as [(_ & _ & ?)|?]; [done|by apply tidy_calm]. }
    destruct s as [mode order difficulty|col| | |d|i rnd face text|i]; simpl.
    + right. by apply tidy_new.
    + destruct Hidle as [Hf|Ht].
      { destruct Hf as (Hb & Hact & ?).
        destruct (fresh_ignores st col Hact) as (-> & _). simpl.
        by left. }
      destruct (click_begin col st)
        as [->|[(Hact & _ & Hturn & Hok & ->)|[Hfail Hfull]]]; simpl.
      * by right.
      * exists st, col, None, None. done.
      * rewrite (dropDisc_after_guard _ _ _ (tidy_sized _ Ht) Hfull)
          in Hfail. done.
    + unfold makeAIMove.
      destruct (negb (isGameActive st) || isAnimating st
                || negb (currentPlayer st =? 2)) eqn:Hg; simpl; [done|].
      apply orb_false_iff in Hg as [Hg Hp].
      apply orb_false_iff in Hg as [Hact _].
      apply negb_false_iff in Hact. apply negb_false_iff, Z.eqb_eq in Hp.
      destruct Hidle as [(_ & Hf & _)|Ht]; [congruence|].
      split; [done|]. split; [done|]. split; [done|].
      replace (setAnimating (setAnimating st true) false) with st; [done|].
      destruct st. unfold setAnimating. simpl in *. by subst.
    + destruct Hidle as [Hf|Ht]; [|right; by apply tidy_undo].
      destruct Hf as (Hb & Hact & ?).
      destruct (fresh_ignores st 0 Hact) as (_ & _ & ->). by left.
    + destruct Hidle as [Hf|Ht]; [by left|right; by apply tidy_setDifficulty].
    + done.
    + done.
  - (* one handler is suspended *)
    intros Hbusy Hcalm.
    assert (Hanim : isAnimating st = true).
    { destruct t as [p| |p]; [by eapply midMove_busy|by destruct Hbusy|
                               by eapply midMove_busy]. }
    destruct (busy_ignores st 0 Hanim) as (_ & Hai & Hundo).
    destruct s as [mode order difficulty|col| | |d|i rnd face text|i]; simpl.
    + done.
    + by destruct (busy_ignores st col Hanim) as (-> & _).
    + by rewrite Hai.
    + by rewrite Hundo.
    + destruct t as [p| |p]; [by apply midMove_setDifficulty|
                              |by apply midMove_setDifficulty].
      destruct Hbusy as (? & ? & ? & Ht). repeat (split; [done|]).
      by apply (tidy_setDifficulty _ d) in Ht.
    + destruct i as [|i]; simpl; [|done].
      destruct t as [p| |p]; simpl; [done| |done].
      destruct Hbusy as (_ & Hact & Hp & Ht).
      destruct (think_step rnd face text st) as [->|(col & Hok & ->)]; simpl.
      * by apply (tidy_sized _ Ht).
      * done.
      * by right.
      * exists (setAnimating st false), col, (Some face), (Some text).
        simpl. rewrite Hp. done.
    + destruct i as [|i]; simpl; [|by destruct t].
      destruct t as [p| |p]; simpl; [|done|].
      * destruct Hbusy
          as (st0 & col & face & text & Ht & Hact & Hok & -> & -> & Hwho).
        right. unfold makeMoveResume. rewrite resume_settled.
        by apply (tidy_settled st0 col face text false).
      * destruct Hbusy
          as (st0 & col & face & text & Ht & Hact & Hok & -> & -> & Hwho).
        right. unfold makeAIMoveResume. rewrite resume_settled.
        replace 1 with (opponentOf (currentPlayer st0))
          by (by rewrite (proj1 Hwho)).
        by apply (tidy_settled st0 col face text true).
Qed.

Lemma orderly_run (tr : list signal) (pg : page) :
  orderly pg → calmFrom pg tr = true → orderly (foldl react pg tr).
Proof.
  revert pg. induction tr as [|s tr IH]; intros pg Hord Hcalm; [done|].
  simpl in *. apply IH.
  - apply orderly_react; [done|].
    destruct s; try done. by destruct pg.2.
  - destruct s; try done. by destruct pg.2.
Qed.

Lemma orderly_browse (tr : list signal) :
  calm tr = true → orderly (browse tr).
Proof.
  apply orderly_run. left. done.
Qed.

(** Between two moves of a game that has been started. *)
Lemma browse_tidy (tr : list signal) :
  calm tr = true → (browse tr).2 = [] → currentBoard (browse tr).1 ≠ [] →
  tidy (browse tr).1.
Proof.
  intros Hcalm Hidle Hstarted. pose proof (orderly_browse tr Hcalm) as Hord.
  unfold orderly in Hord. rewrite Hidle in Hord.
  destruct Hord as [(Hb & _)|Ht]; done.
Qed.

(** X14. In every visit of the page in which no new game is submitted
    while a handler is suspended, whenever a game has been started and no
    handler is suspended, the move list rebuilds the board: replaying the
    moves of the game from an empty board, as [replayGame] and the replay
    display do, gives the current board.  For the game that
    [handleGameOver] saves, the replay display at a step shows the snapshot
    stored with the move of that step, whose turn number is the step plus
    one, and past the last move the saved final board. *)
Theorem session_replay (tr : list signal) (id : string) (w : option Z)
    (step : nat) :
  let st := (browse tr).1 in
  let game := savedItem id w st in
  calm tr = true → (browse tr).2 = [] → currentBoard st ≠ [] →
  rebuild (moveHistory st) = currentBoard st
  ∧ rebuildTo game (length (moves game) - 1) = finalBoard game
  ∧ match moves game !! step with
    | Some m => rebuildTo game step = boardSnapshot m
                ∧ turn m = Z.of_nat step + 1
    | None => rebuildTo game step = finalBoard game
    end.
Proof.
  intros st game Hcalm Hidle Hstarted.
  destruct (browse_tidy tr Hcalm Hidle Hstarted) as ((Hrec & _) & _).
  fold st in Hrec. pose proof (recorded_rebuild _ _ _ _ Hrec) as Hb.
  unfold rebuildTo, game, savedItem. simpl. rewrite cloneBoard_id.
  split; [done|]. split.
  - rewrite take_ge by lia. done.
  - destruct (moveHistory st !! step) as [m|] eqn:Hm.
    + destruct (recorded_at _ _ _ _ _ _ Hrec Hm)
        as (_ & _ & Ht & _ & _ & Hsnap & _). done.
    + apply lookup_ge_None in Hm. rewrite take_ge by lia. done.
Qed.

Lemma session_replay_witness :
  rebuild (moveHistory (browse aiVisit).1) = currentBoard (browse aiVisit).1.
Proof.
  refine (proj1 (session_replay aiVisit "game_1" None 0 _ _ _)).
  - vm_compute. reflexivity.
  - vm_compute. reflexivity.
  - vm_compute. discriminate.
Defined.

(** X15. In every such visit, whenever a game has been started and no
    handler is suspended, the moves of the game form a legal game of
    Connect Four: the board is the result of dropping the discs of the move
    list in order from an empty board, so it is reachable and holds one disc
    for each move; the side that [startNewGame] chose moves first and the
    sides alternate; every move is a successful drop of a side into a column
    of the board, on a board that was not decided yet, and records the row
    where the disc landed. *)
Theorem session_legal_game (tr : list signal) :
  let st := (browse tr).1 in
  let h := moveHistory st in
  calm tr = true → (browse tr).2 = [] → currentBoard st ≠ [] →
  currentBoard st = play createBoard ((λ m, (column m, player m)) <$> h)
  ∧ reachable (currentBoard st)
  ∧ discs (currentBoard st) = length h
  ∧ (∀ m, h !! 0%nat = Some m → player m = starter st)
  ∧ (∀ i m m', h !! i = Some m → h !! S i = Some m' →
       player m' = opponentOf (player m) ∧ player m' ≠ player m)
  ∧ (∀ i m, h !! i = Some m →
       let before := rebuild (take i h) in
       isSide (player m) ∧ 0 ≤ column m < COLS
       ∧ ¬ fourInRow before 1 ∧ ¬ fourInRow before 2
       ∧ success (dropDisc before (column m) (player m)).2 = true
       ∧ moveRow m = row (dropDisc before (column m) (player m)).2
       ∧ rebuild (take (S i) h)
         = (dropDisc before (column m) (player m)).1).
Proof.
  intros st h Hcalm Hidle Hstarted.
  destruct (browse_tidy tr Hcalm Hidle Hstarted) as ((Hrec & _) & _).
  fold st in Hrec. fold h in Hrec.
  pose proof (isSide_starter st) as Hs.
  split; [by eapply recorded_play|].
  split; [by eapply recorded_reachable|].
  split; [by eapply recorded_discs|].
  split; [|split].
  - intros m Hm.
    by destruct (recorded_at _ _ _ _ _ _ Hrec Hm) as (_ & -> & _).
  - intros i m m' Hm Hm'.
    destruct (recorded_at _ _ _ _ _ _ Hrec Hm') as (_ & Hp & _).
    rewrite (take_S_r _ _ _ Hm) in Hp. unfold toMove in Hp.
    rewrite last_snoc in Hp. split; [done|]. rewrite Hp.
    unfold opponentOf. destruct (player m =? 1) eqn:He; lia.
  - intros i m Hm. cbv zeta.
    destruct (recorded_at _ _ _ _ _ _ Hrec Hm)
      as ((H1 & H2 & _) & Hp & _ & Hok & Hrow & _ & Hnext & _).
    split; [rewrite Hp; by apply isSide_toMove|].
    destruct (dropDisc_landing _ _ _ Hok) as (Hc & _).
    unfold COLS. split; [lia|]. done.
Qed.

Lemma session_legal_game_witness :
  currentBoard (browse aiVisit).1
  = play createBoard ((λ m, (column m, player m))
                        <$> moveHistory (browse aiVisit).1).
Proof.
  refine (proj1 (session_legal_game aiVisit _ _ _)).
  - vm_compute. reflexivity.
  - vm_compute. reflexivity.
  - vm_compute. discriminate.
Defined.

(** X16. In every such visit, whenever a game has been started and no
    handler is suspended, the undo stack holds one checkpoint for each move
    of the game: checkpoint number [i] holds the board before move [i], the
    side that made it and the length [i]; while the game goes on, undo
    takes back exactly the last move. *)
Theorem session_undo_stack (tr : list signal) :
  let st := (browse tr).1 in
  let h := moveHistory st in
  calm tr = true → (browse tr).2 = [] → currentBoard st ≠ [] →
  length (undoStack st) = length h
  ∧ (∀ i ck, undoStack st !! i = Some ck →
       ∃ m, h !! i = Some m ∧ moveHistoryLength ck = i
            ∧ savedBoard ck = rebuild (take i h)
            ∧ savedPlayer ck = player m)
  ∧ (isGameActive st = true → ∀ m, list.last h = Some m →
       moveHistory (handleUndo st) = removelast h
       ∧ undoStack (handleUndo st) = removelast (undoStack st)
       ∧ currentBoard (handleUndo st) = rebuild (removelast h)
       ∧ currentPlayer (handleUndo st) = player m).
Proof.
  intros st h Hcalm Hidle Hstarted. subst h.
  destruct (browse_tidy tr Hcalm Hidle Hstarted) as ((Hrec & Hanim & _) & _).
  fold st in Hrec, Hanim.
  pose proof (recorded_length _ _ _ _ Hrec) as Hlen.
  split; [done|]. split.
  - intros i ck Hck. pose proof (lookup_lt_Some _ _ _ Hck) as Hlt.
    rewrite Hlen in Hlt.
    destruct (lookup_lt_is_Some_2 (moveHistory st) i Hlt) as [m Hm].
    destruct (recorded_at _ _ _ _ _ _ Hrec Hm)
      as (_ & _ & _ & _ & _ & _ & _ & Hu).
    rewrite Hu in Hck. injection Hck as <-. by exists m.
  - intros Hact m Hlast. unfold handleUndo. rewrite Hact, Hanim. simpl.
    apply last_Some in Hlast as [h0 Hh].
    assert (Hm : moveHistory st !! length h0 = Some m).
    { rewrite Hh, lookup_app_r, Nat.sub_diag by lia. done. }
    destruct (recorded_at _ _ _ _ _ _ Hrec Hm)
      as (_ & _ & _ & _ & _ & _ & _ & Hu).
    rewrite Hh, length_app in Hlen. simpl in Hlen.
    replace (length (undoStack st) =? 0)%nat with false
      by (symmetry; apply Nat.eqb_neq; lia).
    assert (Hlastu : list.last (undoStack st)
              = Some {| savedBoard := rebuild (take (length h0)
                                                 (moveHistory st));
                        savedPlayer := player m;
                        moveHistoryLength := length h0 |}).
    { rewrite last_lookup. rewrite <- Hu. f_equal. lia. }
    rewrite Hlastu. simpl. rewrite Hh, take_app_length, removelast_last.
    done.
Qed.

Lemma session_undo_stack_witness :
  length (undoStack (browse aiVisit).1)
  = length (moveHistory (browse aiVisit).1).
Proof.
  refine (proj1 (session_undo_stack aiVisit _ _ _)).
  - vm_compute. reflexivity.
  - vm_compute. reflexivity.
  - vm_compute. discriminate.
Defined.

(** X17. In every such visit with a game started, [isAnimating] is false
    exactly when no handler is suspended.  Then, while the game is active,
    nobody has four in a row, the board is not full and the side to move is
    the starter or the opponent of the last mover; when the game is over,
    the last move made four in a row for its side or filled the board, and
    clicks, AI timers and undo change nothing. *)
Theorem session_game_over (tr : list signal) :
  let st := (browse tr).1 in
  calm tr = true → currentBoard st ≠ [] →
  (isAnimating st = false ↔ (browse tr).2 = [])
  ∧ ((browse tr).2 = [] → isGameActive st = true →
       ¬ fourInRow (currentBoard st) 1 ∧ ¬ fourInRow (currentBoard st) 2
       ∧ isBoardFull (currentBoard st) = false
       ∧ currentPlayer st = toMove (starter st) (moveHistory st))
  ∧ ((browse tr).2 = [] → isGameActive st = false →
       (∃ m, list.last (moveHistory st) = Some m
             ∧ (fourInRow (currentBoard st) (player m)
                ∨ isBoardFull (currentBoard st) = true))
       ∧ ∀ col, react (browse tr) (Press col) = browse tr
                ∧ react (browse tr) Timer = browse tr
                ∧ react (browse tr) UndoButton = browse tr).
Proof.
  intros st Hcalm Hstarted.
  pose proof (orderly_browse tr Hcalm) as Hord.
  assert (Htidy : (browse tr).2 = [] → tidy st).
  { intros Hidle. by apply browse_tidy. }
  split; [|split].
  - unfold orderly in Hord. fold st in Hord.
    destruct (browse tr).2 as [|t [|t' waiting]] eqn:Hw.
    + split; [done|]. intros _. by apply tidy_calm, Htidy.
    + assert (isAnimating st = true) as ->; [|done].
      destruct t as [p| |p]; [by eapply midMove_busy|by destruct Hord|
                               by eapply midMove_busy].
    + by destruct t.
  - intros Hidle Hact.
    destruct (Htidy Hidle) as ((_ & _ & Hon & _) & _).
    destruct (Hon Hact) as ((H1 & H2 & H3) & Hp). done.
  - intros Hidle Hact.
    destruct (Htidy Hidle) as ((_ & _ & _ & Hoff) & _).
    split; [by apply Hoff|]. intros col.
    destruct (fresh_ignores st col Hact) as (Hc & Ha & Hu).
    destruct (browse tr) as [st' waiting] eqn:Hpg. simpl in *. subst st.
    by rewrite Hc, Ha, Hu.
Qed.

Lemma session_game_over_witness :
  isAnimating (browse aiVisit).1 = false ↔ (browse aiVisit).2 = [].
Proof.
  refine (proj1 (session_game_over aiVisit _ _)).
  - vm_compute. reflexivity.
  - vm_compute. discriminate.
Defined.

(** X19. In every such visit, whenever no handler is suspended and the
    game is one against the AI, each move of the human is a Red disc
    without face and each move of the AI is a Yellow disc with its face and
    text: a click never places a disc for the AI. *)
Theorem session_ai_sides (tr : list signal) :
  let st := (browse tr).1 in
  calm tr = true → (browse tr).2 = [] → currentBoard st ≠ [] →
  gameMode st = "ai" →
  ∀ m, m ∈ moveHistory st →
    (player m = 1 ∧ aiFace m = None)
    ∨ (player m = 2 ∧ is_Some (aiFace m) ∧ is_Some (aiText m)).
Proof.
  intros st Hcalm Hidle Hstarted Hmode m Hm.
  destruct (browse_tidy tr Hcalm Hidle Hstarted) as (_ & Hall).
  apply list_elem_of_lookup in Hm as [i Hi].
  exact (Forall_lookup_1 byHumanOrAI _ i m (Hall Hmode) Hi).
Qed.

Lemma session_ai_sides_witness :
  Forall (λ m, (player m = 1 ∧ aiFace m = None)
               ∨ (player m = 2 ∧ is_Some (aiFace m) ∧ is_Some (aiText m)))
    (moveHistory (browse aiVisit).1).
Proof.
  apply Forall_lookup_2. intros i m Hi.
  refine (session_ai_sides aiVisit _ _ _ _ m _).
  - vm_compute. reflexivity.
  - vm_compute. reflexivity.
  - vm_compute. discriminate.
  - vm_compute. reflexivity.
  - by eapply list_elem_of_lookup_2.
Defined.

(** The condition on new games is needed: [startNewGame] does not look at
    [isAnimating], and a new game submitted while a disc is falling leaves
    a move in the move list whose disc is not on the board. *)
Lemma new_game_while_falling :
  let tr := [Submit "human" "player" "easy"; Press 3;
             Submit "human" "player" "easy"; Landed 0] in
  calm tr = false ∧ (browse tr).2 = []
  ∧ currentBoard (browse tr).1 = createBoard
  ∧ length (moveHistory (browse tr).1) = 1%nat
  ∧ undoStack (browse tr).1 = []
  ∧ rebuild (moveHistory (browse tr).1) ≠ currentBoard (browse tr).1.
Proof.
  cbv zeta. do 5 (split; [vm_compute; reflexivity|]).
  vm_compute. discriminate.
Qed.

Local Ltac settle Hanim :=
  simpl; rewrite ?Hanim; (split; [simpl; lia|]);
  split; intros ?H; try done; try congruence;
  match goal with H : _ ≠ _ |- _ => by destruct H end.

(** X26. In every visit of the page, whatever the order of the signals,
    at most one handler is suspended at an [await], and [isAnimating] is
    set exactly then; while it is set, clicks, AI timers and undo change
    nothing. *)
Theorem one_at_a_time (tr : list signal) :
  (length (browse tr).2 ≤ 1)%nat
  ∧ (isAnimating (browse tr).1 = true ↔ (browse tr).2 ≠ [])
  ∧ (isAnimating (browse tr).1 = true →
     ∀ col, react (browse tr) (Press col) = browse tr
            ∧ react (browse tr) Timer = browse tr
            ∧ react (browse tr) UndoButton = browse tr).
Proof.
  rewrite assoc by apply _. split.
  2:{ intros Hanim col. destruct (browse tr) as [st waiting]. simpl in *.
      destruct (busy_ignores st col Hanim) as (-> & -> & ->). done. }
  unfold browse.
  assert (Hgen : ∀ pg : page,
            ((length pg.2 ≤ 1)%nat ∧ (isAnimating pg.1 = true ↔ pg.2 ≠ [])) →
            (length (foldl react pg tr).2 ≤ 1)%nat
            ∧ (isAnimating (foldl react pg tr).1 = true
               ↔ (foldl react pg tr).2 ≠ [])).
  { induction tr as [|s tr IH]; intros pg Hpg; [done|].
    simpl. apply IH. clear IH. destruct pg as [st waiting].
    destruct Hpg as [Hlen Hiff]. simpl in *.
    destruct waiting as [|t [|t' waiting]]; [| |simpl in Hlen; lia].
    - assert (Hanim : isAnimating st = false).
      { destruct (isAnimating st); [|done]. by destruct (proj1 Hiff). }
      clear Hiff Hlen.
      destruct s as [mode order difficulty|col| | |d|i rnd face text|i].
      + settle Hanim.
      + simpl. unfold handleColumnClick.
        destruct (negb (isGameActive st) || isAnimating st);
          [settle Hanim|].
        destruct (String.eqb _ _ && _); [settle Hanim|].
        destruct (isColumnFull _ _); [settle Hanim|].
        unfold makeMove. rewrite Hanim. simpl.
        destruct (dropDisc _ _ _) as [b' res].
        destruct (negb (success res)); settle Hanim.
      + simpl. unfold makeAIMove.
        destruct (negb (isGameActive st) || isAnimating st || _);
          settle Hanim.
      + simpl. unfold handleUndo.
        destruct (negb (isGameActive st) || isAnimating st || _);
          [settle Hanim|].
        destruct (list.last _); settle Hanim.
      + settle Hanim.
      + settle Hanim.
      + settle Hanim.
    - assert (Hanim : isAnimating st = true) by (by apply Hiff).
      clear Hiff Hlen.
      destruct (busy_ignores st 0 Hanim) as (_ & Hai & Hundo).
      destruct s as [mode order difficulty|col| | |d|i rnd face text|i].
      + settle Hanim.
      + simpl. destruct (busy_ignores st col Hanim) as (-> & _).
        settle Hanim.
      + simpl. rewrite Hai. settle Hanim.
      + simpl. rewrite Hundo. settle Hanim.
      + settle Hanim.
      + destruct i as [|i]; [|settle Hanim].
        destruct t as [p| |p]; [settle Hanim| |settle Hanim].
        simpl. unfold makeAIMoveThink.
        destruct (getAIMove _ _ _ _) as [aiCol|]; [|settle Hanim].
        destruct ((aiCol =? -1) || _); [settle Hanim|].
        simpl. destruct (dropDisc _ _ _) as [b' res].
        destruct (negb (success res)); settle Hanim.
      + destruct i as [|i]; [|destruct t; settle Hanim].
        destruct t as [p| |p]; [|settle Hanim|].
        * simpl. unfold makeMoveResume, afterAnimation. simpl.
          destruct (win _); [settle Hanim|].
          destruct (isBoardFull _); settle Hanim.
        * simpl. unfold makeAIMoveResume, afterAnimation. simpl.
          destruct (win _); [settle Hanim|].
          destruct (isBoardFull _); settle Hanim. }
  apply Hgen. simpl. split; [lia|done].
Qed.

End PageFacts.
